(** * SingleLinkedList: a verified model of single-linked-list.h

    The container of [single-linked-list.h] is a sentinel node [head_]
    followed by a chain of heap nodes, plus a redundant counter [size_].
    The model keeps the pointer structure of the source: nodes live in a
    memory indexed by 64-bit addresses, [nullptr] is address 0, and every
    member function is a state transformer on that memory. *)

From stdpp Require Import gmap list.
From Stdlib Require Import ZArith Lia.

Local Open Scope Z_scope.

(** [size_t] is a 64-bit unsigned integer; pointers range over the same
    interval and [nullptr] is 0. *)
Definition size_t_mod : Z := 18446744073709551616.

Definition nullptr : Z := 0.

(** The two instantiations of [BasicIterator<ValueType>]:
    [ValueType = Type] and [ValueType = const Type]. *)
Inductive ValueType := Mutable | ReadOnly.

(** [BasicIterator]: its only data member is [Node* node_]. *)
Record BasicIterator (V : ValueType) := MkIter { node_ : Z }.
Arguments MkIter {V} _.
Arguments node_ {V} _.

Abbreviation Iterator := (BasicIterator Mutable).
Abbreviation ConstIterator := (BasicIterator ReadOnly).

(** What [operator->] returns: a [ValueType*], either null or the address
    of the [value] member of the node at the given address. *)
Inductive pointer := null_pointer | value_of (node : Z).

Section Model.

Context {T : Type}.

(** [Node() = default] leaves [value] default-initialised; the sentinel
    carries this value and the container never reads it. *)
Variable T_default : T.

(** [operator==] and [operator<] of the element type. *)
Variable eqb : T → T → bool.
Variable ltb : T → T → bool.

Record Node := MkNode { value : T; next_node : Z }.

(** The memory. A [SingleLinkedList] object at address [c] has its member
    [head_] at [node !! c] (it is the first member, so [&head_] is [c]) and
    its member [size_] at [size_ !! c]; every other entry of [node] is a
    heap node made by [new Node]. *)
Record memory := MkMem { node : gmap Z Node; size_ : gmap Z Z }.

(** The addresses that belong to the free store; the containers themselves
    are automatic or static objects and live outside of it. *)
Variable on_heap : Z → bool.

(** [new Node] returns an address of the free store that is not in use, or
    fails with [std::bad_alloc]. *)
Variable new_addr : gmap Z Node → option Z.

Definition allocator_ok : Prop :=
  ∀ m a, new_addr m = Some a →
    m !! a = None ∧ 0 < a < size_t_mod ∧ on_heap a = true.

(** Results of running a member function. *)
Inductive outcome (A : Type) : Type :=
| Done (a : A)          (* normal return *)
| Throws (s : memory)   (* an exception leaves the call, memory as it is then *)
| Undefined             (* undefined behaviour: access through a bad pointer *)
| OutOfFuel.            (* the loop bound of the model was too small *)
Arguments Done {A} _.
Arguments Throws {A} _.
Arguments Undefined {A}.
Arguments OutOfFuel {A}.

#[global] Instance outcome_bind : MBind outcome := λ A B f r,
  match r with
  | Done a => f a
  | Throws s => Throws s
  | Undefined => Undefined
  | OutOfFuel => OutOfFuel
  end.

(** ** Memory accesses *)

(** Reading [p->value] and [p->next_node]. *)
Definition load (p : Z) (s : memory) : outcome Node :=
  match node s !! p with Some n => Done n | None => Undefined end.

(** [p->next_node = q]. *)
Definition store_next (p q : Z) (s : memory) : outcome memory :=
  match node s !! p with
  | Some n => Done (MkMem (<[p := MkNode (value n) q]> (node s)) (size_ s))
  | None => Undefined
  end.

(** [new Node(val, next)]. *)
Definition new_Node (val : T) (next : Z) (s : memory) : outcome (Z * memory) :=
  match new_addr (node s) with
  | Some a => Done (a, MkMem (<[a := MkNode val next]> (node s)) (size_ s))
  | None => Throws s
  end.

(** [delete p]: [p] must be a live node of the free store. *)
Definition delete_Node (p : Z) (s : memory) : outcome memory :=
  match node s !! p with
  | Some _ =>
    if on_heap p then Done (MkMem (delete p (node s)) (size_ s)) else Undefined
  | None => Undefined
  end.

Definition load_size (this : Z) (s : memory) : outcome Z :=
  match size_ s !! this with Some n => Done n | None => Undefined end.

Definition store_size (this n : Z) (s : memory) : outcome memory :=
  match size_ s !! this with
  | Some _ => Done (MkMem (node s) (<[this := n]> (size_ s)))
  | None => Undefined
  end.

(** [++size_] and [--size_] on a [size_t]. *)
Definition incr_size (this : Z) (s : memory) : outcome memory :=
  n ← load_size this s; store_size this ((n + 1) `mod` size_t_mod) s.

Definition decr_size (this : Z) (s : memory) : outcome memory :=
  n ← load_size this s; store_size this ((n - 1) `mod` size_t_mod) s.

(** ** BasicIterator *)

(** [BasicIterator() = default]: [node_ = nullptr]. *)
Definition iter_default {V} : BasicIterator V := MkIter nullptr.

(** [operator==] and [operator!=], within a flavour and across flavours. *)
Definition iter_eq {V W} (i : BasicIterator V) (rhs : BasicIterator W) : bool :=
  bool_decide (node_ rhs = node_ i).

Definition iter_ne {V W} (i : BasicIterator V) (rhs : BasicIterator W) : bool :=
  bool_decide (node_ rhs ≠ node_ i).

(** The converting constructor [BasicIterator(const BasicIterator<Type>&)]. *)
Definition iter_convert {V} (other : Iterator) : BasicIterator V :=
  MkIter (node_ other).

(** [operator++()]: [node_ = node_->next_node]. *)
Definition iter_incr {V} (i : BasicIterator V) (s : memory)
  : outcome (BasicIterator V) :=
  n ← load (node_ i) s; Done (MkIter (next_node n)).

(** [operator++(int)]: the answer is the old position, the iterator moves
    on; the pair is (answer, iterator after the call). *)
Definition iter_post_incr {V} (i : BasicIterator V) (s : memory)
  : outcome (BasicIterator V * BasicIterator V) :=
  let answer := MkIter (node_ i) in
  n ← load (node_ i) s; Done (answer, MkIter (next_node n)).

(** [operator*]: [node_->value]. *)
Definition iter_deref {V} (i : BasicIterator V) (s : memory) : outcome T :=
  n ← load (node_ i) s; Done (value n).

(** [operator->]: [if (node_) return &(node_->value); return nullptr;]. *)
Definition iter_arrow {V} (i : BasicIterator V) : pointer :=
  if decide (node_ i ≠ nullptr) then value_of (node_ i) else null_pointer.

(** Reading through the pointer that [operator->] returned. *)
Definition read_pointer (p : pointer) (s : memory) : outcome T :=
  match p with
  | null_pointer => Undefined
  | value_of a => n ← load a s; Done (value n)
  end.

(** ** The container *)

(** [SingleLinkedList() {}] at address [this]: the default member
    initialisers give [head_ = Node()] and [size_ = 0]. *)
Definition construct (this : Z) (s : memory) : memory :=
  MkMem (<[this := MkNode T_default nullptr]> (node s)) (<[this := 0]> (size_ s)).

Definition before_begin {V} (this : Z) : BasicIterator V := MkIter this.

Definition cbefore_begin (this : Z) : ConstIterator := MkIter this.

Definition begin {V} (this : Z) (s : memory) : outcome (BasicIterator V) :=
  hd ← load this s; Done (MkIter (next_node hd)).

Definition cbegin (this : Z) (s : memory) : outcome ConstIterator :=
  hd ← load this s; Done (MkIter (next_node hd)).

Definition end_ {V} : BasicIterator V := MkIter nullptr.

Definition cend : ConstIterator := MkIter nullptr.

Definition PushFront (this : Z) (val : T) (s : memory) : outcome memory :=
  hd ← load this s;
  '(a, s) ← new_Node val (next_node hd) s;
  s ← store_next this a s;
  incr_size this s.

Definition PopFront (this : Z) (s : memory) : outcome memory :=
  hd ← load this s;
  if decide (next_node hd ≠ nullptr) then
    let temp := next_node hd in
    n ← load temp s;
    s ← store_next this (next_node n) s;
    s ← delete_Node temp s;
    decr_size this s
  else Done s.

(** [while (size_) PopFront();] *)
Fixpoint Clear (fuel : nat) (this : Z) (s : memory) : outcome memory :=
  match fuel with
  | O => OutOfFuel
  | S fuel =>
    n ← load_size this s;
    if decide (n ≠ 0) then s ← PopFront this s; Clear fuel this s
    else Done s
  end.

Definition InsertAfter (this : Z) (pos : ConstIterator) (val : T) (s : memory)
  : outcome (Iterator * memory) :=
  if iter_eq pos (before_begin (V:=Mutable) this) then
    s ← PushFront this val s;
    it ← begin this s;
    Done (it, s)
  else
    n ← load (node_ pos) s;
    '(newtmp, s) ← new_Node val (next_node n) s;
    s ← store_next (node_ pos) newtmp s;
    s ← incr_size this s;
    Done (MkIter newtmp, s).

Definition EraseAfter (this : Z) (pos : ConstIterator) (s : memory)
  : outcome (Iterator * memory) :=
  if iter_eq pos (before_begin (V:=Mutable) this) then
    s ← PopFront this s;
    it ← begin this s;
    Done (it, s)
  else
    n ← load (node_ pos) s;
    victim ← load (next_node n) s;
    let new_next := next_node victim in
    s ← delete_Node (next_node n) s;
    s ← store_next (node_ pos) new_next s;
    s ← decr_size this s;
    n ← load (node_ pos) s;
    Done (MkIter (next_node n), s).

(** The member [swap]: the two [head_.next_node] and the two [size_] are
    exchanged, in the order of the source. *)
Definition swap (this other : Z) (s : memory) : outcome memory :=
  hd ← load this s;
  let temp_pt := next_node hd in
  temp_size ← load_size this s;
  ohd ← load other s;
  s ← store_next this (next_node ohd) s;
  osz ← load_size other s;
  s ← store_size this osz s;
  s ← store_size other temp_size s;
  store_next other temp_pt s.

Definition GetSize (this : Z) (s : memory) : outcome Z := load_size this s.

Definition IsEmpty (this : Z) (s : memory) : outcome bool :=
  n ← load_size this s; Done (bool_decide (n = 0)).

(** Leaving the scope of an object: its storage is given back. *)
Definition release (this : Z) (s : memory) : memory :=
  MkMem (delete this (node s)) (delete this (size_ s)).

(** [~SingleLinkedList() { Clear(); }], then the members go away. *)
Definition destroy (fuel : nat) (this : Z) (s : memory) : outcome memory :=
  s ← Clear fuel this s; Done (release this s).

(** Stack unwinding: when [r] throws, [cleanup] runs on the way out. *)
Definition unwind {A} (r : outcome A) (cleanup : memory → outcome memory)
  : outcome A :=
  match r with
  | Throws s => s ← cleanup s; Throws s
  | _ => r
  end.

(** [std::initializer_list<Type>]: the pointer [begin()] to the backing
    array, the elements of the array, and [sizeof(Type)], the distance in
    bytes from one element to the next. [begin()] of an empty list is
    unspecified; a value-initialised list has [begin() == nullptr]. *)
Record initializer_list := MkInit {
  il_begin : Z;
  il_sizeof : Z;
  il_array : list T
}.

(** [values.end()]: pointer arithmetic is arithmetic on 64-bit addresses. *)
Definition il_end (values : initializer_list) : Z :=
  (il_begin values + Z.of_nat (length (il_array values)) * il_sizeof values)
    `mod` size_t_mod.

(** Reading through [it]: defined when [it] points at an element of the
    backing array, undefined everywhere else. *)
Definition il_read (values : initializer_list) (it : Z) : outcome T :=
  let off := it - il_begin values in
  if decide (0 ≤ off ∧ off `mod` il_sizeof values = 0) then
    match il_array values !! Z.to_nat (off `div` il_sizeof values) with
    | Some v => Done v
    | None => Undefined
    end
  else Undefined.

(** The loop of the initializer-list constructor, from [it] downwards:
    the test [it >= values.begin()] compares two addresses, [--it] steps
    one element back. *)
Fixpoint init_loop (fuel : nat) (this : Z) (values : initializer_list) (it : Z)
    (s : memory) : outcome memory :=
  match fuel with
  | O => OutOfFuel
  | S fuel =>
    if decide (il_begin values ≤ it) then
      v ← il_read values it;
      s ← PushFront this v s;
      init_loop fuel this values ((it - il_sizeof values) `mod` size_t_mod) s
    else Done s
  end.

(** [SingleLinkedList(std::initializer_list<Type> values)], starting at
    [values.end()-1]. A constructor that throws leaves no object behind:
    the storage of [this] is given back (the nodes pushed so far are not). *)
Definition construct_init (fuel : nat) (this : Z) (values : initializer_list)
    (s : memory) : outcome memory :=
  unwind (init_loop fuel this values
            ((il_end values - il_sizeof values) `mod` size_t_mod)
            (construct this s))
         (λ s, Done (release this s)).

(** [for (auto it : src) dst.PushFront(it);] between the iterators [b] and
    [e] of [src]. *)
Fixpoint copy_loop {V} (fuel : nat) (dst : Z) (b e : BasicIterator V)
    (s : memory) : outcome memory :=
  match fuel with
  | O => OutOfFuel
  | S fuel =>
    if iter_ne b e then
      it ← iter_deref b s;
      s ← PushFront dst it s;
      b ← iter_incr b s;
      copy_loop fuel dst b e s
    else Done s
  end.

(** [SingleLinkedList(const SingleLinkedList& other)]. The automatic
    objects [tmp1] and [tmp] of the body live at the addresses [tmp1] and
    [tmp] of the constructor's frame; they are destroyed in reverse order
    when the body is left. The [assert] of the source holds by the default
    member initialisers. *)
Definition construct_copy (fuel : nat) (this other tmp1 tmp : Z) (s : memory)
  : outcome memory :=
  let s := construct this s in
  let s := construct tmp1 s in
  b ← cbegin other s;
  s ← unwind (copy_loop fuel tmp1 b cend s)
        (λ s, s ← destroy fuel tmp1 s; Done (release this s));
  let s := construct tmp s in
  b ← begin (V:=Mutable) tmp1 s;
  s ← unwind (copy_loop fuel tmp b end_ s)
        (λ s, s ← destroy fuel tmp s; s ← destroy fuel tmp1 s;
              Done (release this s));
  s ← swap this tmp s;
  s ← destroy fuel tmp s;
  destroy fuel tmp1 s.

(** [operator=(const SingleLinkedList& rhs)]: [tmp] is the automatic object
    of the body, [tmp1'] and [tmp'] those of the copy constructor that
    builds it. *)
Definition assign (fuel : nat) (this rhs tmp tmp1' tmp' : Z) (s : memory)
  : outcome memory :=
  if decide (this ≠ rhs) then
    s ← construct_copy fuel tmp rhs tmp1' tmp' s;
    s ← swap this tmp s;
    destroy fuel tmp s
  else Done s.

(** ** Comparison operators *)

(** [std::equal(first1, last1, first2, last2)] of the C++ standard library
    on forward iterators: both ranges are walked together, the first pair
    that [operator==] rejects gives [false], and at the end both ranges
    must be exhausted. *)
Fixpoint std_equal (fuel : nat) (first1 last1 first2 last2 : ConstIterator)
    (s : memory) : outcome bool :=
  match fuel with
  | O => OutOfFuel
  | S fuel =>
    if iter_ne first1 last1 && iter_ne first2 last2 then
      a ← iter_deref first1 s;
      b ← iter_deref first2 s;
      if eqb a b then
        first1 ← iter_incr first1 s;
        first2 ← iter_incr first2 s;
        std_equal fuel first1 last1 first2 last2 s
      else Done false
    else Done (iter_eq first1 last1 && iter_eq first2 last2)
  end.

(** [std::lexicographical_compare(first1, last1, first2, last2)] of the C++
    standard library. *)
Fixpoint std_lexicographical_compare (fuel : nat)
    (first1 last1 first2 last2 : ConstIterator) (s : memory) : outcome bool :=
  match fuel with
  | O => OutOfFuel
  | S fuel =>
    if iter_ne first1 last1 && iter_ne first2 last2 then
      a ← iter_deref first1 s;
      b ← iter_deref first2 s;
      if ltb a b then Done true
      else if ltb b a then Done false
      else
        first1 ← iter_incr first1 s;
        first2 ← iter_incr first2 s;
        std_lexicographical_compare fuel first1 last1 first2 last2 s
    else Done (iter_eq first1 last1 && iter_ne first2 last2)
  end.

Definition operator_eq (fuel : nat) (lhs rhs : Z) (s : memory) : outcome bool :=
  b1 ← cbegin lhs s; b2 ← cbegin rhs s;
  std_equal fuel b1 cend b2 cend s.

Definition operator_ne (fuel : nat) (lhs rhs : Z) (s : memory) : outcome bool :=
  r ← operator_eq fuel lhs rhs s; Done (negb r).

Definition operator_lt (fuel : nat) (lhs rhs : Z) (s : memory) : outcome bool :=
  b1 ← cbegin lhs s; b2 ← cbegin rhs s;
  std_lexicographical_compare fuel b1 cend b2 cend s.

Definition operator_le (fuel : nat) (lhs rhs : Z) (s : memory) : outcome bool :=
  r ← operator_lt fuel rhs lhs s; Done (negb r).

Definition operator_gt (fuel : nat) (lhs rhs : Z) (s : memory) : outcome bool :=
  operator_lt fuel rhs lhs s.

Definition operator_ge (fuel : nat) (lhs rhs : Z) (s : memory) : outcome bool :=
  r ← operator_gt fuel lhs rhs s; Done (negb r).

(** ** Observing a container *)

(** The client loop that walks from [first] to [last] with [operator!=],
    [operator++] and [operator*] and collects the values it sees. *)
Fixpoint traverse {V} (fuel : nat) (first last : BasicIterator V) (s : memory)
  : outcome (list T) :=
  match fuel with
  | O => OutOfFuel
  | S fuel =>
    if iter_ne first last then
      v ← iter_deref first s;
      first ← iter_incr first s;
      vs ← traverse fuel first last s;
      Done (v :: vs)
    else Done []
  end.

(** Front-to-back iteration from [begin()] to [end()]. *)
Definition to_list (fuel : nat) (this : Z) (s : memory) : outcome (list T) :=
  b ← cbegin this s; traverse fuel b cend s.

(** ** Representation invariant *)

(** [lseg m p q l]: following [next_node] from [p] visits exactly the nodes
    at the addresses [l.*1], which carry the values [l.*2], and ends at [q]. *)
Fixpoint lseg (m : gmap Z Node) (p q : Z) (l : list (Z * T)) : Prop :=
  match l with
  | [] => p = q
  | (a, v) :: l => p = a ∧ ∃ nx, m !! a = Some (MkNode v nx) ∧ lseg m nx q l
  end.

(** [owns s c l]: the container at [c] is alive, the chain behind its
    sentinel is [l] and ends in [nullptr], and [size_] counts it. *)
Definition owns (s : memory) (c : Z) (l : list (Z * T)) : Prop :=
  ∃ hd, node s !! c = Some hd ∧
        lseg (node s) (next_node hd) nullptr l ∧
        size_ s !! c = Some (Z.of_nat (length l)).

(** [models s R]: [R] lists the live containers of [s] with their chains.
    Addresses are non-null 64-bit values, the containers are the nodes
    outside the free store, their chains lie inside it, and no node belongs
    to two chains. *)
Record models (s : memory) (R : gmap Z (list (Z * T))) : Prop := MkModels {
  models_range : ∀ a, is_Some (node s !! a) → 0 < a < size_t_mod;
  models_dom : ∀ c, is_Some (size_ s !! c) ↔ is_Some (R !! c);
  models_auto : ∀ c, is_Some (R !! c) → on_heap c = false;
  models_stack : ∀ a, is_Some (node s !! a) → on_heap a = false → is_Some (R !! a);
  models_owns : ∀ c l, R !! c = Some l → owns s c l;
  models_heap : ∀ c l a, R !! c = Some l → a ∈ l.*1 → on_heap a = true;
  models_disjoint : ∀ c1 c2 l1 l2,
    c1 ≠ c2 → R !! c1 = Some l1 → R !! c2 = Some l2 → l1.*1 ## l2.*1
}.

(** What a client sees of the container at [this]: [GetSize()] and the
    values met when iterating from [begin()] to [end()]. *)
Definition observes (s : memory) (this : Z) (vs : list T) : Prop :=
  GetSize this s = Done (Z.of_nat (length vs)) ∧
  ∀ fuel, (length vs < fuel)%nat → to_list fuel this s = Done vs.

(** ** Sequences of public operations *)

(** Storage in which an automatic object can be constructed. *)
Definition fresh_object (s : memory) (a : Z) : Prop :=
  node s !! a = None ∧ size_ s !! a = None ∧
  0 < a < size_t_mod ∧ on_heap a = false.

Definition live (s : memory) (c : Z) : Prop := is_Some (size_ s !! c).

(** A backing array that lies inside the address space, at an address that
    leaves room for one element below it. *)
Definition array_ok (values : initializer_list) : Prop :=
  0 < il_sizeof values ∧ il_sizeof values ≤ il_begin values ∧
  il_begin values + Z.of_nat (length (il_array values)) * il_sizeof values
    < size_t_mod.

(** A position at which [InsertAfter] may be called: [before_begin()] or an
    element of this container. *)
Definition insert_position (s : memory) (this : Z) (pos : ConstIterator) : Prop :=
  ∃ l, owns s this l ∧ (node_ pos = this ∨ node_ pos ∈ l.*1).

(** A position at which [EraseAfter] may be called: [before_begin()], or an
    element of this container that is not the last one. *)
Definition erase_position (s : memory) (this : Z) (pos : ConstIterator) : Prop :=
  ∃ l, owns s this l ∧
       (node_ pos = this ∨
        ∃ i : nat, l.*1 !! i = Some (node_ pos) ∧ (S i < length l)%nat).

Inductive call :=
| DefaultConstruct (this : Z)
| InitConstruct (this : Z) (values : initializer_list)
| CopyConstruct (this other tmp1 tmp : Z)
| CopyAssign (this rhs tmp tmp1' tmp' : Z)
| CallPushFront (this : Z) (val : T)
| CallPopFront (this : Z)
| CallClear (this : Z)
| CallInsertAfter (this : Z) (pos : ConstIterator) (val : T)
| CallEraseAfter (this : Z) (pos : ConstIterator)
| CallSwap (this other : Z).

Definition call_ok (s : memory) (c : call) : Prop :=
  match c with
  | DefaultConstruct this => fresh_object s this
  | InitConstruct this values => fresh_object s this ∧ array_ok values
  | CopyConstruct this other tmp1 tmp =>
    live s other ∧ NoDup [this; tmp1; tmp] ∧
    Forall (fresh_object s) [this; tmp1; tmp]
  | CopyAssign this rhs tmp tmp1' tmp' =>
    live s this ∧ live s rhs ∧ NoDup [tmp; tmp1'; tmp'] ∧
    Forall (fresh_object s) [tmp; tmp1'; tmp']
  | CallPushFront this _ | CallPopFront this | CallClear this => live s this
  | CallInsertAfter this pos _ => insert_position s this pos
  | CallEraseAfter this pos => erase_position s this pos
  | CallSwap this other => live s this ∧ live s other
  end.

Definition exec (fuel : nat) (c : call) (s : memory) : outcome memory :=
  match c with
  | DefaultConstruct this => Done (construct this s)
  | InitConstruct this values => construct_init fuel this values s
  | CopyConstruct this other tmp1 tmp => construct_copy fuel this other tmp1 tmp s
  | CopyAssign this rhs tmp tmp1' tmp' => assign fuel this rhs tmp tmp1' tmp' s
  | CallPushFront this val => PushFront this val s
  | CallPopFront this => PopFront this s
  | CallClear this => Clear fuel this s
  | CallInsertAfter this pos val => r ← InsertAfter this pos val s; Done r.2
  | CallEraseAfter this pos => r ← EraseAfter this pos s; Done r.2
  | CallSwap this other => swap this other s
  end.

(** The memories a program reaches from the empty one by public operations
    that are called within their preconditions and return, or leave with
    an exception that the program catches. *)
Inductive reachable : memory → Prop :=
| reachable_start : reachable (MkMem ∅ ∅)
| reachable_call s c fuel s' :
    reachable s → call_ok s c → exec fuel c s = Done s' → reachable s'
| reachable_throw s c fuel s' :
    reachable s → call_ok s c → exec fuel c s = Throws s' → reachable s'.

(** The mutators of one container, for statements about what they leave
    alone. *)
Inductive mutation :=
| MPushFront (val : T)
| MPopFront
| MInsertAfter (pos : ConstIterator) (val : T)
| MEraseAfter (pos : ConstIterator)
| MClear.

Definition as_call (this : Z) (m : mutation) : call :=
  match m with
  | MPushFront val => CallPushFront this val
  | MPopFront => CallPopFront this
  | MInsertAfter pos val => CallInsertAfter this pos val
  | MEraseAfter pos => CallEraseAfter this pos
  | MClear => CallClear this
  end.

(** [mutated this s s']: [s'] comes from [s] by mutators of [this] only. *)
Inductive mutated (this : Z) : memory → memory → Prop :=
| mutated_refl s : mutated this s s
| mutated_step s m fuel s' s'' :
    call_ok s (as_call this m) → exec fuel (as_call this m) s = Done s' →
    mutated this s' s'' → mutated this s s''.

(** ** The comparisons in the words of the specification *)

(** Same length and equal values at every position. *)
Definition same_values (A B : list T) : Prop :=
  length A = length B ∧
  ∀ (i : nat) x y, A !! i = Some x → B !! i = Some y → eqb x y = true.

(** Lexicographic order: the lists agree (neither element is less than the
    other) before some position [i], and at [i] either [A] has ended and [B]
    has not, or the element of [A] is less than that of [B]. *)
Definition lexicographically_less (A B : list T) : Prop :=
  ∃ i : nat,
    (∀ j : nat, (j < i)%nat →
       ∃ x y, A !! j = Some x ∧ B !! j = Some y ∧
              ltb x y = false ∧ ltb y x = false) ∧
    match A !! i, B !! i with
    | None, Some _ => True
    | Some x, Some y => ltb x y = true
    | _, None => False
    end.

(** ** Walking and accounting *)

(** [n] times [++i]: the position [n] steps after [i]. *)
Fixpoint advance {V} (n : nat) (i : BasicIterator V) (s : memory)
  : outcome (BasicIterator V) :=
  match n with
  | O => Done i
  | S n => i ← iter_incr i s; advance n i s
  end.

(** A node is accounted for when it is the sentinel of a live container or
    lies in the chain of one; a node in memory that is not accounted for is
    garbage, nothing can reach or delete it any more. *)
Definition accounted (s : memory) (x : Z) : Prop :=
  ∃ R, models s R ∧ (is_Some (R !! x) ∨ ∃ c l, R !! c = Some l ∧ x ∈ l.*1).

Definition garbage (s : memory) (x : Z) : Prop :=
  is_Some (node s !! x) ∧ ¬ accounted s x.

(** A run from [s] to [s'] that leaks nothing. *)
Definition no_new_garbage (s s' : memory) : Prop :=
  ∀ x, garbage s' x → garbage s x.

(** ** Specifications of runs *)

(** [ensures r fuel bound post exc]: the run [r] has no undefined behaviour,
    it can only run out of fuel when [fuel ≤ bound], a normal return
    satisfies [post] and the memory after a throw satisfies [exc]. *)
Definition ensures {A} (r : outcome A) (fuel bound : nat)
    (post : A → Prop) (exc : memory → Prop) : Prop :=
  match r with
  | Done a => post a
  | Throws s => exc s
  | Undefined => False
  | OutOfFuel => (fuel ≤ bound)%nat
  end.

(** [returns r post exc]: a normal return of the run [r] satisfies [post]
    and the memory after a throw satisfies [exc]; nothing is said of a run
    that does neither. *)
Definition returns {A} (r : outcome A)
    (post : A → Prop) (exc : memory → Prop) : Prop :=
  match r with
  | Done a => post a
  | Throws s => exc s
  | _ => True
  end.

End Model.

Arguments Node : clear implicits.
Arguments memory : clear implicits.
Arguments outcome : clear implicits.
Arguments initializer_list : clear implicits.
Arguments Done {T A} _.
Arguments Throws {T A} _.
Arguments Undefined {T A}.
Arguments OutOfFuel {T A}.

(** ** A concrete machine, to run the model *)

(** The free store starts at [heap_base]. *)
Definition heap_base : Z := 4096.

Definition in_heap (a : Z) : bool := bool_decide (heap_base ≤ a).

(** A bump allocator: the address after the largest one in use. *)
Definition bump {A} (m : gmap Z A) : option Z :=
  let a := Z.max heap_base (Z.succ (foldr Z.max 0 (map_to_list m).*1)) in
  if decide (a < size_t_mod) then Some a else None.

Definition empty_memory : memory Z := MkMem ∅ ∅.

(** An allocator with room for a single node, at [heap_base]. *)
Definition one_shot {A} (m : gmap Z A) : option Z :=
  match m !! heap_base with None => Some heap_base | Some _ => None end.

(** The memory a run returns with. *)
Definition result (r : outcome Z (memory Z)) : memory Z :=
  match r with Done s => s | _ => empty_memory end.

(** The memory a run leaves with an exception. *)
Definition thrown (r : outcome Z (memory Z)) : memory Z :=
  match r with Throws s => s | _ => empty_memory end.

(** An initializer list of integers: 4 bytes each, in an array at address
    64. *)
Definition ints (A : list Z) : initializer_list Z := MkInit 64 4 A.

(** One container of integers at address 1, built from an initializer
    list. *)
Definition one_list (A : list Z) : memory Z :=
  result (construct_init 0 bump 8 1 (ints A) empty_memory).

(** A second one at address 2. *)
Definition two_lists (A B : list Z) : memory Z :=
  result (construct_init 0 bump 8 2 (ints B) (one_list A)).

(** * Proofs *)

(** ** Chains *)

Section Chains.

Context {T : Type}.
Implicit Types (m : gmap Z (Node T)) (l : list (Z * T)).

Lemma lseg_agree m m' p q l :
  (∀ a, a ∈ l.*1 → m' !! a = m !! a) → lseg m p q l → lseg m' p q l.
Proof.
  revert p. induction l as [|[a v] l IH]; intros p Hag; simpl; [done|].
  intros [-> (nx & Hm & Hl)]. split; [done|]. exists nx. split.
  - rewrite Hag; [done|]. simpl. apply elem_of_cons. by left.
  - apply IH; [|done]. intros b Hb. apply Hag. simpl. apply elem_of_cons. by right.
Qed.

Lemma lseg_insert m p q l a n :
  a ∉ l.*1 → lseg m p q l → lseg (<[a := n]> m) p q l.
Proof.
  intros Ha. apply lseg_agree. intros b Hb.
  apply lookup_insert_ne. intros ->. done.
Qed.

Lemma lseg_delete m p q l a :
  a ∉ l.*1 → lseg m p q l → lseg (delete a m) p q l.
Proof.
  intros Ha. apply lseg_agree. intros b Hb.
  apply lookup_delete_ne. intros ->. done.
Qed.

Lemma lseg_lookup m p q l a :
  lseg m p q l → a ∈ l.*1 → is_Some (m !! a).
Proof.
  revert p. induction l as [|[b v] l IH]; intros p; simpl.
  - intros _ Ha. by apply elem_of_nil in Ha.
  - intros [-> (nx & Hm & Hl)] [->|Ha]%elem_of_cons; [by eexists|]. by eapply IH.
Qed.

Lemma lseg_app m p q r l1 l2 :
  lseg m p q l1 → lseg m q r l2 → lseg m p r (l1 ++ l2).
Proof.
  revert p. induction l1 as [|[a v] l1 IH]; intros p; simpl.
  - by intros ->.
  - intros [-> (nx & Hm & Hl)] H2. split; [done|]. exists nx. split; [done|].
    by apply IH.
Qed.

Lemma lseg_split m p r l1 l2 :
  lseg m p r (l1 ++ l2) → ∃ q, lseg m p q l1 ∧ lseg m q r l2.
Proof.
  revert p. induction l1 as [|[a v] l1 IH]; intros p; simpl.
  - intros H. by exists p.
  - intros [-> (nx & Hm & Hl)]. destruct (IH _ Hl) as (q & H1 & H2).
    exists q. split; [|done]. split; [done|]. by exists nx.
Qed.

(** A chain that ends in [nullptr] is determined by where it starts. *)
Lemma lseg_functional m p l l' :
  m !! nullptr = None →
  lseg m p nullptr l → lseg m p nullptr l' → l = l'.
Proof.
  intros H0. revert p l'. induction l as [|[a v] l IH]; intros p [|[a' v'] l']; simpl.
  - done.
  - intros Hp [Ha (nx & Hm & _)]. congruence.
  - intros [Ha (nx & Hm & _)] Hp. congruence.
  - intros [-> (nx & Hm & Hl)] [<- (nx' & Hm' & Hl')].
    rewrite Hm in Hm'. injection Hm' as <- <-. f_equal. by eapply IH.
Qed.

(** Finite means acyclic: no address occurs twice in a chain that ends. *)
Lemma lseg_NoDup m p l :
  m !! nullptr = None → lseg m p nullptr l → NoDup l.*1.
Proof.
  intros H0. revert p. induction l as [|[a v] l IH]; intros p; simpl.
  - intros _. constructor.
  - intros [-> (nx & Hm & Hl)]. apply NoDup_cons. split; [|by eapply IH].
    intros Ha. apply list_elem_of_fmap in Ha as ([a' v'] & Heq & Hin).
    simpl in Heq. subst a'.
    apply list_elem_of_split in Hin as (l1 & l2 & ->).
    pose proof Hl as Hl'.
    apply lseg_split in Hl' as (q & _ & H2). simpl in H2.
    destruct H2 as [_ (nx' & Hm' & H2)].
    rewrite Hm in Hm'. injection Hm' as <- <-.
    pose proof (lseg_functional _ _ _ _ H0 Hl H2) as Heq.
    apply (f_equal length) in Heq. rewrite length_app in Heq. simpl in Heq. lia.
Qed.

(** There are fewer than 2^64 distinct non-null addresses. *)
Lemma NoDup_addresses_length (l : list Z) :
  NoDup l → (∀ a, a ∈ l → 0 < a < size_t_mod) →
  Z.of_nat (length l) < size_t_mod.
Proof.
  intros Hnd Hr.
  assert (l ⊆+ seqZ 1 (size_t_mod - 1)) as Hsub.
  { apply NoDup_submseteq; [done|]. intros a Ha. apply elem_of_seqZ.
    specialize (Hr a Ha). lia. }
  apply submseteq_length in Hsub. rewrite length_seqZ in Hsub.
  unfold size_t_mod in *. lia.
Qed.

End Chains.

(** ** The invariant and the member functions *)

Section Container.

Set Default Proof Using "Type".

Context {T : Type} (T_default : T).
Context (on_heap : Z → bool) (new_addr : gmap Z (Node T) → option Z).
Hypothesis alloc_ok : allocator_ok on_heap new_addr.

Implicit Types (s : memory T) (R : gmap Z (list (Z * T))) (l : list (Z * T)).

Lemma bind_Done {A B} (a : A) (f : A → outcome T B) : (Done a ≫= f) = f a.
Proof. reflexivity. Qed.

Lemma models_null s R : models on_heap s R → node s !! nullptr = None.
Proof.
  intros M. destruct (node s !! nullptr) eqn:E; [|done].
  assert (0 < nullptr < size_t_mod) by (eapply models_range; eauto).
  unfold nullptr in *. lia.
Qed.

Lemma owns_unique s R c l l' :
  models on_heap s R → owns s c l → owns s c l' → l = l'.
Proof.
  intros M (hd & Hc & Hl & _) (hd' & Hc' & Hl' & _).
  rewrite Hc in Hc'. injection Hc' as <-.
  eapply lseg_functional; eauto using models_null.
Qed.

Lemma models_lookup s R c l a :
  models on_heap s R → R !! c = Some l → a ∈ l.*1 → is_Some (node s !! a).
Proof.
  intros M Hc Ha. destruct (models_owns _ _ _ M _ _ Hc) as (hd & _ & Hl & _).
  by eapply lseg_lookup.
Qed.

Lemma models_NoDup s R c l :
  models on_heap s R → R !! c = Some l → NoDup l.*1.
Proof.
  intros M Hc. destruct (models_owns _ _ _ M _ _ Hc) as (hd & _ & Hl & _).
  eapply lseg_NoDup; eauto using models_null.
Qed.

(** The counter cannot wrap: a chain has fewer than 2^64 nodes. *)
Lemma models_length s R c l :
  models on_heap s R → R !! c = Some l → Z.of_nat (length l) < size_t_mod.
Proof.
  intros M Hc. rewrite <- (length_fmap fst).
  apply NoDup_addresses_length; [by eapply models_NoDup|].
  intros a Ha. eapply models_range; [done|]. by eapply models_lookup.
Qed.

Lemma models_head_not_in_chain s R c c' l :
  models on_heap s R → R !! c = Some l → is_Some (R !! c') → c' ∉ l.*1.
Proof.
  intros M Hc Hc' Hin.
  pose proof (models_auto _ _ _ M _ Hc'). 
  pose proof (models_heap _ _ _ M _ _ _ Hc Hin). congruence.
Qed.

(** The frame rule of the development: a member function of [c] that
    touches only the sentinel of [c], the nodes of [c] and fresh nodes
    leaves every other container as it was. *)
Lemma models_update s R c l l' m' n' :
  models on_heap s R → R !! c = Some l →
  (∀ a, is_Some (m' !! a) → 0 < a < size_t_mod) →
  (∀ a, is_Some (m' !! a) → is_Some (node s !! a) ∨ on_heap a = true) →
  (∀ a, a ≠ c → a ∉ l.*1 → is_Some (node s !! a) → m' !! a = node s !! a) →
  (∀ a, a ∈ l'.*1 → on_heap a = true ∧ (a ∈ l.*1 ∨ node s !! a = None)) →
  (∃ hd, m' !! c = Some hd ∧ lseg m' (next_node hd) nullptr l') →
  n' = Z.of_nat (length l') →
  models on_heap (MkMem m' (<[c := n']> (size_ s))) (<[c := l']> R).
Proof.
  intros M Hc Hrange Hstack Hframe Hnew (hd & Hhd & Hl') ->.
  assert (Hother : ∀ c2 l2 a, c2 ≠ c → R !! c2 = Some l2 → a ∈ l2.*1 →
                   m' !! a = node s !! a).
  { intros c2 l2 a Hne H2 Ha. apply Hframe.
    - intros ->. eapply (models_head_not_in_chain _ _ c2 c); eauto.
    - intros Hin. by eapply (models_disjoint _ _ _ M c2 c l2 l).
    - by eapply models_lookup. }
  constructor; simpl.
  - done.
  - intros c2. rewrite !lookup_insert. destruct (decide (c = c2)); simpl.
    + split; intros _; by eexists.
    + by apply (models_dom _ _ _ M).
  - intros c2. rewrite lookup_insert. destruct (decide (c = c2)) as [<-|Hne].
    + intros _. apply (models_auto _ _ _ M). by eexists.
    + by apply (models_auto _ _ _ M).
  - intros a Ha Hauto. rewrite lookup_insert. destruct (decide (c = a)); [by eexists|].
    destruct (Hstack a Ha) as [Hold|]; [|congruence].
    by apply (models_stack _ _ _ M).
  - intros c2 l2. rewrite lookup_insert. destruct (decide (c = c2)) as [<-|Hne].
    + intros [= <-]. exists hd. simpl. rewrite lookup_insert_eq. done.
    + intros H2. destruct (models_owns _ _ _ M _ _ H2) as (hd2 & Hhd2 & Hl2 & Hs2).
      exists hd2. simpl. rewrite lookup_insert_ne by done. split_and!; [|..|done].
      * rewrite Hframe; [done|congruence| |by eexists].
        eapply models_head_not_in_chain; eauto.
      * eapply lseg_agree; [|done]. intros a Ha. by eapply (Hother c2 l2).
  - intros c2 l2 a. rewrite lookup_insert. destruct (decide (c = c2)) as [<-|Hne].
    + intros [= <-] Ha. by apply Hnew.
    + by apply (models_heap _ _ _ M).
  - intros c1 c2 l1 l2 Hne. rewrite !lookup_insert.
    destruct (decide (c = c1)) as [<-|Hne1]; destruct (decide (c = c2)) as [<-|Hne2];
      try done.
    + intros [= <-] H2 a Ha1 Ha2. destruct (Hnew a Ha1) as [_ [Hin|Hfresh]].
      * by eapply (models_disjoint _ _ _ M c c2 l l2).
      * destruct (models_lookup _ _ _ _ _ M H2 Ha2). congruence.
    + intros H1 [= <-] a Ha1 Ha2. destruct (Hnew a Ha2) as [_ [Hin|Hfresh]].
      * by eapply (models_disjoint _ _ _ M c1 c l1 l).
      * destruct (models_lookup _ _ _ _ _ M H1 Ha1). congruence.
    + by apply (models_disjoint _ _ _ M).
Qed.

(** Every address of a chain is a live non-null heap address that differs
    from the sentinel. *)
Lemma models_chain_addr s R c l a :
  models on_heap s R → R !! c = Some l → a ∈ l.*1 →
  a ≠ c ∧ on_heap a = true ∧ 0 < a < size_t_mod ∧ is_Some (node s !! a).
Proof.
  intros M Hc Ha. split; [|split; [|split]].
  - intros ->. eapply (models_head_not_in_chain _ _ c c); eauto.
  - by eapply models_heap.
  - eapply models_range; [done|]. by eapply models_lookup.
  - by eapply models_lookup.
Qed.

Lemma range_insert (m : gmap Z (Node T)) a n :
  0 < a < size_t_mod →
  (∀ b, is_Some (m !! b) → 0 < b < size_t_mod) →
  ∀ b, is_Some (<[a := n]> m !! b) → 0 < b < size_t_mod.
Proof.
  intros Ha Hm b. rewrite lookup_insert. destruct (decide (a = b)) as [<-|]; auto.
Qed.

Lemma range_delete (m : gmap Z (Node T)) a :
  (∀ b, is_Some (m !! b) → 0 < b < size_t_mod) →
  ∀ b, is_Some (delete a m !! b) → 0 < b < size_t_mod.
Proof.
  intros Hm b. rewrite lookup_delete. destruct (decide (a = b)); simpl; auto.
  intros []. done.
Qed.

(** [PushFront] links a fresh node in front of the chain, or throws and
    leaves the memory as it was. *)
Lemma PushFront_spec s R c l v :
  models on_heap s R → R !! c = Some l →
  (∃ a s', PushFront new_addr c v s = Done s' ∧ node s !! a = None ∧
           models on_heap s' (<[c := (a, v) :: l]> R))
  ∨ PushFront new_addr c v s = Throws s.
Proof using alloc_ok.
  intros M Hc. destruct (models_owns _ _ _ M _ _ Hc) as (hd & Hhd & Hl & Hsz).
  unfold PushFront, load. rewrite Hhd, bind_Done. unfold new_Node.
  destruct (new_addr (node s)) as [a|] eqn:Ha; [left | right; done].
  destruct (alloc_ok _ _ Ha) as (Hfresh & Hra & Hheap).
  assert (a ≠ c) as Hac by congruence.
  assert (a ∉ l.*1) as Hal.
  { intros Hin. destruct (models_lookup _ _ _ _ _ M Hc Hin). congruence. }
  assert (Z.of_nat (length ((a, v) :: l)) < size_t_mod) as Hlen.
  { rewrite <- (length_fmap fst). apply NoDup_addresses_length; simpl.
    - apply NoDup_cons. split; [done|]. by eapply models_NoDup.
    - intros b [->|Hb]%elem_of_cons; [done|]. by eapply models_chain_addr. }
  exists a. eexists. split.
  { rewrite bind_Done. unfold store_next; simpl. rewrite lookup_insert_ne by done.
    rewrite Hhd, bind_Done. unfold incr_size, load_size; simpl.
    rewrite Hsz, bind_Done. unfold store_size; simpl. rewrite Hsz. reflexivity. }
  split; [done|].
  eapply (models_update s R c l); eauto.
  - apply range_insert; [eapply models_range; eauto|].
    apply range_insert; [done|]. by apply (models_range _ _ _ M).
  - intros b. rewrite !lookup_insert. repeat case_decide; subst; eauto.
  - intros b Hbc _ Hb. rewrite lookup_insert_ne by done.
    rewrite lookup_insert_ne; [done|]. intros ->. destruct Hb. congruence.
  - intros b [->|Hb]%elem_of_cons; [by auto|]. split; [|by left].
    by eapply models_heap.
  - eexists. rewrite lookup_insert_eq. split; [done|]. simpl. split; [done|].
    exists (next_node hd). rewrite lookup_insert_ne by congruence.
    rewrite lookup_insert_eq. split; [done|].
    apply lseg_insert; [|by apply lseg_insert].
    eapply models_head_not_in_chain; eauto.
  - simpl length in *. rewrite Z.mod_small; lia.
Qed.

Lemma lseg_length_bound (m : gmap Z (Node T)) p l :
  (∀ a, is_Some (m !! a) → 0 < a < size_t_mod) →
  lseg m p nullptr l → Z.of_nat (length l) < size_t_mod.
Proof.
  intros Hr Hl. rewrite <- (length_fmap fst).
  assert (m !! nullptr = None) as H0.
  { destruct (m !! nullptr) eqn:E; [|done].
    assert (0 < nullptr < size_t_mod) by (apply Hr; eauto). unfold nullptr in *. lia. }
  apply NoDup_addresses_length; [by eapply lseg_NoDup|].
  intros a Ha. apply Hr. by eapply lseg_lookup.
Qed.

Lemma models_insert_id s R c l :
  models on_heap s R → R !! c = Some l → models on_heap s (<[c := l]> R).
Proof. intros M Hc. by rewrite insert_id. Qed.

(** [PopFront] unlinks and deletes the first node; on an empty container it
    changes nothing. *)
Lemma PopFront_spec s R c l :
  models on_heap s R → R !! c = Some l →
  ∃ s', PopFront on_heap c s = Done s' ∧
        models on_heap s' (<[c := tail l]> R) ∧ (l = [] → s' = s).
Proof.
  intros M Hc. destruct (models_owns _ _ _ M _ _ Hc) as (hd & Hhd & Hl & Hsz).
  unfold PopFront, load. rewrite Hhd, bind_Done.
  destruct l as [|[a v] l']; simpl in Hl.
  - rewrite Hl. rewrite decide_False by (intros H; by apply H).
    exists s. split; [done|]. split; [|done]. by apply models_insert_id.
  - destruct Hl as (Ha & nx & Hna & Hl').
    destruct (models_chain_addr s R c _ a M Hc) as (Hac & Hheap & Hra & _).
    { simpl. apply elem_of_cons. by left. }
    pose proof (models_NoDup _ _ _ _ M Hc) as Hnd. simpl in Hnd.
    apply NoDup_cons in Hnd as [Hal Hnd].
    assert (c ∉ l'.*1) as Hcl.
    { intros Hin. eapply (models_head_not_in_chain s R c c); eauto.
      simpl. apply elem_of_cons. by right. }
    rewrite Ha. rewrite decide_True by (unfold nullptr; lia).
    rewrite Hna, bind_Done. unfold store_next. rewrite Hhd, bind_Done.
    unfold delete_Node; simpl. rewrite lookup_insert_ne by congruence.
    rewrite Hna, Hheap, bind_Done. unfold decr_size, load_size; simpl.
    rewrite Hsz, bind_Done. unfold store_size; simpl. rewrite Hsz.
    eexists. split; [done|]. split; [|done].
    eapply (models_update s R c ((a, v) :: l')); eauto.
    + apply range_delete, range_insert; [eapply models_range; eauto|].
      by apply (models_range _ _ _ M).
    + intros b. rewrite lookup_delete, lookup_insert.
      repeat case_decide; subst; eauto; by intros [].
    + intros b Hbc Hb _. simpl in Hb. apply not_elem_of_cons in Hb as [Hba _].
      rewrite lookup_delete_ne by congruence. by rewrite lookup_insert_ne.
    + intros b Hb. split; [|left; simpl; apply elem_of_cons; by right].
      apply (models_heap _ _ _ M c _ b Hc). simpl. apply elem_of_cons. by right.
    + eexists. rewrite lookup_delete_ne by congruence. rewrite lookup_insert_eq.
      split; [done|]. simpl. apply lseg_delete; [done|]. by apply lseg_insert.
    + pose proof (models_length _ _ _ _ M Hc) as Hlen.
      simpl length in *. rewrite Z.mod_small; lia.
Qed.

(** [InsertAfter] at [before_begin()] is [PushFront] followed by [begin()]. *)
Lemma InsertAfter_before_begin s c v :
  InsertAfter new_addr c (cbefore_begin c) v s =
  (s' ← PushFront new_addr c v s; it ← begin c s'; Done (it, s')).
Proof.
  unfold InsertAfter, iter_eq, before_begin, cbefore_begin. simpl.
  by rewrite bool_decide_eq_true_2.
Qed.

(** [EraseAfter] at [before_begin()] is [PopFront] followed by [begin()]. *)
Lemma EraseAfter_before_begin s c :
  EraseAfter on_heap c (cbefore_begin c) s =
  (s' ← PopFront on_heap c s; it ← begin c s'; Done (it, s')).
Proof.
  unfold EraseAfter, iter_eq, before_begin, cbefore_begin. simpl.
  by rewrite bool_decide_eq_true_2.
Qed.

(** [InsertAfter] behind an element splices a fresh node after it. *)
Lemma InsertAfter_spec s R c l1 p w l2 v :
  models on_heap s R → R !! c = Some (l1 ++ (p, w) :: l2) →
  (∃ a s', InsertAfter new_addr c (MkIter p) v s = Done (MkIter a, s') ∧
           node s !! a = None ∧
           models on_heap s' (<[c := l1 ++ (p, w) :: (a, v) :: l2]> R))
  ∨ InsertAfter new_addr c (MkIter p) v s = Throws s.
Proof using alloc_ok.
  intros M Hc. destruct (models_owns _ _ _ M _ _ Hc) as (hd & Hhd & Hl & Hsz).
  destruct (models_chain_addr s R c _ p M Hc) as (Hpc & Hheap & Hrp & _).
  { rewrite fmap_app. apply elem_of_app. right. simpl. apply elem_of_cons. by left. }
  pose proof (models_NoDup _ _ _ _ M Hc) as Hnd.
  rewrite fmap_app in Hnd. simpl in Hnd.
  apply NoDup_app in Hnd as (Hnd1 & Hdisj & Hnd2).
  apply NoDup_cons in Hnd2 as [Hpl2 Hnd2].
  destruct (lseg_split _ _ _ _ _ Hl) as (q & Hl1 & Hl2). simpl in Hl2.
  destruct Hl2 as (-> & nx & Hnp & Hl2).
  unfold InsertAfter, iter_eq, before_begin. simpl.
  rewrite bool_decide_eq_false_2 by congruence.
  unfold load. rewrite Hnp, bind_Done. unfold new_Node.
  destruct (new_addr (node s)) as [a|] eqn:Ha; [left | right; done].
  destruct (alloc_ok _ _ Ha) as (Hfresh & Hra & Hheapa).
  assert (a ≠ c) as Hac by congruence.
  assert (a ≠ p) as Hap by congruence.
  assert (∀ l0 r, lseg (node s) r nullptr l0 ∨ lseg (node s) r p l0 → a ∉ l0.*1) as Hfr.
  { intros l0 r Hl0 Hin.
    assert (is_Some (node s !! a)) as [? ?]; [|congruence].
    destruct Hl0; by eapply lseg_lookup. }
  assert (c ∉ (l1 ++ (p, w) :: l2).*1) as Hcl.
  { eapply models_head_not_in_chain; eauto. }
  rewrite fmap_app in Hcl. simpl in Hcl.
  apply not_elem_of_app in Hcl as [Hcl1 Hcl2].
  apply not_elem_of_cons in Hcl2 as [_ Hcl2].
  rewrite bind_Done. unfold store_next; simpl.
  rewrite lookup_insert_ne by done. rewrite Hnp, bind_Done.
  unfold incr_size, load_size; simpl. rewrite Hsz, bind_Done.
  unfold store_size; simpl. rewrite Hsz, bind_Done.
  exists a. eexists. split; [done|]. split; [done|].
  set (m' := <[p := _]> (<[a := _]> (node s))).
  assert (∀ b, is_Some (m' !! b) → 0 < b < size_t_mod) as Hrange.
  { apply range_insert; [done|]. apply range_insert; [done|].
    by apply (models_range _ _ _ M). }
  assert (lseg m' (next_node hd) nullptr (l1 ++ (p, w) :: (a, v) :: l2)) as Hl'.
  { eapply lseg_app.
    - apply lseg_insert; [by intros ?; eapply Hdisj; [|left]|].
      apply lseg_insert; [eapply Hfr; eauto|done].
    - simpl. split; [done|]. exists a. unfold m'. rewrite lookup_insert_eq.
      split; [done|]. split; [done|]. exists nx.
      rewrite lookup_insert_ne by done. rewrite lookup_insert_eq. split; [done|].
      apply lseg_insert; [done|]. apply lseg_insert; [eapply Hfr; eauto|done]. }
  pose proof (lseg_length_bound _ _ _ Hrange Hl') as Hlen.
  eapply (models_update s R c (l1 ++ (p, w) :: l2)); eauto.
  - intros b. unfold m'. rewrite !lookup_insert. repeat case_decide; subst; eauto.
  - intros b Hbc Hb Hsome. unfold m'.
    rewrite fmap_app in Hb. simpl in Hb.
    apply not_elem_of_app in Hb as [_ Hb]. apply not_elem_of_cons in Hb as [Hbp _].
    rewrite lookup_insert_ne by congruence.
    destruct (decide (a = b)) as [<-|]; [|by rewrite lookup_insert_ne].
    destruct Hsome. congruence.
  - intros b Hb. rewrite fmap_app in Hb. simpl in Hb.
    rewrite fmap_app. simpl. rewrite elem_of_app, !elem_of_cons in Hb.
    rewrite elem_of_app, elem_of_cons.
    destruct Hb as [Hb|[->|[->|Hb]]]; auto.
    + split; [|by auto]. apply (models_heap _ _ _ M c _ b Hc).
      rewrite fmap_app. apply elem_of_app. by left.
    + split; [|by auto]. apply (models_heap _ _ _ M c _ b Hc).
      rewrite fmap_app. apply elem_of_app. right. simpl. apply elem_of_cons. by right.
  - exists hd. split; [|done]. unfold m'.
    rewrite !lookup_insert_ne by congruence. done.
  - rewrite !length_app in *. simpl length in *. rewrite Z.mod_small; lia.
Qed.

(** [EraseAfter] behind an element that has a successor unlinks and deletes
    the successor and returns the position after it. *)
Lemma EraseAfter_spec s R c l1 p w b x l2 :
  models on_heap s R → R !! c = Some (l1 ++ (p, w) :: (b, x) :: l2) →
  ∃ it s', EraseAfter on_heap c (MkIter p) s = Done (it, s') ∧
           lseg (node s') (node_ it) nullptr l2 ∧
           models on_heap s' (<[c := l1 ++ (p, w) :: l2]> R).
Proof.
  intros M Hc. destruct (models_owns _ _ _ M _ _ Hc) as (hd & Hhd & Hl & Hsz).
  destruct (models_chain_addr s R c _ p M Hc) as (Hpc & _ & Hrp & _).
  { rewrite fmap_app. apply elem_of_app. right. simpl. apply elem_of_cons. by left. }
  destruct (models_chain_addr s R c _ b M Hc) as (Hbc & Hheap & Hrb & _).
  { rewrite fmap_app. apply elem_of_app. right. simpl. rewrite !elem_of_cons. auto. }
  pose proof (models_NoDup _ _ _ _ M Hc) as Hnd.
  rewrite fmap_app in Hnd. simpl in Hnd.
  apply NoDup_app in Hnd as (Hnd1 & Hdisj & Hnd2).
  apply NoDup_cons in Hnd2 as [Hpl2 Hnd2].
  apply NoDup_cons in Hnd2 as [Hbl2 Hnd2].
  apply not_elem_of_cons in Hpl2 as [Hpb Hpl2].
  destruct (lseg_split _ _ _ _ _ Hl) as (q & Hl1 & Hl2). simpl in Hl2.
  destruct Hl2 as (-> & nx & Hnp & -> & nx2 & Hnb & Hl2).
  assert (c ∉ (l1 ++ (p, w) :: (b, x) :: l2).*1) as Hcl.
  { eapply models_head_not_in_chain; eauto. }
  rewrite fmap_app in Hcl. simpl in Hcl.
  apply not_elem_of_app in Hcl as [Hcl1 Hcl2].
  apply not_elem_of_cons in Hcl2 as [_ Hcl2].
  apply not_elem_of_cons in Hcl2 as [_ Hcl2].
  unfold EraseAfter, iter_eq, before_begin. simpl.
  rewrite bool_decide_eq_false_2 by congruence.
  unfold load. rewrite Hnp, bind_Done. simpl. rewrite Hnb, bind_Done.
  unfold delete_Node. rewrite Hnb, Hheap, bind_Done.
  unfold store_next; simpl. rewrite lookup_delete_ne by congruence.
  rewrite Hnp, bind_Done. unfold decr_size, load_size; simpl.
  rewrite Hsz, bind_Done. unfold store_size; simpl. rewrite Hsz, bind_Done.
  simpl. rewrite lookup_insert_eq, bind_Done. simpl.
  set (m' := <[p := _]> (delete b (node s))).
  assert (lseg m' nx2 nullptr l2) as Hl2'.
  { apply lseg_insert; [done|]. by apply lseg_delete. }
  eexists _, _. split; [done|]. simpl. split; [done|].
  eapply (models_update s R c (l1 ++ (p, w) :: (b, x) :: l2)); eauto.
  - apply range_insert; [done|]. apply range_delete. by apply (models_range _ _ _ M).
  - intros a. unfold m'. rewrite lookup_insert, lookup_delete.
    repeat case_decide; subst; eauto; by intros [].
  - intros a Hac Ha _. unfold m'. rewrite fmap_app in Ha. simpl in Ha.
    apply not_elem_of_app in Ha as [_ Ha]. apply not_elem_of_cons in Ha as [Hap Ha].
    apply not_elem_of_cons in Ha as [Hab _].
    rewrite lookup_insert_ne by congruence. by rewrite lookup_delete_ne by congruence.
  - intros a Ha. split.
    + apply (models_heap _ _ _ M c _ a Hc). rewrite fmap_app in *. simpl in *.
      rewrite elem_of_app, !elem_of_cons in *. tauto.
    + left. rewrite fmap_app in *. simpl in *.
      rewrite elem_of_app, !elem_of_cons in *. tauto.
  - exists hd. unfold m'. rewrite lookup_insert_ne by congruence.
    rewrite lookup_delete_ne by congruence. split; [done|].
    eapply lseg_app.
    + apply lseg_insert; [by intros ?; eapply Hdisj; [|left]|].
      apply lseg_delete; [|done]. intros ?. eapply Hdisj; [done|]. right. by left.
    + simpl. split; [done|]. exists nx2. by rewrite lookup_insert_eq.
  - pose proof (models_length _ _ _ _ M Hc) as Hlen.
    rewrite !length_app in *. simpl length in *. rewrite Z.mod_small; lia.
Qed.

(** Default construction in fresh storage adds an empty container. *)
Lemma construct_spec s R c :
  models on_heap s R → fresh_object on_heap s c →
  R !! c = None ∧ models on_heap (construct T_default c s) (<[c := []]> R).
Proof.
  intros M (Hn & Hs & Hr & Hauto).
  assert (R !! c = None) as Hc.
  { destruct (R !! c) eqn:E; [|done].
    assert (is_Some (size_ s !! c)) as [? ?]; [|congruence].
    apply (models_dom _ _ _ M). by eexists. }
  split; [done|].
  assert (∀ c2 l2, R !! c2 = Some l2 → c ∉ l2.*1) as Hfr.
  { intros c2 l2 H2 Hin. destruct (models_lookup _ _ _ _ _ M H2 Hin). congruence. }
  constructor; unfold construct; simpl.
  - apply range_insert; [done|]. by apply (models_range _ _ _ M).
  - intros c2. rewrite !lookup_insert. destruct (decide (c = c2)); simpl.
    + split; intros _; by eexists.
    + by apply (models_dom _ _ _ M).
  - intros c2. rewrite lookup_insert. destruct (decide (c = c2)) as [<-|]; [done|].
    by apply (models_auto _ _ _ M).
  - intros a. rewrite !lookup_insert. destruct (decide (c = a)); [by eauto|].
    by apply (models_stack _ _ _ M).
  - intros c2 l2. rewrite lookup_insert. destruct (decide (c = c2)) as [<-|Hne].
    + intros [= <-]. eexists. simpl. rewrite !lookup_insert_eq. done.
    + intros H2. destruct (models_owns _ _ _ M _ _ H2) as (hd2 & Hhd2 & Hl2 & Hs2).
      exists hd2. simpl. rewrite !lookup_insert_ne by done. split; [done|].
      split; [|done]. apply lseg_insert; [|done]. by eapply Hfr.
  - intros c2 l2 a. rewrite lookup_insert. destruct (decide (c = c2)) as [<-|Hne].
    + intros [= <-] Ha. by apply elem_of_nil in Ha.
    + by apply (models_heap _ _ _ M).
  - intros c1 c2 l1 l2 Hne. rewrite !lookup_insert.
    destruct (decide (c = c1)) as [<-|Hne1]; destruct (decide (c = c2)) as [<-|Hne2];
      try done.
    + intros [= <-] _ a Ha. by apply elem_of_nil in Ha.
    + intros _ [= <-] a _ Ha. by apply elem_of_nil in Ha.
    + by apply (models_disjoint _ _ _ M).
Qed.

(** Giving back the storage of a container removes it; nodes it still has
    stay behind, owned by nobody. *)
Lemma release_spec s R c :
  models on_heap s R → is_Some (R !! c) →
  models on_heap (release c s) (delete c R).
Proof.
  intros M Hc.
  assert (∀ c2 l2, R !! c2 = Some l2 → c ∉ l2.*1) as Hfr.
  { intros c2 l2 H2. eapply models_head_not_in_chain; eauto. }
  constructor; unfold release; simpl.
  - apply range_delete. by apply (models_range _ _ _ M).
  - intros c2. rewrite !lookup_delete. destruct (decide (c = c2)); simpl.
    + split; intros []; done.
    + by apply (models_dom _ _ _ M).
  - intros c2. rewrite lookup_delete. destruct (decide (c = c2)) as [<-|].
    + intros []; done.
    + by apply (models_auto _ _ _ M).
  - intros a. rewrite !lookup_delete. destruct (decide (c = a)); [by intros []|].
    by apply (models_stack _ _ _ M).
  - intros c2 l2. rewrite lookup_delete. destruct (decide (c = c2)) as [<-|Hne]; [done|].
    intros H2. destruct (models_owns _ _ _ M _ _ H2) as (hd2 & Hhd2 & Hl2 & Hs2).
    exists hd2. simpl. rewrite !lookup_delete_ne by done. split; [done|].
    split; [|done]. apply lseg_delete; [|done]. by eapply Hfr.
  - intros c2 l2 a. rewrite lookup_delete. destruct (decide (c = c2)) as [<-|Hne]; [done|].
    by apply (models_heap _ _ _ M).
  - intros c1 c2 l1 l2 Hne. rewrite !lookup_delete.
    destruct (decide (c = c1)) as [<-|Hne1]; destruct (decide (c = c2)) as [<-|Hne2];
      try done.
    by apply (models_disjoint _ _ _ M).
Qed.

(** *** Composing specifications *)

Lemma ensures_bind {A B} (r : outcome T A) (f : A → outcome T B) fuel bound
    (mid : A → Prop) (post : B → Prop) (exc : memory T → Prop) :
  ensures r fuel bound mid exc →
  (∀ a, mid a → ensures (f a) fuel bound post exc) →
  ensures (r ≫= f) fuel bound post exc.
Proof. destruct r; simpl; auto. Qed.

Lemma ensures_unwind {A} (r : outcome T A) cleanup fuel bound
    (post : A → Prop) (exc1 exc : memory T → Prop) :
  ensures r fuel bound post exc1 →
  (∀ s, exc1 s → ensures (cleanup s) fuel bound exc (λ _, False)) →
  ensures (unwind r cleanup) fuel bound post exc.
Proof.
  destruct r as [a|s| |]; simpl; auto.
  intros Hs Hc. specialize (Hc s Hs). by destruct (cleanup s).
Qed.

Lemma ensures_weaken {A} (r : outcome T A) fuel bound bound'
    (post post' : A → Prop) (exc exc' : memory T → Prop) :
  ensures r fuel bound post exc →
  (bound ≤ bound')%nat → (∀ a, post a → post' a) → (∀ s, exc s → exc' s) →
  ensures r fuel bound' post' exc'.
Proof. destruct r; simpl; auto. lia. Qed.

(** With enough fuel, a run that cannot throw returns. *)
Lemma ensures_Done {A} (r : outcome T A) fuel bound (post : A → Prop) :
  ensures r fuel bound post (λ _, False) → (bound < fuel)%nat →
  ∃ a, r = Done a ∧ post a.
Proof. destruct r; simpl; try done; [eauto|lia]. Qed.

Lemma PushFront_ensures fuel bound s R c l v :
  models on_heap s R → R !! c = Some l →
  ensures (PushFront new_addr c v s) fuel bound
    (λ s', ∃ a, node s !! a = None ∧ models on_heap s' (<[c := (a, v) :: l]> R))
    (λ s', s' = s).
Proof using alloc_ok.
  intros M Hc. destruct (PushFront_spec s R c l v M Hc) as [(a & s' & -> & H)| ->];
    simpl; eauto.
Qed.

(** [Clear] empties the container in as many rounds as it has elements. *)
Lemma Clear_spec fuel s R c l :
  models on_heap s R → R !! c = Some l →
  ensures (Clear on_heap fuel c s) fuel (length l)
    (λ s', models on_heap s' (<[c := []]> R) ∧ (l = [] → s' = s)) (λ _, False).
Proof.
  revert fuel s R. induction l as [|x l IH]; intros fuel s R M Hc;
    (destruct fuel as [|fuel]; [simpl; lia|]);
    destruct (models_owns _ _ _ M _ _ Hc) as (hd & Hhd & Hl & Hsz);
    simpl Clear; unfold load_size; rewrite Hsz, bind_Done.
  - simpl. split; [|done]. by apply models_insert_id.
  - rewrite decide_True by (simpl; lia).
    destruct (PopFront_spec s R c _ M Hc) as (s1 & -> & M1 & _).
    rewrite bind_Done. simpl in M1.
    specialize (IH fuel s1 _ M1 (lookup_insert_eq _ _ _)).
    rewrite insert_insert_eq in IH.
    destruct (Clear on_heap fuel c s1); simpl in *; [|done..|lia].
    split; [tauto|done].
Qed.

(** The destructor empties the container and gives back its storage. *)
Lemma destroy_spec fuel s R c l :
  models on_heap s R → R !! c = Some l →
  ensures (destroy on_heap fuel c s) fuel (length l)
    (λ s', models on_heap s' (delete c R)) (λ _, False).
Proof.
  intros M Hc. unfold destroy.
  eapply ensures_bind; [by apply Clear_spec|].
  intros s1 [M1 _]. simpl. rewrite <- (delete_insert_eq R c []).
  apply release_spec; [done|]. rewrite lookup_insert_eq. by eexists.
Qed.

(** The member [swap] exchanges the chains and the counters. *)
Lemma swap_spec s R c1 c2 l1 l2 :
  models on_heap s R → R !! c1 = Some l1 → R !! c2 = Some l2 →
  ∃ s', swap c1 c2 s = Done s' ∧
        models on_heap s' (<[c2 := l1]> (<[c1 := l2]> R)).
Proof.
  intros M H1 H2.
  destruct (models_owns _ _ _ M _ _ H1) as (hd1 & Hhd1 & Hl1 & Hs1).
  destruct (models_owns _ _ _ M _ _ H2) as (hd2 & Hhd2 & Hl2 & Hs2).
  unfold swap, load, load_size. rewrite Hhd1, bind_Done, Hs1, bind_Done, Hhd2, bind_Done.
  unfold store_next at 2. rewrite Hhd1, bind_Done. simpl. rewrite Hs2, bind_Done.
  unfold store_size; simpl. rewrite Hs1, bind_Done. simpl.
  destruct (decide (c1 = c2)) as [<-|Hne].
  - rewrite lookup_insert_eq, bind_Done. unfold store_next; simpl.
    rewrite lookup_insert_eq. simpl. eexists. split; [done|].
    rewrite Hhd1 in Hhd2. injection Hhd2 as <-. rewrite H1 in H2. injection H2 as <-.
    rewrite !insert_insert_eq. rewrite (insert_id R) by done.
    rewrite (insert_id (size_ s)) by done.
    rewrite (insert_id (node s)) by (by destruct hd1).
    by destruct s.
  - rewrite lookup_insert_ne by done. rewrite Hs2, bind_Done.
    unfold store_next; simpl. rewrite lookup_insert_ne by done. rewrite Hhd2.
    eexists. split; [done|].
    set (σ := λ c, if decide (c = c2) then c1 else (if decide (c = c1) then c2 else c)).
    assert (∀ c l, <[c2 := l1]> (<[c1 := l2]> R) !! c = Some l → R !! σ c = Some l)
      as Hperm.
    { intros c l. unfold σ. rewrite !lookup_insert.
      destruct (decide (c2 = c)) as [<-|]; [rewrite decide_True by done; congruence|].
      rewrite (decide_False (P := (c = c2))) by congruence.
      destruct (decide (c1 = c)) as [<-|]; [rewrite decide_True by done; congruence|].
      by rewrite decide_False by congruence. }
    assert (∀ c c', c ≠ c' → σ c ≠ σ c') as Hinj.
    { intros c c'. unfold σ. repeat case_decide; congruence. }
    assert (∀ c l, R !! c = Some l → (c1 ∉ l.*1) ∧ (c2 ∉ l.*1)) as Hheads.
    { intros c l Hc. split; eapply models_head_not_in_chain; eauto. }
    constructor; simpl.
    + apply range_insert; [eapply models_range; eauto|].
      apply range_insert; [eapply models_range; eauto|]. by apply (models_range _ _ _ M).
    + intros c. rewrite !lookup_insert.
      destruct (decide (c2 = c)); simpl; [split; intros _; by eexists|].
      destruct (decide (c1 = c)); simpl; [split; intros _; by eexists|].
      by apply (models_dom _ _ _ M).
    + intros c [l Hc]. apply Hperm in Hc. unfold σ in Hc.
      repeat case_decide; subst; apply (models_auto _ _ _ M); eauto.
    + intros a. rewrite !lookup_insert.
      destruct (decide (c2 = a)); [by eauto|]. destruct (decide (c1 = a)); [by eauto|].
      by apply (models_stack _ _ _ M).
    + intros c l Hc. pose proof (Hperm _ _ Hc) as Hc'.
      destruct (Hheads _ _ Hc') as [Hh1 Hh2].
      assert (∀ p, lseg (node s) p nullptr l →
                lseg (<[c2 := {| value := value hd2; next_node := next_node hd1 |}]>
                 (<[c1 := {| value := value hd1; next_node := next_node hd2 |}]> (node s)))
                p nullptr l) as Hfr.
      { intros p Hp. apply lseg_insert; [done|]. by apply lseg_insert. }
      unfold owns; simpl. unfold σ in Hc'.
      destruct (decide (c = c2)) as [->|].
      * assert (l = l1) as -> by congruence.
        rewrite !lookup_insert_eq. eexists. split; [done|]. simpl. auto.
      * destruct (decide (c = c1)) as [->|].
        -- assert (l = l2) as -> by congruence.
           rewrite !(lookup_insert_ne _ c2 c1) by congruence.
           rewrite !lookup_insert_eq. eexists. split; [done|]. simpl. auto.
        -- rewrite !lookup_insert_ne by done.
           destruct (models_owns _ _ _ M _ _ Hc') as (hd & Hhd & Hl & Hs). eauto.
    + intros c l a Hc Ha. apply Hperm in Hc. by apply (models_heap _ _ _ M _ _ _ Hc).
    + intros ca cb la lb Hab Ha Hb. apply Hperm in Ha, Hb.
      eapply (models_disjoint _ _ _ M (σ ca) (σ cb)); eauto.
Qed.

Lemma ensures_S {A} (r : outcome T A) fuel bound (post : A → Prop) exc :
  ensures r fuel bound post exc → ensures r (S fuel) (S bound) post exc.
Proof. destruct r; simpl; auto. lia. Qed.

(** Storage outside the free store that no container occupies is fresh. *)
Lemma models_fresh s R a :
  models on_heap s R → R !! a = None → 0 < a < size_t_mod → on_heap a = false →
  fresh_object on_heap s a.
Proof.
  intros M Ha Hr Hauto. split; [|split; [|done]].
  - destruct (node s !! a) eqn:E; [|done].
    destruct (models_stack _ _ _ M a) as [? ?]; eauto. congruence.
  - destruct (size_ s !! a) eqn:E; [|done].
    destruct (proj1 (models_dom _ _ _ M a)) as [? ?]; eauto. congruence.
Qed.

Lemma fresh_models s R a :
  models on_heap s R → fresh_object on_heap s a → R !! a = None.
Proof.
  intros M (_ & Hs & _). destruct (R !! a) eqn:E; [|done].
  destruct (proj2 (models_dom _ _ _ M a)) as [? ?]; eauto. congruence.
Qed.

(** The loop of the copy constructor pushes the rest of the source chain,
    front to back, onto the destination. *)
Lemma copy_loop_spec {V} src dst lrest :
  ∀ fuel l0 ld s R b,
  models on_heap s R → src ≠ dst →
  R !! src = Some (l0 ++ lrest) → R !! dst = Some ld →
  lseg (node s) b nullptr lrest →
  ensures (copy_loop (V:=V) new_addr fuel dst (MkIter b) (MkIter nullptr) s)
    fuel (length lrest)
    (λ s', ∃ ld', models on_heap s' (<[dst := ld']> R) ∧
                  ld'.*2 = rev lrest.*2 ++ ld.*2)
    (λ s', ∃ ld', models on_heap s' (<[dst := ld']> R) ∧
                  (length ld' ≤ length ld + length lrest)%nat).
Proof using alloc_ok.
  induction lrest as [|[a v] lrest IH]; intros fuel l0 ld s R b M Hne Hsrc Hdst Hl;
    (destruct fuel as [|fuel]; [simpl; lia|]); simpl copy_loop; simpl in Hl.
  - unfold iter_ne. simpl. rewrite bool_decide_eq_false_2 by (intros H; by apply H).
    simpl. exists ld. split; [by apply models_insert_id|done].
  - destruct Hl as (-> & nx & Hna & Hl).
    assert (a ≠ nullptr) as Ha0.
    { intros ->. rewrite (models_null _ _ M) in Hna. done. }
    unfold iter_ne. simpl. rewrite bool_decide_eq_true_2 by done.
    unfold iter_deref, load. simpl. rewrite Hna, !bind_Done. simpl.
    eapply ensures_bind.
    { eapply ensures_weaken; [by apply (PushFront_ensures (S fuel) (S (length lrest)))|done|..].
      - intros s1 H. exact H.
      - intros s1 ->. exists ld. split; [by apply models_insert_id|]. simpl. lia. }
    intros s1 (a' & Hfr & M1). simpl in M1.
    assert (<[dst := (a', v) :: ld]> R !! src = Some ((l0 ++ [(a, v)]) ++ lrest)) as Hsrc1.
    { rewrite lookup_insert_ne by done. by rewrite <- app_assoc. }
    destruct (models_owns _ _ _ M1 _ _ Hsrc1) as (hd & _ & Hl1 & _).
    apply lseg_split in Hl1 as (q & Hl1 & Hl2).
    apply lseg_split in Hl1 as (q' & _ & Hl1). simpl in Hl1.
    destruct Hl1 as (-> & nx1 & Hna1 & Hq). subst q.
    unfold iter_incr, load. simpl. rewrite Hna1, !bind_Done. simpl.
    apply ensures_S.
    eapply ensures_weaken;
      [eapply (IH fuel _ ((a', v) :: ld) s1 _ nx1 M1 Hne Hsrc1); [apply lookup_insert_eq|done]|done|..].
    + intros s' (ld' & M' & Hv). exists ld'. rewrite insert_insert_eq in M'.
      split; [done|]. rewrite Hv. simpl. by rewrite <- app_assoc.
    + intros s' (ld' & M' & Hlen). exists ld'. rewrite insert_insert_eq in M'.
      split; [done|]. simpl in *. lia.
Qed.

(** The loop of the initializer-list constructor, entered at the [k]-th
    element from the front, pushes the first [k] values, last one first. *)
Lemma init_loop_spec c values :
  array_ok values →
  ∀ (k fuel : nat) ld s R,
  models on_heap s R → R !! c = Some ld → (k ≤ length (il_array values))%nat →
  ensures (init_loop new_addr fuel c values
             (il_begin values + (Z.of_nat k - 1) * il_sizeof values) s) fuel k
    (λ s', ∃ ld', models on_heap s' (<[c := ld']> R) ∧
                  ld'.*2 = take k (il_array values) ++ ld.*2)
    (λ s', ∃ ld', models on_heap s' (<[c := ld']> R)).
Proof using alloc_ok.
  intros (Hsz & Hbase & Hend).
  induction k as [|k IH]; intros fuel ld s R M Hc Hk;
    (destruct fuel as [|fuel]; [simpl; lia|]); cbn [init_loop].
  - rewrite decide_False by lia. simpl. exists ld. split; [by apply models_insert_id|done].
  - assert (0 ≤ Z.of_nat k * il_sizeof values) as Hp by (apply Z.mul_nonneg_nonneg; lia).
    assert (Z.of_nat k * il_sizeof values
            < Z.of_nat (length (il_array values)) * il_sizeof values) as Hq.
    { apply Z.mul_lt_mono_pos_r; lia. }
    replace (il_begin values + (Z.of_nat (S k) - 1) * il_sizeof values)
      with (il_begin values + Z.of_nat k * il_sizeof values) by lia.
    rewrite decide_True by lia.
    destruct (lookup_lt_is_Some_2 (il_array values) k) as [v Hv]; [lia|].
    unfold il_read.
    replace (il_begin values + Z.of_nat k * il_sizeof values - il_begin values)
      with (Z.of_nat k * il_sizeof values) by lia.
    rewrite Z.mod_mul, Z.div_mul by lia.
    rewrite decide_True by (split; [lia|done]).
    rewrite Nat2Z.id, Hv, bind_Done.
    eapply ensures_bind.
    { eapply ensures_weaken; [by apply (PushFront_ensures (S fuel) (S k))|done|..].
      - intros s1 H. exact H.
      - intros s1 ->. exists ld. by apply models_insert_id. }
    intros s1 (a' & Hfr & M1). simpl in M1.
    rewrite Z.mod_small by lia.
    replace (il_begin values + Z.of_nat k * il_sizeof values - il_sizeof values)
      with (il_begin values + (Z.of_nat k - 1) * il_sizeof values) by lia.
    apply ensures_S.
    eapply ensures_weaken;
      [eapply (IH fuel ((a', v) :: ld) s1 _ M1); [apply lookup_insert_eq|lia]|done|..].
    + intros s' (ld' & M' & Hvs). exists ld'. rewrite insert_insert_eq in M'.
      split; [done|]. rewrite Hvs. simpl. rewrite (take_S_r _ _ _ Hv).
      by rewrite <- app_assoc.
    + intros s' (ld' & M' ). exists ld'. by rewrite insert_insert_eq in M'.
Qed.

(** The initializer-list constructor, given a backing array inside the
    address space, builds a container with the values of the array, in
    their order. *)
Lemma construct_init_spec fuel s R c values :
  models on_heap s R → fresh_object on_heap s c → array_ok values →
  ensures (construct_init T_default new_addr fuel c values s)
    fuel (length (il_array values))
    (λ s', ∃ l, models on_heap s' (<[c := l]> R) ∧ l.*2 = il_array values)
    (λ s', models on_heap s' R).
Proof using alloc_ok.
  intros M Hfresh Harr. destruct (construct_spec s R c M Hfresh) as [Hc M1].
  pose proof Harr as (Hsz & Hbase & Hend).
  assert (0 ≤ Z.of_nat (length (il_array values)) * il_sizeof values) as Hp
    by (apply Z.mul_nonneg_nonneg; lia).
  unfold construct_init, il_end. rewrite (Z.mod_small (_ + _)) by lia.
  rewrite Z.mod_small by lia.
  replace (il_begin values + Z.of_nat (length (il_array values)) * il_sizeof values
           - il_sizeof values)
    with (il_begin values + (Z.of_nat (length (il_array values)) - 1) * il_sizeof values)
    by lia.
  eapply ensures_unwind.
  - eapply ensures_weaken;
      [eapply (init_loop_spec c values Harr (length (il_array values)) fuel [] _ _ M1);
         [apply lookup_insert_eq|done]|done|..].
    + intros s' (l & M' & Hv). exists l. rewrite insert_insert_eq in M'.
      split; [done|]. rewrite Hv. simpl. by rewrite firstn_all, app_nil_r.
    + intros s' H. exact H.
  - intros s' (ld' & M'). simpl. rewrite insert_insert_eq in M'.
    apply (release_spec _ _ c) in M'; [|rewrite lookup_insert_eq; by eexists].
    rewrite delete_insert_eq in M'. by rewrite delete_id in M'.
Qed.

(** Equations between maps built from inserts and deletes. *)
Ltac map_solve :=
  apply map_eq; intros ?;
  rewrite ?lookup_delete, ?lookup_insert;
  repeat (case_decide; simplify_eq); simpl; congruence.

(** The copy constructor builds a container with the values of [other], in
    the same order, and leaves its two temporaries behind destroyed. *)
Lemma construct_copy_spec fuel s R this other tmp1 tmp l :
  models on_heap s R → R !! other = Some l →
  NoDup [this; tmp1; tmp] → Forall (fresh_object on_heap s) [this; tmp1; tmp] →
  ensures (construct_copy T_default on_heap new_addr fuel this other tmp1 tmp s)
    fuel (length l)
    (λ s', ∃ l', models on_heap s' (<[this := l']> R) ∧ l'.*2 = l.*2)
    (λ s', models on_heap s' R).
Proof using alloc_ok.
  intros M Hother Hnd Hfr.
  apply NoDup_cons in Hnd as [Hn1 Hnd]. apply NoDup_cons in Hnd as [Hn2 _].
  apply not_elem_of_cons in Hn1 as [Hn1 Hn3]. apply not_elem_of_cons in Hn3 as [Hn3 _].
  apply not_elem_of_cons in Hn2 as [Hn2 _].
  apply Forall_cons_1 in Hfr as [F1 Hfr]. apply Forall_cons_1 in Hfr as [F2 Hfr].
  apply Forall_cons_1 in Hfr as [F3 _].
  pose proof (fresh_models _ _ _ M F1) as R1.
  pose proof (fresh_models _ _ _ M F2) as R2.
  pose proof (fresh_models _ _ _ M F3) as R3.
  assert (other ≠ this ∧ other ≠ tmp1 ∧ other ≠ tmp) as (Ho1 & Ho2 & Ho3).
  { split_and!; congruence. }
  destruct F2 as (_ & _ & Hr2 & Ha2), F3 as (_ & _ & Hr3 & Ha3).
  unfold construct_copy. cbv zeta.
  destruct (construct_spec s R this M F1) as [_ M1].
  destruct (construct_spec _ _ tmp1 M1) as [_ M2].
  { eapply models_fresh; eauto. by rewrite lookup_insert_ne. }
  set (s2 := construct T_default tmp1 _) in *.
  set (RA := <[tmp1 := []]> (<[this := []]> R)) in *.
  assert (RA !! other = Some ([] ++ l)) as HoA.
  { unfold RA. by rewrite !lookup_insert_ne by done. }
  destruct (models_owns _ _ _ M2 _ _ HoA) as (hd & Hhd & Hl & _).
  unfold cbegin, load. rewrite Hhd, !bind_Done.
  eapply ensures_bind.
  { eapply ensures_unwind.
    - eapply (copy_loop_spec other tmp1 l fuel [] [] s2 RA); eauto.
      apply lookup_insert_eq.
    - intros s' (ld' & M' & Hlen). simpl in Hlen.
      eapply ensures_bind.
      + eapply ensures_weaken; [eapply destroy_spec; [done|apply lookup_insert_eq]|lia|..].
        * intros s'' H. exact H.
        * done.
      + intros s'' M''. simpl.
        apply (release_spec _ _ this) in M''.
        * replace (delete this _) with R in M''; [done|]. unfold RA. map_solve.
        * unfold RA. rewrite !lookup_delete_ne, !lookup_insert_ne by done.
          rewrite lookup_insert_eq. by eexists. }
  intros s3 (lr & M3 & Hlr). simpl in Hlr. rewrite app_nil_r in Hlr.
  assert (length lr = length l) as Hlenr.
  { rewrite <- (length_fmap snd lr), Hlr, length_rev. by rewrite length_fmap. }
  destruct (construct_spec _ _ tmp M3) as [_ M4].
  { eapply models_fresh; eauto. unfold RA. by rewrite !lookup_insert_ne. }
  set (s4 := construct T_default tmp _) in *.
  set (RB := <[tmp := []]> (<[tmp1 := lr]> RA)) in *.
  assert (RB !! tmp1 = Some ([] ++ lr)) as H1B.
  { unfold RB. rewrite lookup_insert_ne by done. by rewrite lookup_insert_eq. }
  destruct (models_owns _ _ _ M4 _ _ H1B) as (hd1 & Hhd1 & Hl1 & _).
  unfold begin, load. rewrite Hhd1, !bind_Done.
  eapply ensures_bind.
  { eapply ensures_unwind.
    - eapply ensures_weaken;
        [eapply (copy_loop_spec tmp1 tmp lr fuel [] [] s4 RB); eauto;
           apply lookup_insert_eq|lia|..].
      + intros s' H. exact H.
      + intros s' H. exact H.
    - intros s' (ld' & M' & Hlen). simpl in Hlen.
      eapply ensures_bind.
      + eapply ensures_weaken; [eapply destroy_spec; [done|apply lookup_insert_eq]|lia|..].
        * intros s'' H. exact H.
        * done.
      + intros s'' M''. simpl in M''. eapply ensures_bind.
        * eapply ensures_weaken;
            [eapply (destroy_spec _ _ _ tmp1 lr); [done|]|lia|..].
          -- unfold RB. rewrite lookup_delete_ne, !lookup_insert_ne by done.
             apply lookup_insert_eq.
          -- intros s5 H. exact H.
          -- done.
        * intros s5 M5. simpl. apply (release_spec _ _ this) in M5.
          -- replace (delete this _) with R in M5; [done|]. unfold RB, RA. map_solve.
          -- unfold RB, RA. rewrite !lookup_delete_ne, !lookup_insert_ne by done.
             rewrite lookup_insert_eq. by eexists. }
  intros s5 (lc & M5 & Hlc). simpl in Hlc. rewrite app_nil_r in Hlc.
  destruct (swap_spec s5 _ this tmp [] lc M5) as (s6 & -> & M6).
  { unfold RB, RA. rewrite !lookup_insert_ne by done. apply lookup_insert_eq. }
  { apply lookup_insert_eq. }
  rewrite bind_Done. eapply ensures_bind.
  { eapply ensures_weaken; [eapply (destroy_spec _ _ _ tmp []); [done|]|simpl; lia|..].
    - apply lookup_insert_eq.
    - intros s7 H. exact H.
    - by intros ? []. }
  intros s7 M7. simpl in M7. eapply ensures_weaken;
    [eapply (destroy_spec _ _ _ tmp1 lr); [done|]|lia|..].
  - unfold RB. rewrite lookup_delete_ne, !lookup_insert_ne by done. apply lookup_insert_eq.
  - intros s8 M8. exists lc. split.
    + replace (<[this := lc]> R) with
        (delete tmp1 (delete tmp (<[tmp := []]> (<[this := lc]> (<[tmp := lc]> RB)))));
        [done|]. unfold RB, RA. map_solve.
    + by rewrite Hlc, Hlr, rev_involutive.
  - done.
Qed.

(** Copy assignment gives [this] the values of [rhs]; self-assignment
    changes nothing. *)
Lemma assign_spec fuel s R this rhs tmp tmp1' tmp' lt lr :
  models on_heap s R → R !! this = Some lt → R !! rhs = Some lr →
  NoDup [tmp; tmp1'; tmp'] → Forall (fresh_object on_heap s) [tmp; tmp1'; tmp'] →
  ensures (assign T_default on_heap new_addr fuel this rhs tmp tmp1' tmp' s)
    fuel (length lt `max` length lr)
    (λ s', ∃ l', models on_heap s' (<[this := l']> R) ∧ l'.*2 = lr.*2 ∧
                 (this = rhs → s' = s))
    (λ s', models on_heap s' R).
Proof using alloc_ok.
  intros M Ht Hr Hnd Hfr. unfold assign. case_decide as Hne.
  - pose proof (Forall_inv Hfr) as F1.
    pose proof (fresh_models _ _ _ M F1) as R1.
    assert (this ≠ tmp) as Htt by congruence.
    eapply ensures_bind.
    { eapply ensures_weaken; [by eapply construct_copy_spec|lia|..].
      - intros s1 H. exact H.
      - intros s1 H. exact H. }
    intros s1 (l' & M1 & Hl').
    destruct (swap_spec s1 _ this tmp lt l' M1) as (s2 & -> & M2).
    { by rewrite lookup_insert_ne. }
    { apply lookup_insert_eq. }
    rewrite bind_Done.
    eapply ensures_weaken;
      [eapply (destroy_spec _ _ _ tmp lt); [done|apply lookup_insert_eq]|lia|..].
    + intros s3 M3. exists l'. split; [|split; [done|congruence]].
      replace (<[this := l']> R) with
        (delete tmp (<[tmp := lt]> (<[this := l']> (<[tmp := l']> R)))); [done|].
      map_solve.
    + done.
  - simpl. assert (this = rhs) as <- by (destruct (decide (this = rhs)); [done|tauto]).
    exists lt. split; [by apply models_insert_id|]. split; [congruence|done].
Qed.

(** ** What a client observes *)

Lemma traverse_spec {V} l :
  ∀ fuel s p, node s !! nullptr = None → lseg (node s) p nullptr l →
  (length l < fuel)%nat →
  traverse (V:=V) fuel (MkIter p) (MkIter nullptr) s = Done l.*2.
Proof.
  induction l as [|[a v] l IH]; intros fuel s p H0 Hl Hfuel;
    (destruct fuel as [|fuel]; [simpl in Hfuel; lia|]); simpl in *.
  - unfold iter_ne. simpl. by rewrite bool_decide_eq_false_2 by (intros H; by apply H).
  - destruct Hl as (-> & nx & Hna & Hl).
    assert (a ≠ nullptr) as Ha0 by (intros ->; congruence).
    unfold iter_ne. simpl. rewrite bool_decide_eq_true_2 by done.
    unfold iter_deref, iter_incr, load. simpl. rewrite Hna, !bind_Done. simpl.
    rewrite (IH fuel s nx) by (done || lia). done.
Qed.

(** A client of a container sees the values of its chain, in order, and
    their number. *)
Lemma owns_observes s R c l :
  models on_heap s R → R !! c = Some l → observes s c l.*2.
Proof.
  intros M Hc. destruct (models_owns _ _ _ M _ _ Hc) as (hd & Hhd & Hl & Hsz).
  split.
  - unfold GetSize, load_size. by rewrite Hsz, length_fmap.
  - intros fuel Hfuel. unfold to_list, cbegin, load. rewrite Hhd, !bind_Done.
    apply traverse_spec; [by eapply models_null|done|]. by rewrite length_fmap in Hfuel.
Qed.

Lemma observes_unique s c vs vs' : observes s c vs → observes s c vs' → vs = vs'.
Proof.
  intros [_ H1] [_ H2].
  specialize (H1 (S (length vs `max` length vs')) ltac:(lia)).
  specialize (H2 (S (length vs `max` length vs')) ltac:(lia)). congruence.
Qed.

(** ** Every public operation keeps the invariant *)

Lemma live_models s R c : models on_heap s R → live s c → ∃ l, R !! c = Some l.
Proof. intros M Hc. by apply (models_dom _ _ _ M). Qed.

Lemma owns_models s R c l : models on_heap s R → owns s c l → R !! c = Some l.
Proof.
  intros M Ho. destruct (live_models s R c M) as [l' Hc].
  { destruct Ho as (hd & _ & _ & Hs). by eexists. }
  rewrite Hc. f_equal. eapply owns_unique; eauto. by eapply models_owns.
Qed.

Lemma begin_ensures {V} fuel bound s R c l :
  models on_heap s R → R !! c = Some l →
  ensures (begin (V:=V) c s) fuel bound
    (λ it, lseg (node s) (node_ it) nullptr l) (λ _, False).
Proof.
  intros M Hc. destruct (models_owns _ _ _ M _ _ Hc) as (hd & Hhd & Hl & _).
  unfold begin, load. by rewrite Hhd.
Qed.

(** A mutator of [this] keeps the invariant and rewrites the entry of
    [this] only; when it throws, nothing has changed. *)
Lemma mutation_frame fuel this m s R :
  models on_heap s R → call_ok on_heap s (as_call this m) →
  ∃ l, R !! this = Some l ∧
    ensures (exec T_default on_heap new_addr fuel (as_call this m) s) fuel (length l)
      (λ s', ∃ l', models on_heap s' (<[this := l']> R)) (λ s', s' = s).
Proof using alloc_ok.
  intros M Hok. destruct m as [val| |pos val|pos|]; simpl in Hok |- *.
  - destruct (live_models _ _ _ M Hok) as [l Hl]. exists l. split; [done|].
    eapply ensures_weaken; [by eapply PushFront_ensures|done|..].
    + intros s' (l' & _ & M'). eauto.
    + done.
  - destruct (live_models _ _ _ M Hok) as [l Hl]. exists l. split; [done|].
    destruct (PopFront_spec s R this l M Hl) as (s' & -> & M' & _).
    simpl. eauto.
  - destruct Hok as (l & Ho & Hpos). pose proof (owns_models _ _ _ _ M Ho) as Hl.
    exists l. split; [done|].
    destruct pos as [p]. simpl in Hpos. destruct Hpos as [->|Hin].
    + change (MkIter this) with (cbefore_begin this).
      rewrite InsertAfter_before_begin.
      eapply ensures_bind; [|intros r Hr; exact Hr].
      eapply ensures_bind; [by eapply PushFront_ensures|].
      intros s' (a & _ & M'). eapply ensures_bind.
      { eapply ensures_weaken;
          [eapply (begin_ensures _ _ s'); [done|apply lookup_insert_eq]|done|..].
        - intros it H. exact H.
        - by intros ? []. }
      intros it _. simpl. eauto.
    + apply list_elem_of_fmap in Hin as ([p' w] & Heq & Hin). simpl in Heq. subst p'.
      apply list_elem_of_split in Hin as (l1 & l2 & ->).
      destruct (InsertAfter_spec s R this l1 p w l2 val M Hl) as [(a & s' & -> & _ & M')| ->];
        simpl; eauto.
  - destruct Hok as (l & Ho & Hpos). pose proof (owns_models _ _ _ _ M Ho) as Hl.
    exists l. split; [done|].
    destruct pos as [p]. simpl in Hpos. destruct Hpos as [->|(i & Hi & Hlen)].
    + change (MkIter this) with (cbefore_begin this).
      rewrite EraseAfter_before_begin.
      destruct (PopFront_spec s R this l M Hl) as (s' & -> & M' & _).
      rewrite bind_Done.
      eapply ensures_bind; [|intros r Hr; exact Hr].
      eapply ensures_bind.
      { eapply ensures_weaken;
          [eapply (begin_ensures _ _ s'); [done|apply lookup_insert_eq]|done|..].
        - intros it H. exact H.
        - by intros ? []. }
      intros it _. simpl. eauto.
    + rewrite list_lookup_fmap in Hi.
      destruct (l !! i) as [[p' w]|] eqn:Ei; [|done]. simpl in Hi. injection Hi as ->.
      destruct (lookup_lt_is_Some_2 l (S i)) as [[b x] Eb]; [lia|].
      pose proof (take_drop_middle _ _ _ Ei) as Hsplit.
      rewrite (drop_S _ _ _ Eb) in Hsplit. pose proof Hl as Hl'. rewrite <- Hsplit in Hl'.
      destruct (EraseAfter_spec s R this _ p w b x _ M Hl') as (it & s' & -> & _ & M').
      simpl. eauto.
  - destruct (live_models _ _ _ M Hok) as [l Hl]. exists l. split; [done|].
    eapply ensures_weaken; [by eapply Clear_spec|done|..].
    + intros s' (M' & _). eauto.
    + done.
Qed.

Lemma exec_models fuel c s R :
  models on_heap s R → call_ok on_heap s c →
  ∃ bound, ensures (exec T_default on_heap new_addr fuel c s) fuel bound
             (λ s', ∃ R', models on_heap s' R') (λ s', ∃ R', models on_heap s' R').
Proof using alloc_ok.
  intros M Hok.
  assert (∀ this m, c = as_call this m →
    ∃ bound, ensures (exec T_default on_heap new_addr fuel c s) fuel bound
      (λ s', ∃ R', models on_heap s' R') (λ s', ∃ R', models on_heap s' R')) as Hmut.
  { intros this m ->. destruct (mutation_frame fuel this m s R M Hok) as (l & _ & He).
    exists (length l). eapply ensures_weaken; [exact He|done|..].
    - intros s' (l' & M'). eauto.
    - intros s' ->. eauto. }
  destruct c; simpl in Hok |- *.
  - exists 0%nat. simpl. eexists. by eapply construct_spec.
  - destruct Hok as [Hfresh Harr]. exists (length (il_array values)).
    eapply ensures_weaken; [by eapply construct_init_spec|done|..].
    + intros s' (l & M' & _). eauto.
    + intros s' M'. simpl in M'. eauto.
  - destruct Hok as (Hlive & Hnd & Hfr).
    destruct (live_models _ _ _ M Hlive) as [l Hl].
    exists (length l). eapply ensures_weaken; [by eapply construct_copy_spec|done|..].
    + intros s' (l' & M' & _). eauto.
    + intros s' M'. simpl in M'. eauto.
  - destruct Hok as (Hlive & Hlive' & Hnd & Hfr).
    destruct (live_models _ _ _ M Hlive) as [lt Hlt].
    destruct (live_models _ _ _ M Hlive') as [lr Hlr].
    eexists. eapply ensures_weaken; [by eapply assign_spec|done|..].
    + intros s' (l' & M' & _). eauto.
    + intros s' M'. simpl in M'. eauto.
  - by apply (Hmut this (MPushFront val)).
  - by apply (Hmut this MPopFront).
  - by apply (Hmut this MClear).
  - by apply (Hmut this (MInsertAfter pos val)).
  - by apply (Hmut this (MEraseAfter pos)).
  - destruct Hok as [H1 H2].
    destruct (live_models _ _ _ M H1) as [l1 Hl1].
    destruct (live_models _ _ _ M H2) as [l2 Hl2].
    destruct (swap_spec s R this other l1 l2 M Hl1 Hl2) as (s' & -> & M').
    exists 0%nat. simpl. eauto.
Qed.

Lemma models_empty : models on_heap (MkMem ∅ ∅) (∅ : gmap Z (list (Z * T))).
Proof.
  constructor; simpl.
  - intros a. rewrite lookup_empty. by intros [].
  - intros c. rewrite !lookup_empty. done.
  - intros c. rewrite lookup_empty. by intros [].
  - intros a. rewrite lookup_empty. by intros [].
  - intros c l. by rewrite lookup_empty.
  - intros c l a. by rewrite lookup_empty.
  - intros c1 c2 l1 l2 _. by rewrite lookup_empty.
Qed.

(** The invariant holds in every reachable memory. *)
Lemma reachable_models s :
  reachable T_default on_heap new_addr s → ∃ R, models on_heap s R.
Proof using alloc_ok.
  induction 1 as [|s c fuel s' _ [R M] Hok Hexec|s c fuel s' _ [R M] Hok Hexec].
  - eexists. apply models_empty.
  - destruct (exec_models fuel c s R M Hok) as [bound He].
    rewrite Hexec in He. exact He.
  - destruct (exec_models fuel c s R M Hok) as [bound He].
    rewrite Hexec in He. exact He.
Qed.

(** ** Comparison operators *)

Variable eqb : T → T → bool.
Variable ltb : T → T → bool.

Lemma same_values_nil_l (B : list T) : same_values eqb [] B ↔ B = [].
Proof.
  unfold same_values. split.
  - intros [Hlen _]. by destruct B.
  - intros ->. split; [done|]. intros i x y. by rewrite lookup_nil.
Qed.

Lemma same_values_nil_r (A : list T) : same_values eqb A [] ↔ A = [].
Proof.
  unfold same_values. split.
  - intros [Hlen _]. by destruct A.
  - intros ->. split; [done|]. intros i x y. by rewrite lookup_nil.
Qed.

Lemma same_values_cons x y (A B : list T) :
  same_values eqb (x :: A) (y :: B) ↔ eqb x y = true ∧ same_values eqb A B.
Proof.
  unfold same_values. split.
  - intros [Hlen Hv]. split; [by apply (Hv 0%nat)|]. split; [simpl in Hlen; lia|].
    intros i a b Ha Hb. by apply (Hv (S i)).
  - intros (Hxy & Hlen & Hv). split; [simpl; lia|].
    intros [|i] a b; simpl; [congruence|]. apply Hv.
Qed.

Lemma less_nil_l (B : list T) : lexicographically_less ltb [] B ↔ B ≠ [].
Proof.
  unfold lexicographically_less. split.
  - intros (i & Hpre & Hi) ->. rewrite !lookup_nil in Hi. done.
  - intros HB. destruct B as [|y B]; [done|]. exists 0%nat. split; [lia|done].
Qed.

Lemma less_nil_r (A : list T) : ¬ lexicographically_less ltb A [].
Proof. intros (i & _ & Hi). rewrite lookup_nil in Hi. by destruct (A !! i). Qed.

Lemma less_cons x y (A B : list T) :
  lexicographically_less ltb (x :: A) (y :: B) ↔
  ltb x y = true ∨ (ltb x y = false ∧ ltb y x = false ∧ lexicographically_less ltb A B).
Proof.
  unfold lexicographically_less. split.
  - intros ([|i] & Hpre & Hi); simpl in Hi; [by left|]. right.
    destruct (Hpre 0%nat) as (a & b & [= <-] & [= <-] & Hab & Hba); [lia|].
    split; [done|]. split; [done|]. exists i. split; [|done].
    intros j Hj. apply (Hpre (S j)). lia.
  - intros [Hxy|(Hxy & Hyx & i & Hpre & Hi)].
    + exists 0%nat. split; [lia|done].
    + exists (S i). split; [|done]. intros [|j] Hj; simpl; [by exists x, y|].
      apply Hpre. lia.
Qed.

Lemma iter_ne_null {V} (p : Z) :
  iter_ne (V:=V) (W:=V) (MkIter p) (MkIter nullptr) = bool_decide (p ≠ nullptr).
Proof. unfold iter_ne. simpl. apply bool_decide_ext. split; intros H ?; by apply H. Qed.

Lemma iter_eq_null {V} (p : Z) :
  iter_eq (V:=V) (W:=V) (MkIter p) (MkIter nullptr) = bool_decide (p = nullptr).
Proof. unfold iter_eq. simpl. apply bool_decide_ext. split; by intros ->. Qed.

(** [std::equal] on two chains decides [same_values]. *)
Lemma std_equal_spec la :
  ∀ lb fuel s p q, node s !! nullptr = None →
  lseg (node s) p nullptr la → lseg (node s) q nullptr lb →
  (length la < fuel)%nat →
  ∃ b, std_equal eqb fuel (MkIter p) (MkIter nullptr) (MkIter q) (MkIter nullptr) s
       = Done b ∧ (b = true ↔ same_values eqb la.*2 lb.*2).
Proof.
  induction la as [|[a x] la IH]; intros lb fuel s p q H0 Hla Hlb Hfuel;
    (destruct fuel as [|fuel]; [simpl in Hfuel; lia|]); simpl in Hla, Hfuel;
    cbn [std_equal]; rewrite !iter_ne_null, !iter_eq_null.
  - rewrite (bool_decide_eq_false_2 (p ≠ nullptr)) by (intros H; by apply H).
    rewrite (bool_decide_eq_true_2 (p = nullptr)) by done. cbn [andb].
    eexists. split; [done|].
    rewrite same_values_nil_l, bool_decide_eq_true.
    destruct lb as [|[b y] lb]; simpl in Hlb; [done|].
    destruct Hlb as (-> & nx & Hnb & _). split; [|done].
    intros ->. congruence.
  - destruct Hla as (-> & nx & Hna & Hla).
    assert (a ≠ nullptr) as Ha0 by (intros ->; congruence).
    rewrite (bool_decide_eq_true_2 (a ≠ nullptr)) by done.
    rewrite (bool_decide_eq_false_2 (a = nullptr)) by done. cbn [andb].
    destruct lb as [|[b y] lb]; simpl in Hlb.
    + rewrite (bool_decide_eq_false_2 (q ≠ nullptr)) by (intros H; by apply H).
      eexists. split; [done|]. rewrite same_values_nil_r. done.
    + destruct Hlb as (-> & nx' & Hnb & Hlb).
      assert (b ≠ nullptr) as Hb0 by (intros ->; congruence).
      rewrite (bool_decide_eq_true_2 (b ≠ nullptr)) by done.
      unfold iter_deref, iter_incr, load. cbn [node_]. rewrite Hna, Hnb, !bind_Done.
      cbn [value next_node fmap list_fmap snd].
      destruct (eqb x y) eqn:Exy.
      * destruct (IH lb fuel s nx nx' H0 Hla Hlb) as (r & -> & Hr); [lia|].
        exists r. split; [done|]. rewrite same_values_cons, Hr. by split; [|intros [_ ?]].
      * exists false. split; [done|]. rewrite same_values_cons.
        split; [done|]. intros [? _]. congruence.
Qed.

(** [std::lexicographical_compare] on two chains decides
    [lexicographically_less]. *)
Lemma std_lexicographical_compare_spec la :
  ∀ lb fuel s p q, node s !! nullptr = None →
  lseg (node s) p nullptr la → lseg (node s) q nullptr lb →
  (length la < fuel)%nat →
  ∃ b, std_lexicographical_compare ltb fuel
         (MkIter p) (MkIter nullptr) (MkIter q) (MkIter nullptr) s = Done b ∧
       (b = true ↔ lexicographically_less ltb la.*2 lb.*2).
Proof.
  induction la as [|[a x] la IH]; intros lb fuel s p q H0 Hla Hlb Hfuel;
    (destruct fuel as [|fuel]; [simpl in Hfuel; lia|]); simpl in Hla, Hfuel;
    cbn [std_lexicographical_compare]; rewrite !iter_ne_null, !iter_eq_null.
  - rewrite (bool_decide_eq_false_2 (p ≠ nullptr)) by (intros H; by apply H).
    rewrite (bool_decide_eq_true_2 (p = nullptr)) by done. cbn [andb].
    eexists. split; [done|].
    rewrite less_nil_l, bool_decide_eq_true.
    destruct lb as [|[b y] lb]; simpl in Hlb; [done|].
    destruct Hlb as (-> & nx & Hnb & _). split; [done|].
    intros _ ->. congruence.
  - destruct Hla as (-> & nx & Hna & Hla).
    assert (a ≠ nullptr) as Ha0 by (intros ->; congruence).
    rewrite (bool_decide_eq_true_2 (a ≠ nullptr)) by done.
    rewrite (bool_decide_eq_false_2 (a = nullptr)) by done. cbn [andb].
    destruct lb as [|[b y] lb]; simpl in Hlb.
    + rewrite (bool_decide_eq_false_2 (q ≠ nullptr)) by (intros H; by apply H).
      eexists. split; [done|]. split; [done|]. intros H. by apply less_nil_r in H.
    + destruct Hlb as (-> & nx' & Hnb & Hlb).
      assert (b ≠ nullptr) as Hb0 by (intros ->; congruence).
      rewrite (bool_decide_eq_true_2 (b ≠ nullptr)) by done.
      unfold iter_deref, iter_incr, load. cbn [node_]. rewrite Hna, Hnb, !bind_Done.
      cbn [value next_node fmap list_fmap snd].
      destruct (ltb x y) eqn:Exy.
      * exists true. split; [done|]. rewrite less_cons. split; [by left|done].
      * destruct (ltb y x) eqn:Eyx.
        -- exists false. split; [done|]. rewrite less_cons. split; [done|].
           intros [?|(_ & ? & _)]; congruence.
        -- destruct (IH lb fuel s nx nx' H0 Hla Hlb) as (r & -> & Hr); [lia|].
           exists r. split; [done|]. rewrite less_cons, Hr. split; [by right|].
           intros [?|(_ & _ & ?)]; [congruence|done].
Qed.

Lemma operator_eq_spec fuel s R A B la lb :
  models on_heap s R → R !! A = Some la → R !! B = Some lb →
  (length la < fuel)%nat →
  ∃ b, operator_eq eqb fuel A B s = Done b ∧
       (b = true ↔ same_values eqb la.*2 lb.*2).
Proof.
  intros M HA HB Hfuel.
  destruct (models_owns _ _ _ M _ _ HA) as (hda & Hhda & Hla & _).
  destruct (models_owns _ _ _ M _ _ HB) as (hdb & Hhdb & Hlb & _).
  unfold operator_eq, cbegin, load. rewrite Hhda, Hhdb, !bind_Done.
  eapply std_equal_spec; eauto using models_null.
Qed.

Lemma operator_lt_spec fuel s R A B la lb :
  models on_heap s R → R !! A = Some la → R !! B = Some lb →
  (length la < fuel)%nat →
  ∃ b, operator_lt ltb fuel A B s = Done b ∧
       (b = true ↔ lexicographically_less ltb la.*2 lb.*2).
Proof.
  intros M HA HB Hfuel.
  destruct (models_owns _ _ _ M _ _ HA) as (hda & Hhda & Hla & _).
  destruct (models_owns _ _ _ M _ _ HB) as (hdb & Hhdb & Hlb & _).
  unfold operator_lt, cbegin, load. rewrite Hhda, Hhdb, !bind_Done.
  eapply std_lexicographical_compare_spec; eauto using models_null.
Qed.

(** * Properties of the specification *)

Local Abbreviation reachable := (reachable T_default on_heap new_addr).

Lemma IsEmpty_true s R c l :
  models on_heap s R → R !! c = Some l → IsEmpty c s = Done true → l = [].
Proof.
  intros M Hc. destruct (models_owns _ _ _ M _ _ Hc) as (hd & _ & _ & Hsz).
  unfold IsEmpty, load_size. rewrite Hsz, bind_Done. intros [= H%bool_decide_eq_true].
  destruct l; [done|]. simpl in H. lia.
Qed.

Lemma IsEmpty_false s R c l :
  models on_heap s R → R !! c = Some l → IsEmpty c s = Done false → l ≠ [].
Proof.
  intros M Hc. destruct (models_owns _ _ _ M _ _ Hc) as (hd & _ & _ & Hsz).
  unfold IsEmpty, load_size. rewrite Hsz, bind_Done. intros [= H%bool_decide_eq_false].
  by intros ->.
Qed.

(** C1: in every memory reachable by public operations, every live
    container has a finite chain behind its sentinel that ends in
    [nullptr], no node occurs twice in it (it is acyclic), and [size_]
    (which [GetSize] returns) is the number of its nodes. *)
Theorem size_counts_the_chain s c :
  reachable s → live s c →
  ∃ hd chain,
    node s !! c = Some hd ∧
    lseg (node s) (next_node hd) nullptr chain ∧
    NoDup chain.*1 ∧
    size_ s !! c = Some (Z.of_nat (length chain)) ∧
    GetSize c s = Done (Z.of_nat (length chain)).
Proof using alloc_ok.
  intros Hr Hlive. destruct (reachable_models s Hr) as [R M].
  destruct (live_models _ _ _ M Hlive) as [l Hl].
  destruct (models_owns _ _ _ M _ _ Hl) as (hd & Hhd & Hch & Hsz).
  exists hd, l. split_and!; try done.
  - by eapply models_NoDup.
  - unfold GetSize, load_size. by rewrite Hsz.
Qed.

(** Given a backing array inside the address space, the initializer-list
    constructor, when it returns, has built a container whose front-to-back
    iteration yields the values in the order of the list and whose size is
    their number; with enough fuel it returns or throws [std::bad_alloc]. *)
Lemma initializer_list_keeps_order s this values :
  reachable s → fresh_object on_heap s this → array_ok values →
  ∀ fuel, (length (il_array values) < fuel)%nat →
    match construct_init T_default new_addr fuel this values s with
    | Done s' => observes s' this (il_array values)
    | Throws _ => True
    | _ => False
    end.
Proof using alloc_ok.
  intros Hr Hfresh Harr fuel Hfuel. destruct (reachable_models s Hr) as [R M].
  pose proof (construct_init_spec fuel s R this values M Hfresh Harr) as He.
  destruct (construct_init _ _ _ _ _ _); simpl in He; try done; [|lia].
  destruct He as (l & M' & <-). eapply owns_observes; [done|apply lookup_insert_eq].
Qed.

(** On an empty list whose [begin()] is null, [values.end()-1] wraps around
    to the top of the address space, the test [it >= values.begin()]
    succeeds and the loop reads through a pointer that points nowhere. *)
Lemma construct_init_null_empty fuel this sz s :
  0 < sz < size_t_mod →
  construct_init T_default new_addr (S fuel) this (MkInit nullptr sz []) s = Undefined.
Proof.
  intros Hsz. unfold construct_init, il_end. simpl il_begin. simpl il_sizeof.
  simpl il_array. simpl length.
  replace ((nullptr + Z.of_nat 0 * sz) `mod` size_t_mod) with 0 by reflexivity.
  replace ((0 - sz) `mod` size_t_mod) with (size_t_mod - sz).
  2:{ apply (Z.mod_unique _ _ (-1)); lia. }
  cbn [init_loop]. simpl il_begin. rewrite decide_True by (unfold nullptr; lia).
  unfold il_read. simpl il_array. rewrite lookup_nil.
  by destruct (decide _).
Qed.

(** C5: [InsertAfter(before_begin(), v)] runs exactly as [PushFront(v)] and
    returns [begin()] of the new state, an iterator to a new node that
    holds [v]; on a non-empty container [EraseAfter(before_begin())] runs
    exactly as [PopFront()] and returns [begin()] of the new state. The
    [Iterator] that [before_begin()] returns is converted to the
    [ConstIterator] that both functions take. *)
Theorem before_begin_is_the_front s c :
  reachable s → live s c →
  (∀ v, match PushFront new_addr c v s with
        | Done s1 =>
          ∃ it, InsertAfter new_addr c (iter_convert (before_begin c)) v s
                = Done (it, s1) ∧
                begin c s1 = Done it ∧ iter_deref it s1 = Done v ∧
                node s !! node_ it = None
        | Throws s1 =>
          InsertAfter new_addr c (iter_convert (before_begin c)) v s = Throws s1
        | _ => False
        end) ∧
  (IsEmpty c s = Done false →
   ∃ s1 it, PopFront on_heap c s = Done s1 ∧
            EraseAfter on_heap c (iter_convert (before_begin c)) s = Done (it, s1) ∧
            begin c s1 = Done it).
Proof using alloc_ok.
  intros Hr Hlive. destruct (reachable_models s Hr) as [R M].
  destruct (live_models _ _ _ M Hlive) as [l Hl].
  change (iter_convert (before_begin c)) with (cbefore_begin c). split.
  - intros v. rewrite InsertAfter_before_begin.
    destruct (PushFront_spec s R c l v M Hl) as [(a & s1 & -> & Hfr & M1)| ->]; [|done].
    rewrite bind_Done.
    destruct (models_owns _ _ _ M1 c _ (lookup_insert_eq _ _ _)) as (hd & Hhd & Hch & _).
    simpl in Hch. destruct Hch as (Ha & nx & Hna & _).
    unfold begin, load. rewrite Hhd, !bind_Done. eexists. split; [done|]. split; [done|].
    simpl. rewrite Ha. split; [|done].
    unfold iter_deref, load. simpl. by rewrite Hna.
  - intros _. rewrite EraseAfter_before_begin.
    destruct (PopFront_spec s R c l M Hl) as (s1 & -> & M1 & _).
    rewrite bind_Done.
    destruct (models_owns _ _ _ M1 c _ (lookup_insert_eq _ _ _)) as (hd & Hhd & _).
    unfold begin, load. rewrite Hhd, !bind_Done.
    eexists _, _. split; [done|]. split; [done|]. by rewrite Hhd.
Qed.

(** C8: on an empty container [PopFront] and [Clear] return and change
    nothing, the size stays 0; on every container [Clear] returns and
    leaves a reachable memory in which the container is empty: size 0,
    nothing to iterate over, [begin()] is [end()]. *)
Theorem empty_is_a_fixpoint_and_clear_empties s c :
  reachable s → live s c →
  (IsEmpty c s = Done true →
   PopFront on_heap c s = Done s ∧
   (∀ fuel, (0 < fuel)%nat → Clear on_heap fuel c s = Done s) ∧
   GetSize c s = Done 0) ∧
  (∃ vs, observes s c vs ∧
     ∀ fuel, (length vs < fuel)%nat →
       ∃ s', Clear on_heap fuel c s = Done s' ∧ reachable s' ∧
             observes s' c [] ∧ IsEmpty c s' = Done true ∧
             begin (V:=Mutable) c s' = Done end_).
Proof using alloc_ok.
  intros Hr Hlive. destruct (reachable_models s Hr) as [R M].
  destruct (live_models _ _ _ M Hlive) as [l Hl]. split.
  - intros He. pose proof (IsEmpty_true _ _ _ _ M Hl He) as ->.
    destruct (PopFront_spec s R c [] M Hl) as (s1 & -> & _ & Hs1).
    rewrite (Hs1 eq_refl). split; [done|]. split.
    + intros fuel Hfuel. pose proof (Clear_spec fuel s R c [] M Hl) as Hc.
      destruct (Clear _ _ _ _); simpl in Hc; try done; [|lia].
      destruct Hc as [_ ->]; done.
    + destruct (owns_observes s R c [] M Hl) as [Hsz _]. done.
  - exists l.*2. split; [by eapply owns_observes|].
    intros fuel Hfuel. rewrite length_fmap in Hfuel.
    destruct (ensures_Done _ _ _ _ (Clear_spec fuel s R c l M Hl) Hfuel)
      as (s' & Hclear & M' & _).
    exists s'. split; [done|]. split.
    { by eapply (reachable_call _ _ _ s (CallClear c) fuel). }
    pose proof (owns_observes s' _ c [] M' (lookup_insert_eq _ _ _)) as Hobs.
    split; [done|]. destruct Hobs as [Hsz _].
    unfold IsEmpty, GetSize in *. simpl in Hsz. rewrite Hsz. split; [done|].
    destruct (models_owns _ _ _ M' c _ (lookup_insert_eq _ _ _)) as (hd & Hhd & Hch & _).
    unfold begin, load, end_. rewrite Hhd, bind_Done. simpl in Hch. by rewrite Hch.
Qed.

(** C10: on an empty container [EraseAfter(cbefore_begin())] returns
    [end()] and leaves the memory as it was, so nothing is deleted and the
    size stays 0; the run reads the sentinel only, it goes the same way in
    every memory with the same sentinel. *)
Theorem erase_after_before_begin_of_empty s c :
  reachable s → live s c → IsEmpty c s = Done true →
  EraseAfter on_heap c (cbefore_begin c) s = Done (end_, s) ∧
  iter_eq (end_ (V:=Mutable)) cend = true ∧
  GetSize c s = Done 0 ∧
  ∀ s', node s' !! c = node s !! c →
        EraseAfter on_heap c (cbefore_begin c) s' = Done (end_, s').
Proof using alloc_ok.
  intros Hr Hlive He. destruct (reachable_models s Hr) as [R M].
  destruct (live_models _ _ _ M Hlive) as [l Hl].
  pose proof (IsEmpty_true _ _ _ _ M Hl He) as ->.
  destruct (models_owns _ _ _ M _ _ Hl) as (hd & Hhd & Hch & Hsz). simpl in Hch.
  assert (∀ s', node s' !! c = node s !! c →
            EraseAfter on_heap c (cbefore_begin c) s' = Done (end_, s')) as Hgen.
  { intros s' Hs'. rewrite EraseAfter_before_begin. unfold PopFront, begin, load.
    rewrite Hs', Hhd, bind_Done. rewrite decide_False by (intros H; by apply H).
    rewrite bind_Done, Hs', Hhd, bind_Done. unfold end_. by rewrite Hch. }
  split; [by apply Hgen|]. split; [done|]. split; [|done].
  unfold GetSize, load_size. by rewrite Hsz.
Qed.

(** C6: for two live containers [operator==] returns, and it returns [true]
    exactly when the two sequences of values have the same length and
    [operator==] of the elements holds at every position; [operator!=]
    returns the negation. *)
Theorem equality_is_positionwise s A B :
  reachable s → live s A → live s B →
  ∃ va vb, observes s A va ∧ observes s B vb ∧
    ∀ fuel, (length va < fuel)%nat →
      ∃ b, operator_eq eqb fuel A B s = Done b ∧
           operator_ne eqb fuel A B s = Done (negb b) ∧
           (b = true ↔ same_values eqb va vb).
Proof using alloc_ok.
  intros Hr HA HB. destruct (reachable_models s Hr) as [R M].
  destruct (live_models _ _ _ M HA) as [la Hla].
  destruct (live_models _ _ _ M HB) as [lb Hlb].
  exists la.*2, lb.*2. split; [by eapply owns_observes|]. split; [by eapply owns_observes|].
  intros fuel Hfuel. rewrite length_fmap in Hfuel.
  destruct (operator_eq_spec fuel s R A B la lb M Hla Hlb Hfuel) as (b & Hb & Hiff).
  exists b. unfold operator_ne. rewrite Hb. done.
Qed.

Lemma mutated_frame C L l s1 s2 :
  mutated T_default on_heap new_addr C s1 s2 → C ≠ L →
  ∀ R1, models on_heap s1 R1 → R1 !! L = Some l →
  ∃ R2, models on_heap s2 R2 ∧ R2 !! L = Some l.
Proof using alloc_ok.
  intros Hmut Hne. induction Hmut as [s|s m fuel s' s'' Hok Hexec _ IH]; intros R1 M1 HL.
  - eauto.
  - destruct (mutation_frame fuel C m s R1 M1 Hok) as (lc & _ & He).
    rewrite Hexec in He. simpl in He. destruct He as (l' & M').
    apply (IH _ M'). by rewrite lookup_insert_ne.
Qed.

(** The order that [operator<] decides, and two of its laws. *)
Lemma less_is_lexicographic s A B :
  reachable s → live s A → live s B →
  ∃ va vb, observes s A va ∧ observes s B vb ∧
    ∀ fuel, (length va < fuel)%nat →
      ∃ b, operator_lt ltb fuel A B s = Done b ∧
           (b = true ↔ lexicographically_less ltb va vb).
Proof using alloc_ok.
  intros Hr HA HB. destruct (reachable_models s Hr) as [R M].
  destruct (live_models _ _ _ M HA) as [la Hla].
  destruct (live_models _ _ _ M HB) as [lb Hlb].
  exists la.*2, lb.*2. split; [by eapply owns_observes|]. split; [by eapply owns_observes|].
  intros fuel Hfuel. rewrite length_fmap in Hfuel.
  by eapply operator_lt_spec.
Qed.

Lemma less_strict_prefix (A : list T) x rest :
  (∀ y, ltb y y = false) → lexicographically_less ltb A (A ++ x :: rest).
Proof.
  intros Hirr. induction A as [|a A IH]; simpl.
  - by apply less_nil_l.
  - apply less_cons. right. auto.
Qed.

Lemma less_irreflexive (A : list T) :
  (∀ y, ltb y y = false) → ¬ lexicographically_less ltb A A.
Proof.
  intros Hirr. induction A as [|a A IH].
  - apply less_nil_r.
  - rewrite less_cons. intros [H|(_ & _ & H)]; [|done]. rewrite Hirr in H. done.
Qed.

End Container.

(** ** Iterators *)

(** C9: for an iterator of either flavour, [operator->] is total: on an
    iterator that refers to no node it returns the null pointer, where
    [operator*] is undefined; on an iterator that refers to a node it
    returns the address of that node's value, and reading through it gives
    the value. *)
Theorem arrow_is_null_or_the_value {T} {V} (i : BasicIterator V) (s : memory T) :
  node s !! nullptr = None →
  (node_ i = nullptr →
   iter_arrow i = null_pointer ∧ iter_deref i s = Undefined) ∧
  (∀ n, node s !! node_ i = Some n →
   iter_arrow i = value_of (node_ i) ∧
   read_pointer (iter_arrow i) s = Done (value n) ∧
   iter_deref i s = Done (value n)).
Proof.
  intros H0. unfold iter_arrow, iter_deref, load. split.
  - intros ->. rewrite decide_False by (intros H; by apply H). by rewrite H0.
  - intros n Hn. rewrite decide_True by congruence. simpl. unfold load. by rewrite Hn.
Qed.

(** ** The derived comparisons *)

Lemma operator_le_unfold {T} (ltb : T → T → bool) fuel A B (s : memory T) :
  operator_le ltb fuel A B s = (r ← operator_lt ltb fuel B A s; Done (negb r)).
Proof. reflexivity. Qed.

Lemma operator_gt_unfold {T} (ltb : T → T → bool) fuel A B (s : memory T) :
  operator_gt ltb fuel A B s = operator_lt ltb fuel B A s.
Proof. reflexivity. Qed.

(** [operator>=] negates [lhs > rhs], that is [rhs < lhs]: it computes what
    [operator<=] computes. *)
Lemma operator_ge_is_operator_le {T} (ltb : T → T → bool) fuel A B (s : memory T) :
  operator_ge ltb fuel A B s = operator_le ltb fuel A B s.
Proof. reflexivity. Qed.

(** ** The concrete machine *)

Lemma foldr_max_ge (l : list Z) a : a ∈ l → a ≤ foldr Z.max 0 l.
Proof.
  induction l as [|b l IH]; simpl.
  - intros H. by apply elem_of_nil in H.
  - intros [->|H]%elem_of_cons; [lia|]. specialize (IH H). lia.
Qed.

Lemma bump_ok {A} : allocator_ok (T:=A) in_heap bump.
Proof.
  intros m a. unfold bump. case_decide as Hlt; [|done]. intros [= <-].
  split; [|split].
  - destruct (m !! _) as [n|] eqn:E; [|done]. exfalso.
    apply elem_of_map_to_list in E.
    apply (list_elem_of_fmap_2 fst) in E. simpl in E.
    apply foldr_max_ge in E. lia.
  - unfold heap_base in *. lia.
  - unfold in_heap. apply bool_decide_eq_true. lia.
Qed.

Lemma fresh_in_empty (a : Z) :
  0 < a < heap_base → fresh_object in_heap empty_memory a.
Proof.
  intros Ha. unfold fresh_object, empty_memory. simpl. rewrite !lookup_empty.
  split; [done|]. split; [done|]. split; [unfold heap_base, size_t_mod in *; lia|].
  unfold in_heap. apply bool_decide_eq_false. lia.
Qed.

(** Discharges the preconditions of a run in a concrete memory. *)
Ltac concrete :=
  repeat match goal with
  | |- _ ∧ _ => split
  | |- fresh_object _ _ _ => unfold fresh_object
  | |- array_ok _ => unfold array_ok
  | |- live _ _ => eexists
  | |- Forall _ _ => constructor
  | |- NoDup _ => apply (bool_decide_unpack _)
  end; vm_compute; try reflexivity; try exact I; try done.

Lemma reachable_one_list (A : list Z) :
  array_ok (ints A) →
  construct_init 0 bump 8 1 (ints A) empty_memory = Done (one_list A) →
  reachable 0 in_heap bump (one_list A).
Proof.
  intros Harr Hrun.
  apply (reachable_call _ _ _ empty_memory (InitConstruct 1 (ints A)) 8).
  - apply reachable_start.
  - split; [|done]. apply fresh_in_empty. unfold heap_base. lia.
  - exact Hrun.
Qed.

Lemma reachable_two_lists (A B : list Z) :
  array_ok (ints A) → array_ok (ints B) →
  construct_init 0 bump 8 1 (ints A) empty_memory = Done (one_list A) →
  fresh_object in_heap (one_list A) 2 →
  construct_init 0 bump 8 2 (ints B) (one_list A) = Done (two_lists A B) →
  reachable 0 in_heap bump (two_lists A B).
Proof.
  intros HarrA HarrB HA Hfresh HB.
  apply (reachable_call _ _ _ (one_list A) (InitConstruct 2 (ints B)) 8).
  - by apply reachable_one_list.
  - done.
  - exact HB.
Qed.

(** C3 (derived comparisons): [operator>=] is not the negation of
    [operator<]. For the reachable containers [A = {1}] and [B = {2}] both
    [A < B] and [A >= B] return [true]. ([operator<=] and [operator>] are
    the standard ones by [operator_le_unfold] and [operator_gt_unfold];
    [operator>=] computes [operator<=], see [operator_ge_is_operator_le].) *)
Theorem operator_ge_agrees_with_less_on_1_2 :
  reachable 0 in_heap bump (two_lists [1] [2]) ∧
  to_list 8 1 (two_lists [1] [2]) = Done [1] ∧
  to_list 8 2 (two_lists [1] [2]) = Done [2] ∧
  operator_lt Z.ltb 8 1 2 (two_lists [1] [2]) = Done true ∧
  operator_ge Z.ltb 8 1 2 (two_lists [1] [2]) = Done true.
Proof.
  split; [apply reachable_two_lists; concrete|]. concrete.
Qed.

(** C7: for two live containers [operator<] returns, and it returns [true]
    exactly when the sequence of [A] is lexicographically less than that of
    [B]: they agree up to a position at which [A] has ended and [B] has
    not, or at which the element of [A] is less. For an irreflexive
    element order a strict prefix is less, and containers with the same
    values are neither less nor greater. On the machine,
    [{1,2,3} < {1,2,4}] and [{1,2} < {1,2,3}] return [true]. *)
Theorem less_than_is_lexicographic {T} (T_default : T) (ltb : T → T → bool)
    on_heap new_addr (s : memory T) A B :
  allocator_ok on_heap new_addr →
  reachable T_default on_heap new_addr s → live s A → live s B →
  (∃ va vb, observes s A va ∧ observes s B vb ∧
     ∀ fuel, (length va `max` length vb < fuel)%nat →
       ∃ b, operator_lt ltb fuel A B s = Done b ∧
            (b = true ↔ lexicographically_less ltb va vb) ∧
            ((∀ y, ltb y y = false) → (∃ x rest, vb = va ++ x :: rest) → b = true) ∧
            ((∀ y, ltb y y = false) → va = vb →
             b = false ∧ operator_gt ltb fuel A B s = Done false)) ∧
  operator_lt Z.ltb 8 1 2 (two_lists [1; 2; 3] [1; 2; 4]) = Done true ∧
  operator_lt Z.ltb 8 1 2 (two_lists [1; 2] [1; 2; 3]) = Done true.
Proof.
  intros Hok Hr HA HB. split; [|by vm_compute].
  destruct (less_is_lexicographic T_default on_heap new_addr Hok ltb s A B Hr HA HB)
    as (va & vb & Oa & Ob & HAB).
  destruct (less_is_lexicographic T_default on_heap new_addr Hok ltb s B A Hr HB HA)
    as (vb' & va' & Ob' & Oa' & HBA).
  pose proof (observes_unique _ _ _ _ Oa Oa') as <-.
  pose proof (observes_unique _ _ _ _ Ob Ob') as <-.
  exists va, vb. split; [done|]. split; [done|]. intros fuel Hfuel.
  destruct (HAB fuel ltac:(lia)) as (b & Hb & Hiff).
  exists b. split; [done|]. split; [done|]. split.
  - intros Hirr (x & rest & ->). apply Hiff. by apply less_strict_prefix.
  - intros Hirr <-. split.
    + destruct b; [|done]. exfalso. eapply less_irreflexive; [done|]. by apply Hiff.
    + rewrite operator_gt_unfold. destruct (HBA fuel ltac:(lia)) as (b' & -> & Hiff').
      destruct b'; [|done]. exfalso. eapply less_irreflexive; [done|]. by apply Hiff'.
Qed.

(** C4 (initializer-list construction, n = 0): on the empty list whose
    [begin()] is the null pointer (a value-initialised
    [std::initializer_list<int>]) the constructor, run in the empty memory
    for the object at address 1, does not build an empty container: it
    reads through [values.end()-1] and has undefined behaviour, whatever
    the fuel. (On a list with a backing array inside the address space it
    keeps the order and the number of the values, see
    [initializer_list_keeps_order].) *)
Theorem initializer_list_constructor_on_the_null_list (fuel : nat) :
  construct_init 0 bump (S fuel) 1 (MkInit nullptr 4 []) empty_memory = Undefined.
Proof. apply construct_init_null_empty. unfold size_t_mod. lia. Qed.

(** ** The theorems at work on the concrete machine *)

Lemma size_counts_the_chain_witness :
  allocator_ok (T:=Z) in_heap bump ∧
  reachable 0 in_heap bump (two_lists [1; 2; 3] [1; 2; 4]) ∧
  live (two_lists [1; 2; 3] [1; 2; 4]) 2 ∧
  ∃ hd chain,
    node (two_lists [1; 2; 3] [1; 2; 4]) !! 2 = Some hd ∧
    lseg (node (two_lists [1; 2; 3] [1; 2; 4])) (next_node hd) nullptr chain ∧
    NoDup chain.*1 ∧
    size_ (two_lists [1; 2; 3] [1; 2; 4]) !! 2 = Some (Z.of_nat (length chain)) ∧
    GetSize 2 (two_lists [1; 2; 3] [1; 2; 4]) = Done (Z.of_nat (length chain)).
Proof.
  split; [apply bump_ok|].
  split; [apply reachable_two_lists; concrete|].
  split; [concrete|].
  apply (size_counts_the_chain 0 in_heap bump bump_ok).
  - apply reachable_two_lists; concrete.
  - concrete.
Defined.

Lemma before_begin_is_the_front_witness :
  allocator_ok (T:=Z) in_heap bump ∧
  reachable 0 in_heap bump (one_list [1; 2; 3]) ∧
  live (one_list [1; 2; 3]) 1 ∧
  IsEmpty 1 (one_list [1; 2; 3]) = Done false ∧
  (∀ v, match PushFront bump 1 v (one_list [1; 2; 3]) with
        | Done s1 =>
          ∃ it, InsertAfter bump 1 (iter_convert (before_begin 1)) v
                  (one_list [1; 2; 3]) = Done (it, s1) ∧
                begin 1 s1 = Done it ∧ iter_deref it s1 = Done v ∧
                node (one_list [1; 2; 3]) !! node_ it = None
        | Throws s1 =>
          InsertAfter bump 1 (iter_convert (before_begin 1)) v (one_list [1; 2; 3])
          = Throws s1
        | _ => False
        end) ∧
  (∃ s1 it, PopFront in_heap 1 (one_list [1; 2; 3]) = Done s1 ∧
            EraseAfter in_heap 1 (iter_convert (before_begin 1)) (one_list [1; 2; 3])
            = Done (it, s1) ∧
            begin 1 s1 = Done it).
Proof.
  split; [apply bump_ok|].
  split; [apply reachable_one_list; concrete|].
  split; [concrete|]. split; [concrete|].
  destruct (before_begin_is_the_front 0 in_heap bump bump_ok (one_list [1; 2; 3]) 1)
    as [Hinsert Herase].
  - apply reachable_one_list; concrete.
  - concrete.
  - split; [exact Hinsert|]. apply Herase. concrete.
Defined.

Lemma equality_is_positionwise_witness :
  allocator_ok (T:=Z) in_heap bump ∧
  reachable 0 in_heap bump (two_lists [1; 2; 3] [1; 2; 4]) ∧
  live (two_lists [1; 2; 3] [1; 2; 4]) 1 ∧
  live (two_lists [1; 2; 3] [1; 2; 4]) 2 ∧
  ∃ va vb,
    observes (two_lists [1; 2; 3] [1; 2; 4]) 1 va ∧
    observes (two_lists [1; 2; 3] [1; 2; 4]) 2 vb ∧
    ∀ fuel, (length va < fuel)%nat →
      ∃ b, operator_eq Z.eqb fuel 1 2 (two_lists [1; 2; 3] [1; 2; 4]) = Done b ∧
           operator_ne Z.eqb fuel 1 2 (two_lists [1; 2; 3] [1; 2; 4])
           = Done (negb b) ∧
           (b = true ↔ same_values Z.eqb va vb).
Proof.
  split; [apply bump_ok|].
  split; [apply reachable_two_lists; concrete|].
  split; [concrete|]. split; [concrete|].
  apply (equality_is_positionwise 0 in_heap bump bump_ok Z.eqb).
  - apply reachable_two_lists; concrete.
  - concrete.
  - concrete.
Defined.

Lemma less_than_is_lexicographic_witness :
  allocator_ok (T:=Z) in_heap bump ∧
  reachable 0 in_heap bump (two_lists [1; 2] [1; 2; 3]) ∧
  live (two_lists [1; 2] [1; 2; 3]) 1 ∧
  live (two_lists [1; 2] [1; 2; 3]) 2 ∧
  (∃ va vb,
     observes (two_lists [1; 2] [1; 2; 3]) 1 va ∧
     observes (two_lists [1; 2] [1; 2; 3]) 2 vb ∧
     ∀ fuel, (length va `max` length vb < fuel)%nat →
       ∃ b, operator_lt Z.ltb fuel 1 2 (two_lists [1; 2] [1; 2; 3]) = Done b ∧
            (b = true ↔ lexicographically_less Z.ltb va vb) ∧
            ((∀ y, Z.ltb y y = false) → (∃ x rest, vb = va ++ x :: rest) → b = true) ∧
            ((∀ y, Z.ltb y y = false) → va = vb →
             b = false ∧
             operator_gt Z.ltb fuel 1 2 (two_lists [1; 2] [1; 2; 3]) = Done false)) ∧
  operator_lt Z.ltb 8 1 2 (two_lists [1; 2; 3] [1; 2; 4]) = Done true ∧
  operator_lt Z.ltb 8 1 2 (two_lists [1; 2] [1; 2; 3]) = Done true.
Proof.
  split; [apply bump_ok|].
  split; [apply reachable_two_lists; concrete|].
  split; [concrete|]. split; [concrete|].
  apply (less_than_is_lexicographic 0 Z.ltb in_heap bump _ 1 2 bump_ok).
  - apply reachable_two_lists; concrete.
  - concrete.
  - concrete.
Defined.

Lemma empty_is_a_fixpoint_and_clear_empties_witness :
  allocator_ok (T:=Z) in_heap bump ∧
  reachable 0 in_heap bump (one_list []) ∧
  live (one_list []) 1 ∧
  IsEmpty 1 (one_list []) = Done true ∧
  (PopFront in_heap 1 (one_list []) = Done (one_list []) ∧
   (∀ fuel, (0 < fuel)%nat → Clear in_heap fuel 1 (one_list []) = Done (one_list [])) ∧
   GetSize 1 (one_list []) = Done 0) ∧
  (∃ vs, observes (one_list []) 1 vs ∧
     ∀ fuel, (length vs < fuel)%nat →
       ∃ s', Clear in_heap fuel 1 (one_list []) = Done s' ∧
             reachable 0 in_heap bump s' ∧
             observes s' 1 [] ∧ IsEmpty 1 s' = Done true ∧
             begin (V:=Mutable) 1 s' = Done end_).
Proof.
  split; [apply bump_ok|].
  split; [apply reachable_one_list; concrete|].
  split; [concrete|]. split; [concrete|].
  destruct (empty_is_a_fixpoint_and_clear_empties 0 in_heap bump bump_ok (one_list []) 1)
    as [Hempty Hclear].
  - apply reachable_one_list; concrete.
  - concrete.
  - split; [|exact Hclear]. apply Hempty. concrete.
Defined.

Lemma arrow_is_null_or_the_value_witness :
  node (one_list [7; 8; 9]) !! nullptr = None ∧
  (iter_arrow cend = null_pointer ∧
   iter_deref cend (one_list [7; 8; 9]) = Undefined) ∧
  (iter_arrow (V:=Mutable) (MkIter 4098) = value_of 4098 ∧
   read_pointer (iter_arrow (V:=Mutable) (MkIter 4098)) (one_list [7; 8; 9]) = Done 7 ∧
   iter_deref (V:=Mutable) (MkIter 4098) (one_list [7; 8; 9]) = Done 7).
Proof.
  assert (node (one_list [7; 8; 9]) !! nullptr = None) as H0 by concrete.
  split; [exact H0|]. split.
  - apply (proj1 (arrow_is_null_or_the_value cend (one_list [7; 8; 9]) H0)).
    reflexivity.
  - apply (proj2 (arrow_is_null_or_the_value (V:=Mutable) (MkIter 4098)
                    (one_list [7; 8; 9]) H0) (MkNode 7 4097)).
    concrete.
Defined.

Lemma erase_after_before_begin_of_empty_witness :
  allocator_ok (T:=Z) in_heap bump ∧
  reachable 0 in_heap bump (one_list []) ∧
  live (one_list []) 1 ∧
  IsEmpty 1 (one_list []) = Done true ∧
  EraseAfter in_heap 1 (cbefore_begin 1) (one_list []) = Done (end_, one_list []) ∧
  iter_eq (end_ (V:=Mutable)) cend = true ∧
  GetSize 1 (one_list []) = Done 0 ∧
  ∀ s', node s' !! 1 = node (one_list []) !! 1 →
        EraseAfter in_heap 1 (cbefore_begin 1) s' = Done (end_, s').
Proof.
  split; [apply bump_ok|].
  split; [apply reachable_one_list; concrete|].
  split; [concrete|]. split; [concrete|].
  apply (erase_after_before_begin_of_empty 0 in_heap bump bump_ok).
  - apply reachable_one_list; concrete.
  - concrete.
  - concrete.
Defined.

(** * Further properties of the member functions *)

Section Extras.

Set Default Proof Using "Type".

Context {T : Type} (T_default : T).
Context (on_heap : Z → bool) (new_addr : gmap Z (Node T) → option Z).
Hypothesis alloc_ok : allocator_ok on_heap new_addr.

Implicit Types (s : memory T) (R : gmap Z (list (Z * T))) (l : list (Z * T)).

Local Abbreviation reachable := (reachable T_default on_heap new_addr).

(** ** Observations and frames *)

Lemma observes_live s c vs : observes s c vs → live s c.
Proof.
  intros [Hsz _]. unfold GetSize, load_size in Hsz. unfold live.
  destruct (size_ s !! c); [by eexists|done].
Qed.

(** What a client observes of a container are the values of its chain. *)
Lemma observes_models s R c vs :
  models on_heap s R → observes s c vs → ∃ l, R !! c = Some l ∧ l.*2 = vs.
Proof.
  intros M Ho. destruct (live_models on_heap s R c M (observes_live _ _ _ Ho)) as [l Hl].
  exists l. split; [done|]. eapply observes_unique; [by eapply owns_observes|done].
Qed.

(** A container whose entry is the same in two memories is observed the
    same in both. *)
Lemma observes_frame s s' R R' c vs :
  models on_heap s R → models on_heap s' R' → R' !! c = R !! c →
  observes s c vs → observes s' c vs.
Proof.
  intros M M' Heq Ho. destruct (observes_models s R c vs M Ho) as (l & Hl & <-).
  eapply owns_observes; [done|]. by rewrite Heq.
Qed.

(** The invariant determines the abstract state. *)
Lemma models_unique s R R' : models on_heap s R → models on_heap s R' → R = R'.
Proof.
  intros M M'. apply map_eq. intros c.
  destruct (R !! c) as [l|] eqn:E, (R' !! c) as [l'|] eqn:E'; try done.
  - f_equal. eapply owns_unique; [done|by eapply (models_owns _ _ _ M)|].
    by eapply (models_owns _ _ _ M').
  - assert (is_Some (R' !! c)) as [? ?]; [|congruence].
    apply (models_dom _ _ _ M'), (models_dom _ _ _ M). by eexists.
  - assert (is_Some (R !! c)) as [? ?]; [|congruence].
    apply (models_dom _ _ _ M), (models_dom _ _ _ M'). by eexists.
Qed.

(** ** PushFront and PopFront *)

(** X1: [PushFront(v)] puts [v] in front of the values, in a memory that is
    reachable again, and changes no other container; when the allocation
    fails it throws and the memory is exactly as before. *)
Theorem PushFront_prepends s c vs v :
  reachable s → observes s c vs →
  match PushFront new_addr c v s with
  | Done s' =>
    reachable s' ∧ observes s' c (v :: vs) ∧
    ∀ c' vs', c' ≠ c → observes s c' vs' → observes s' c' vs'
  | Throws s' => s' = s
  | _ => False
  end.
Proof using alloc_ok.
  intros Hr Ho. destruct (reachable_models T_default on_heap new_addr alloc_ok s Hr) as [R M].
  destruct (observes_models s R c vs M Ho) as (l & Hl & <-).
  destruct (PushFront_spec on_heap new_addr alloc_ok s R c l v M Hl)
    as [(a & s' & Hrun & _ & M')|Hrun]; rewrite Hrun; [|done].
  split; [|split].
  - eapply (reachable_call _ _ _ s (CallPushFront c v) 0); [done| |done].
    by eapply observes_live.
  - apply (owns_observes on_heap s' _ c ((a, v) :: l) M'). apply lookup_insert_eq.
  - intros c' vs' Hne Ho'. eapply observes_frame; [exact M|exact M'| |done].
    by rewrite lookup_insert_ne.
Qed.

(** X2: [PopFront()] removes the first value (none from an empty
    container), in a memory that is reachable again, and changes no other
    container. *)
Theorem PopFront_drops_the_first s c vs :
  reachable s → observes s c vs →
  ∃ s', PopFront on_heap c s = Done s' ∧ reachable s' ∧
        observes s' c (tail vs) ∧
        ∀ c' vs', c' ≠ c → observes s c' vs' → observes s' c' vs'.
Proof using alloc_ok.
  intros Hr Ho. destruct (reachable_models T_default on_heap new_addr alloc_ok s Hr) as [R M].
  destruct (observes_models s R c vs M Ho) as (l & Hl & <-).
  destruct (PopFront_spec on_heap s R c l M Hl) as (s' & Hrun & M' & _).
  exists s'. split; [done|]. split; [|split].
  - eapply (reachable_call _ _ _ s (CallPopFront c) 0); [done| |done].
    by eapply observes_live.
  - replace (tail l.*2) with (tail l).*2 by (by destruct l).
    apply (owns_observes on_heap s' _ c (tail l) M'). apply lookup_insert_eq.
  - intros c' vs' Hne Ho'. eapply observes_frame; [exact M|exact M'| |done].
    by rewrite lookup_insert_ne.
Qed.

(** ** Construction, size and emptiness *)

(** X9: default construction in fresh storage gives an empty container:
    size 0, [IsEmpty()], nothing to iterate over; the memory is reachable
    again and no other container has changed. *)
Theorem default_construction_is_empty s c :
  reachable s → fresh_object on_heap s c →
  reachable (construct T_default c s) ∧
  observes (construct T_default c s) c [] ∧
  IsEmpty c (construct T_default c s) = Done true ∧
  ∀ c' vs', observes s c' vs' → observes (construct T_default c s) c' vs'.
Proof using alloc_ok.
  intros Hr Hfresh.
  destruct (reachable_models T_default on_heap new_addr alloc_ok s Hr) as [R M].
  destruct (construct_spec T_default on_heap s R c M Hfresh) as [Hc M'].
  split; [|split; [|split]].
  - by eapply (reachable_call _ _ _ s (DefaultConstruct c) 0).
  - apply (owns_observes on_heap _ _ c [] M'). apply lookup_insert_eq.
  - unfold IsEmpty, load_size, construct. simpl. by rewrite lookup_insert_eq.
  - intros c' vs' Ho'. eapply observes_frame; [exact M|exact M'| |done].
    rewrite lookup_insert_ne; [done|]. intros ->.
    destruct (observes_models s R c' vs' M Ho') as (l & Hl & _). congruence.
Qed.

(** X8: [IsEmpty()], [GetSize() == 0] and [begin() == end()] agree on every
    live container. *)
Theorem IsEmpty_iff_begin_is_end s c :
  reachable s → live s c →
  ∃ (b : bool) (it : Iterator) (n : Z),
    IsEmpty c s = Done b ∧ begin c s = Done it ∧ GetSize c s = Done n ∧
    b = iter_eq it (end_ (V:=Mutable)) ∧ b = bool_decide (n = 0).
Proof using alloc_ok.
  intros Hr Hlive.
  destruct (reachable_models T_default on_heap new_addr alloc_ok s Hr) as [R M].
  destruct (live_models on_heap s R c M Hlive) as [l Hl].
  destruct (models_owns _ _ _ M _ _ Hl) as (hd & Hhd & Hch & Hsz).
  unfold IsEmpty, begin, GetSize, load, load_size. rewrite Hhd, Hsz, !bind_Done.
  eexists _, _, _. split; [done|]. split; [done|]. split; [done|]. split; [|done].
  unfold iter_eq, end_. simpl. destruct l as [|[a v] l]; simpl in Hch.
  - rewrite Hch. by rewrite !bool_decide_eq_true_2.
  - destruct Hch as (-> & nx & Hna & _).
    rewrite bool_decide_eq_false_2 by (simpl; lia).
    rewrite bool_decide_eq_false_2; [done|]. intros <-.
    rewrite (models_null on_heap s R M) in Hna. done.
Qed.

(** ** Iterators over a chain *)

Lemma lseg_start (m : gmap Z (Node T)) p q r l :
  lseg m p r l → lseg m q r l → p = q.
Proof. destruct l as [|[a v] l]; simpl; [congruence|]. intros [-> _] [-> _]. done. Qed.

(** [length l] increments walk over the segment [l]. *)
Lemma advance_lseg {V} s p q l :
  lseg (node s) p q l → advance (V:=V) (length l) (MkIter p) s = Done (MkIter q).
Proof.
  revert p. induction l as [|[a v] l IH]; intros p; simpl.
  - by intros ->.
  - intros (-> & nx & Hna & Hl). unfold iter_incr, load. simpl.
    rewrite Hna, !bind_Done. simpl. by apply IH.
Qed.

(** The [i]-th element of a chain, split off. *)
Lemma chain_nth s p l (i : nat) a v :
  lseg (node s) p nullptr l → l !! i = Some (a, v) →
  l = take i l ++ (a, v) :: drop (S i) l ∧
  lseg (node s) p a (take i l) ∧
  ∃ nx, node s !! a = Some (MkNode v nx) ∧ lseg (node s) nx nullptr (drop (S i) l).
Proof.
  intros Hl Hi. pose proof (take_drop_middle _ _ _ Hi) as Hsplit.
  split; [done|]. rewrite <- Hsplit in Hl.
  apply lseg_split in Hl as (q & H1 & H2). simpl in H2. destruct H2 as (-> & nx & Hna & H2).
  split; [done|]. by exists nx.
Qed.

Lemma advance_nth {V} s p l (i : nat) a v :
  lseg (node s) p nullptr l → l !! i = Some (a, v) →
  advance (V:=V) i (MkIter p) s = Done (MkIter a).
Proof.
  intros Hl Hi. destruct (chain_nth s p l i a v Hl Hi) as (_ & Hseg & _).
  apply (advance_lseg (V:=V)) in Hseg. rewrite length_take in Hseg.
  apply lookup_lt_Some in Hi. by replace (i `min` length l)%nat with i in Hseg by lia.
Qed.

(** X7: iteration is a walk over the values. For an iterator of either
    flavour, [i] increments of [begin()] reach an iterator that is not
    [end()] and dereferences to the [i]-th value; [size()] increments reach
    [end()]; incrementing or dereferencing [end()] is undefined; and the
    postfix increment answers the old position and moves like the prefix
    one. *)
Theorem iteration_walks_the_values {V} s c vs :
  reachable s → observes s c vs →
  ∃ b : BasicIterator V,
    begin c s = Done b ∧
    (∀ (i : nat) v, vs !! i = Some v →
       ∃ it, advance i b s = Done it ∧ iter_ne it (end_ (V:=V)) = true ∧
             iter_deref it s = Done v) ∧
    advance (length vs) b s = Done end_ ∧
    iter_incr (end_ (V:=V)) s = Undefined ∧
    iter_deref (end_ (V:=V)) s = Undefined ∧
    ∀ it it' : BasicIterator V,
      iter_incr it s = Done it' → iter_post_incr it s = Done (it, it').
Proof using alloc_ok.
  intros Hr Ho. destruct (reachable_models T_default on_heap new_addr alloc_ok s Hr) as [R M].
  destruct (observes_models s R c vs M Ho) as (l & Hl & <-).
  destruct (models_owns _ _ _ M _ _ Hl) as (hd & Hhd & Hch & _).
  pose proof (models_null on_heap s R M) as H0.
  exists (MkIter (next_node hd)). unfold begin, load. rewrite Hhd, bind_Done.
  split; [done|]. split; [|split; [|split; [|split]]].
  - intros i v Hi. rewrite list_lookup_fmap in Hi.
    destruct (l !! i) as [[a w]|] eqn:Ei; [|done]. simpl in Hi. injection Hi as ->.
    exists (MkIter a). split; [by eapply advance_nth|].
    destruct (chain_nth s _ l i a v Hch Ei) as (_ & _ & nx & Hna & _). split.
    + unfold iter_ne, end_. simpl. apply bool_decide_eq_true_2. intros <-. congruence.
    + unfold iter_deref, load. simpl. by rewrite Hna.
  - rewrite length_fmap. by apply advance_lseg.
  - unfold iter_incr, load, end_. simpl. by rewrite H0.
  - unfold iter_deref, load, end_. simpl. by rewrite H0.
  - intros [p] [p']. unfold iter_incr, iter_post_incr, load. simpl.
    destruct (node s !! p); simpl; [|done]. by intros [= <-].
Qed.

(** ** InsertAfter and EraseAfter behind an element *)

(** X3: [InsertAfter(pos, v)], with [pos] the iterator [i] steps after
    [begin()], puts [v] behind the [i]-th value and returns the iterator
    one step after [pos], which dereferences to [v]; the memory is
    reachable again and no other container has changed. When the
    allocation fails it throws and the memory is exactly as before. *)
Theorem InsertAfter_inserts_behind s c vs (i : nat) v (pos : ConstIterator) :
  reachable s → observes s c vs → (i < length vs)%nat →
  (b ← cbegin c s; advance i b s) = Done pos →
  match InsertAfter new_addr c pos v s with
  | Done (it, s') =>
    reachable s' ∧
    observes s' c (take (S i) vs ++ v :: drop (S i) vs) ∧
    iter_deref it s' = Done v ∧
    (b ← begin c s'; advance (S i) b s') = Done it ∧
    ∀ c' vs', c' ≠ c → observes s c' vs' → observes s' c' vs'
  | Throws s' => s' = s
  | _ => False
  end.
Proof using alloc_ok.
  intros Hr Ho Hi Hpos.
  destruct (reachable_models T_default on_heap new_addr alloc_ok s Hr) as [R M].
  destruct (observes_models s R c vs M Ho) as (l & Hl & <-).
  rewrite length_fmap in Hi.
  destruct (models_owns _ _ _ M _ _ Hl) as (hd & Hhd & Hch & Hsz).
  destruct (lookup_lt_is_Some_2 l i Hi) as [[p w] Ei].
  unfold cbegin, load in Hpos. rewrite Hhd, !bind_Done in Hpos.
  rewrite (advance_nth s _ l i p w Hch Ei) in Hpos. injection Hpos as <-.
  destruct (chain_nth s _ l i p w Hch Ei) as (Hsplit & _ & _).
  pose proof Hl as Hl'. rewrite Hsplit in Hl'.
  destruct (InsertAfter_spec on_heap new_addr alloc_ok s R c _ p w _ v M Hl')
    as [(a & s' & Hrun & Hfr & M')|Hrun]; rewrite Hrun; [|done].
  set (l' := take i l ++ (p, w) :: (a, v) :: drop (S i) l) in *.
  assert (l' !! S i = Some (a, v)) as Ea.
  { unfold l'. rewrite (lookup_app_r (take i l)) by (rewrite length_take; lia).
    rewrite length_take. by replace (S i - i `min` length l)%nat with 1%nat by lia. }
  destruct (models_owns _ _ _ M' c l' (lookup_insert_eq _ _ _)) as (hd' & Hhd' & Hch' & _).
  split; [|split; [|split; [|split]]].
  - eapply (reachable_call _ _ _ s (CallInsertAfter c (MkIter p) v) 0); [done| |].
    + exists l. split; [by eapply (models_owns _ _ _ M)|]. right. simpl.
      apply list_elem_of_lookup. exists i. by rewrite list_lookup_fmap, Ei.
    + simpl. by rewrite Hrun.
  - replace (take (S i) l.*2 ++ v :: drop (S i) l.*2) with l'.*2.
    { apply (owns_observes on_heap s' _ c l' M'). apply lookup_insert_eq. }
    unfold l'. rewrite fmap_app, <- fmap_take, <- fmap_drop. simpl.
    rewrite (take_S_r l i (p, w) Ei), fmap_app, <- app_assoc. done.
  - destruct (chain_nth s' _ l' (S i) a v Hch' Ea) as (_ & _ & nx & Hna & _).
    unfold iter_deref, load. simpl. by rewrite Hna.
  - unfold begin, load. rewrite Hhd', bind_Done. by eapply advance_nth.
  - intros c' vs' Hne Ho'. eapply observes_frame; [exact M|exact M'| |done].
    by rewrite lookup_insert_ne.
Qed.

(** X4: [EraseAfter(pos)], with [pos] the iterator [i] steps after
    [begin()] and not at the last element, removes the value behind the
    [i]-th one and returns the iterator one step after [pos] in the new
    chain (which is [end()] when the removed value was the last); the
    memory is reachable again and no other container has changed. *)
Theorem EraseAfter_erases_behind s c vs (i : nat) (pos : ConstIterator) :
  reachable s → observes s c vs → (S i < length vs)%nat →
  (b ← cbegin c s; advance i b s) = Done pos →
  ∃ it s', EraseAfter on_heap c pos s = Done (it, s') ∧
    reachable s' ∧
    observes s' c (take (S i) vs ++ drop (S (S i)) vs) ∧
    (b ← begin c s'; advance (S i) b s') = Done it ∧
    ∀ c' vs', c' ≠ c → observes s c' vs' → observes s' c' vs'.
Proof using alloc_ok.
  intros Hr Ho Hi Hpos.
  destruct (reachable_models T_default on_heap new_addr alloc_ok s Hr) as [R M].
  destruct (observes_models s R c vs M Ho) as (l & Hl & <-).
  rewrite length_fmap in Hi.
  destruct (models_owns _ _ _ M _ _ Hl) as (hd & Hhd & Hch & Hsz).
  destruct (lookup_lt_is_Some_2 l i ltac:(lia)) as [[p w] Ei].
  destruct (lookup_lt_is_Some_2 l (S i) Hi) as [[b x] Eb].
  unfold cbegin, load in Hpos. rewrite Hhd, !bind_Done in Hpos.
  rewrite (advance_nth s _ l i p w Hch Ei) in Hpos. injection Hpos as <-.
  pose proof (take_drop_middle _ _ _ Ei) as Hsplit.
  rewrite (drop_S _ _ _ Eb) in Hsplit.
  pose proof Hl as Hl'. rewrite <- Hsplit in Hl'.
  destruct (EraseAfter_spec on_heap s R c _ p w b x _ M Hl') as (it & s' & Hrun & Hit & M').
  set (l' := take i l ++ (p, w) :: drop (S (S i)) l) in *.
  destruct (models_owns _ _ _ M' c l' (lookup_insert_eq _ _ _)) as (hd' & Hhd' & Hch' & _).
  exists it, s'. split; [done|]. split; [|split; [|split]].
  - eapply (reachable_call _ _ _ s (CallEraseAfter c (MkIter p)) 0); [done| |].
    + exists l. split; [by eapply (models_owns _ _ _ M)|]. right. simpl.
      exists i. by rewrite list_lookup_fmap, Ei.
    + simpl. by rewrite Hrun.
  - replace (take (S i) l.*2 ++ drop (S (S i)) l.*2) with l'.*2.
    { apply (owns_observes on_heap s' _ c l' M'). apply lookup_insert_eq. }
    unfold l'. rewrite fmap_app, <- fmap_take, <- fmap_drop. simpl.
    rewrite (take_S_r l i (p, w) Ei), fmap_app, <- app_assoc. done.
  - unfold begin, load. rewrite Hhd', bind_Done.
    replace l' with ((take i l ++ [(p, w)]) ++ drop (S (S i)) l) in Hch'
      by (by rewrite <- app_assoc).
    apply lseg_split in Hch' as (q & H1 & H2).
    destruct it as [pit]. simpl in Hit.
    pose proof (lseg_start _ _ _ _ _ Hit H2) as ->.
    apply (advance_lseg (V:=Mutable)) in H1. rewrite length_app, length_take in H1.
    simpl in H1. by replace (i `min` length l + 1)%nat with (S i) in H1 by lia.
  - intros c' vs' Hne Ho'. eapply observes_frame; [exact M|exact M'| |done].
    by rewrite lookup_insert_ne.
Qed.

(** ** swap and copy assignment *)

(** The memory that the member [swap] returns. *)
Lemma swap_run s c1 c2 h1 h2 n1 n2 :
  node s !! c1 = Some h1 → node s !! c2 = Some h2 →
  size_ s !! c1 = Some n1 → size_ s !! c2 = Some n2 →
  swap c1 c2 s =
  Done (MkMem (<[c2 := MkNode (value h2) (next_node h1)]>
                 (<[c1 := MkNode (value h1) (next_node h2)]> (node s)))
              (<[c2 := n1]> (<[c1 := n2]> (size_ s)))).
Proof.
  intros H1 H2 S1 S2. unfold swap, load, load_size.
  rewrite H1, bind_Done, S1, bind_Done, H2, bind_Done.
  unfold store_next at 2. rewrite H1, bind_Done. simpl. rewrite S2, bind_Done.
  unfold store_size; simpl. rewrite S1, bind_Done. simpl.
  unfold store_next; simpl. destruct (decide (c1 = c2)) as [<-|Hne].
  - assert (h2 = h1) as -> by congruence.
    rewrite lookup_insert_eq. simpl. by rewrite lookup_insert_eq.
  - rewrite lookup_insert_ne by done. rewrite S2. simpl.
    rewrite lookup_insert_ne by done. by rewrite H2.
Qed.

(** X5: the member [swap] (which the free function [swap] calls)
    exchanges the values and the sizes of two containers, never throws and
    changes no other container; it touches the two sentinels only, so the
    nodes in memory are the same; and a second [swap] gives back the memory
    exactly as it was. *)
Theorem swap_exchanges s a b va vb :
  reachable s → observes s a va → observes s b vb →
  ∃ s', swap a b s = Done s' ∧ reachable s' ∧
        observes s' a vb ∧ observes s' b va ∧
        (∀ c' vs', c' ≠ a → c' ≠ b → observes s c' vs' → observes s' c' vs') ∧
        (∀ x, x ≠ a → x ≠ b → node s' !! x = node s !! x) ∧
        swap a b s' = Done s.
Proof using alloc_ok.
  intros Hr Ha Hb.
  destruct (reachable_models T_default on_heap new_addr alloc_ok s Hr) as [R M].
  destruct (observes_models s R a va M Ha) as (la & Hla & <-).
  destruct (observes_models s R b vb M Hb) as (lb & Hlb & <-).
  destruct (swap_spec on_heap s R a b la lb M Hla Hlb) as (s' & Hrun & M').
  destruct (models_owns _ _ _ M _ _ Hla) as (ha & Hha & _ & Hsa).
  destruct (models_owns _ _ _ M _ _ Hlb) as (hb & Hhb & _ & Hsb).
  pose proof (swap_run s a b ha hb _ _ Hha Hhb Hsa Hsb) as Hrun'.
  rewrite Hrun in Hrun'. injection Hrun' as Hs'.
  exists s'. split; [done|]. split; [|split; [|split; [|split; [|split]]]].
  - eapply (reachable_call _ _ _ s (CallSwap a b) 0); [done| |done].
    split; by eapply observes_live.
  - apply (owns_observes on_heap s' _ a lb M').
    destruct (decide (a = b)) as [<-|Hne]; [rewrite lookup_insert_eq; congruence|].
    rewrite lookup_insert_ne by done. apply lookup_insert_eq.
  - apply (owns_observes on_heap s' _ b la M'). apply lookup_insert_eq.
  - intros c' vs' Hna Hnb Ho'. eapply observes_frame; [exact M|exact M'| |done].
    by rewrite !lookup_insert_ne.
  - intros x Hxa Hxb. rewrite Hs'. simpl. by rewrite !lookup_insert_ne.
  - rewrite Hs'. destruct (decide (a = b)) as [<-|Hne].
    + assert (hb = ha) as -> by congruence. assert (lb = la) as -> by congruence.
      erewrite swap_run; simpl; rewrite ?lookup_insert_eq; try done.
      f_equal. destruct s as [m sz]. simpl in *. f_equal.
      * rewrite !insert_insert_eq. apply insert_id. rewrite Hha. by destruct ha.
      * rewrite !insert_insert_eq. by apply insert_id.
    + erewrite swap_run; simpl;
        rewrite ?lookup_insert_eq, ?(lookup_insert_ne _ b a), ?lookup_insert_eq;
        try done.
      f_equal. destruct s as [m sz]. simpl in *. f_equal.
      * apply map_eq. intros x. rewrite !lookup_insert.
        repeat case_decide; simplify_eq; simpl; try done.
        -- rewrite Hhb. by destruct hb.
        -- rewrite Hha. by destruct ha.
      * apply map_eq. intros x. rewrite !lookup_insert.
        repeat case_decide; simplify_eq; done.
Qed.


(** ** Garbage *)

Lemma accounted_models s R x :
  models on_heap s R →
  accounted on_heap s x ↔ (is_Some (R !! x) ∨ ∃ c l, R !! c = Some l ∧ x ∈ l.*1).
Proof.
  intros M. split.
  - intros (R' & M' & H). by rewrite (models_unique s R R' M M').
  - intros H. by exists R.
Qed.

Lemma no_new_garbage_refl s : no_new_garbage on_heap s s.
Proof. by intros x. Qed.

Lemma no_new_garbage_trans s1 s2 s3 :
  no_new_garbage on_heap s1 s2 → no_new_garbage on_heap s2 s3 →
  no_new_garbage on_heap s1 s3.
Proof. intros H12 H23 x Hx. by apply H12, H23. Qed.

(** A member function of [c] leaks nothing when every node it allocates
    ends up in the chain and every node it drops from the chain is
    deleted. *)
Lemma no_new_garbage_update s s' R c l l' :
  models on_heap s R → R !! c = Some l → models on_heap s' (<[c := l']> R) →
  (∀ x, is_Some (node s' !! x) → is_Some (node s !! x) ∨ x ∈ l'.*1) →
  (∀ x, x ∈ l.*1 → is_Some (node s' !! x) → x ∈ l'.*1) →
  no_new_garbage on_heap s s'.
Proof.
  intros M Hc M' Hnew Hold x [Hx Hna].
  assert (x ∉ l'.*1) as Hxl'.
  { intros Hin. apply Hna. apply (accounted_models s' _ x M'). right.
    exists c, l'. by rewrite lookup_insert_eq. }
  destruct (Hnew x Hx) as [Hxs|Hin]; [|done]. split; [done|].
  intros [Hcont|(c2 & l2 & H2 & Hin)]%(accounted_models s R x M); apply Hna;
    apply (accounted_models s' _ x M').
  - left. rewrite lookup_insert. by case_decide.
  - right. destruct (decide (c2 = c)) as [->|Hne].
    + assert (l2 = l) as -> by congruence. exfalso. by apply Hxl', Hold.
    + exists c2, l2. by rewrite lookup_insert_ne.
Qed.

(** The nodes after the member functions that allocate or delete. *)
Lemma PushFront_nodes s c v s' :
  PushFront new_addr c v s = Done s' →
  ∃ a hd, node s !! c = Some hd ∧ node s !! a = None ∧
    node s' = <[c := MkNode (value hd) a]> (<[a := MkNode v (next_node hd)]> (node s)).
Proof using alloc_ok.
  unfold PushFront, load, new_Node. destruct (node s !! c) as [hd|] eqn:Hhd; [|done].
  cbn [mbind outcome_bind]. destruct (new_addr (node s)) as [a|] eqn:Ha; [|done].
  destruct (alloc_ok _ _ Ha) as (Hfresh & _). cbn [mbind outcome_bind].
  unfold store_next. cbn [node size_]. rewrite lookup_insert_ne by congruence.
  rewrite Hhd. cbn [mbind outcome_bind].
  unfold incr_size, load_size, store_size. cbn [node size_].
  destruct (size_ s !! c); [|done]. cbn [mbind outcome_bind]. intros [= <-].
  by exists a, hd.
Qed.

Lemma PopFront_nodes s c s' :
  PopFront on_heap c s = Done s' →
  ∃ hd, node s !! c = Some hd ∧
    ((next_node hd = nullptr ∧ s' = s) ∨
     (∃ n, next_node hd ≠ nullptr ∧ node s !! next_node hd = Some n ∧
           node s' = delete (next_node hd)
                       (<[c := MkNode (value hd) (next_node n)]> (node s)))).
Proof.
  unfold PopFront, load. destruct (node s !! c) as [hd|] eqn:Hhd; [|done].
  cbn [mbind outcome_bind]. case_decide as Hnx.
  - destruct (node s !! next_node hd) as [n|] eqn:Hn; [|done].
    cbn [mbind outcome_bind]. unfold store_next. rewrite Hhd. cbn [mbind outcome_bind].
    unfold delete_Node. cbn [node size_].
    destruct (<[c:=_]> (node s) !! next_node hd); [|done].
    destruct (on_heap (next_node hd)); [|by cbn [mbind outcome_bind]]. cbn [mbind outcome_bind].
    unfold decr_size, load_size, store_size. cbn [node size_].
    destruct (size_ s !! c); [|done]. cbn [mbind outcome_bind]. intros [= <-].
    exists hd. split; [done|]. right. by exists n.
  - intros [= <-]. exists hd. split; [done|]. left. split; [|done].
    by destruct (decide (next_node hd = nullptr)).
Qed.

Lemma InsertAfter_nodes s c p v it s' :
  p ≠ c → InsertAfter new_addr c (MkIter p) v s = Done (it, s') →
  ∃ a n, node s !! p = Some n ∧ node s !! a = None ∧ it = MkIter a ∧
    node s' = <[p := MkNode (value n) a]> (<[a := MkNode v (next_node n)]> (node s)).
Proof using alloc_ok.
  intros Hpc. unfold InsertAfter, iter_eq, before_begin. cbn [node_].
  rewrite bool_decide_eq_false_2 by congruence. unfold load, new_Node.
  destruct (node s !! p) as [n|] eqn:Hn; [|done]. cbn [mbind outcome_bind].
  destruct (new_addr (node s)) as [a|] eqn:Ha; [|done].
  destruct (alloc_ok _ _ Ha) as (Hfresh & _). cbn [mbind outcome_bind].
  unfold store_next. cbn [node size_]. rewrite lookup_insert_ne by congruence.
  rewrite Hn. cbn [mbind outcome_bind].
  unfold incr_size, load_size, store_size. cbn [node size_].
  destruct (size_ s !! c); [|done]. cbn [mbind outcome_bind]. intros [= <- <-].
  by exists a, n.
Qed.

Lemma EraseAfter_nodes s c p it s' :
  p ≠ c → EraseAfter on_heap c (MkIter p) s = Done (it, s') →
  ∃ n victim, node s !! p = Some n ∧ node s !! next_node n = Some victim ∧
    node s' = <[p := MkNode (value n) (next_node victim)]>
                (delete (next_node n) (node s)).
Proof.
  intros Hpc. unfold EraseAfter, iter_eq, before_begin. cbn [node_].
  rewrite bool_decide_eq_false_2 by congruence. unfold load.
  destruct (node s !! p) as [n|] eqn:Hn; [|done]. cbn [mbind outcome_bind].
  destruct (node s !! next_node n) as [victim|] eqn:Hv; [|done].
  cbn [mbind outcome_bind].
  unfold delete_Node. rewrite Hv. destruct (on_heap (next_node n)); [|by cbn [mbind outcome_bind]].
  cbn [mbind outcome_bind]. unfold store_next. cbn [node size_].
  destruct (delete (next_node n) (node s) !! p) as [n'|] eqn:Hn'; [|done].
  assert (n' = n) as -> by (rewrite lookup_delete in Hn'; case_decide; congruence).
  cbn [mbind outcome_bind]. unfold decr_size, load_size, store_size. cbn [node size_].
  destruct (size_ s !! c); [|done]. cbn [mbind outcome_bind node size_].
  rewrite lookup_insert_eq. cbn [mbind outcome_bind node size_ next_node].
  intros [= <- <-]. by exists n, victim.
Qed.

Ltac chain_solve :=
  repeat match goal with
  | H : context [_ ∈ _] |- _ =>
    progress (rewrite ?fmap_app, ?fmap_cons, ?elem_of_app, ?elem_of_cons in H;
              simpl in H)
  end;
  rewrite ?fmap_app, ?fmap_cons, ?elem_of_app, ?elem_of_cons; simpl;
  intuition congruence.

(** The member functions that allocate or delete one node keep the
    invariant and leak nothing. *)
Lemma PushFront_leak s R c l v s' :
  models on_heap s R → R !! c = Some l → PushFront new_addr c v s = Done s' →
  ∃ a, models on_heap s' (<[c := (a, v) :: l]> R) ∧ no_new_garbage on_heap s s'.
Proof using alloc_ok.
  intros M Hc E.
  destruct (PushFront_spec on_heap new_addr alloc_ok s R c l v M Hc)
    as [(a & s1 & E1 & Ha & M')|E1]; rewrite E in E1; [|done].
  injection E1 as <-. exists a. split; [done|].
  destruct (PushFront_nodes s c v s' E) as (a' & hd & Hhd & Ha' & Hn).
  assert (a' = a) as ->.
  { destruct (models_owns _ _ _ M' c _ (lookup_insert_eq _ _ _)) as (hd' & Hhd' & Hseg & _).
    rewrite Hn, lookup_insert_eq in Hhd'. injection Hhd' as <-.
    simpl in Hseg. by destruct Hseg as [-> _]. }
  eapply no_new_garbage_update; [exact M|exact Hc|exact M'|..].
  - intros x. rewrite Hn, !lookup_insert.
    repeat case_decide; subst; intros Hx; simpl.
    + left. by rewrite Hhd.
    + right. by left.
    + by left.
  - intros x Hx _. simpl. by right.
Qed.

Lemma PopFront_leak s R c l s' :
  models on_heap s R → R !! c = Some l → PopFront on_heap c s = Done s' →
  models on_heap s' (<[c := tail l]> R) ∧ no_new_garbage on_heap s s'.
Proof.
  intros M Hc E.
  destruct (PopFront_spec on_heap s R c l M Hc) as (s1 & E1 & M' & _).
  rewrite E in E1. injection E1 as <-. split; [done|].
  destruct (PopFront_nodes s c s' E) as (hd & Hhd & [[_ ->]|(n & Hnz & Hn & Hnodes)]).
  { apply no_new_garbage_refl. }
  destruct (models_owns _ _ _ M c l Hc) as (hd' & Hhd' & Hseg & _).
  assert (hd' = hd) as -> by congruence.
  destruct l as [|[a v] l]; simpl in Hseg; [done|]. destruct Hseg as (Ha & _).
  eapply no_new_garbage_update; [exact M|exact Hc|exact M'|..].
  - intros x. rewrite Hnodes, lookup_delete, lookup_insert.
    repeat case_decide; subst; intros Hx.
    + by destruct Hx.
    + left. by rewrite Hhd.
    + by left.
  - intros x Hx. rewrite Hnodes, lookup_delete. case_decide; [by intros []|].
    intros _. simpl in Hx |- *. apply elem_of_cons in Hx as [->|Hx]; [|done].
    congruence.
Qed.

Lemma InsertAfter_leak s R c l pos v it s' :
  models on_heap s R → R !! c = Some l → node_ pos = c ∨ node_ pos ∈ l.*1 →
  InsertAfter new_addr c pos v s = Done (it, s') →
  ∃ l', models on_heap s' (<[c := l']> R) ∧ no_new_garbage on_heap s s'.
Proof using alloc_ok.
  intros M Hc Hpos E. destruct pos as [p]. simpl in Hpos. destruct Hpos as [->|Hin].
  - change (MkIter c) with (cbefore_begin c) in E.
    rewrite InsertAfter_before_begin in E.
    destruct (PushFront new_addr c v s) as [s1| | |] eqn:E1; try done.
    cbn [mbind outcome_bind] in E.
    destruct (begin c s1) as [it1| | |]; try done.
    cbn [mbind outcome_bind] in E. injection E as <- <-.
    destruct (PushFront_leak s R c l v s1 M Hc E1) as (a & M' & Hg). eauto.
  - destruct (models_chain_addr on_heap s R c l p M Hc Hin) as (Hpc & _).
    apply list_elem_of_fmap in Hin as ([p' w] & Heq & Hin). simpl in Heq. subst p'.
    apply list_elem_of_split in Hin as (l1 & l2 & ->).
    destruct (InsertAfter_spec on_heap new_addr alloc_ok s R c l1 p w l2 v M Hc)
      as [(a & s1 & E1 & _ & M')|E1]; rewrite E in E1; [|done].
    injection E1 as -> <-. eexists. split; [exact M'|].
    destruct (InsertAfter_nodes s c p v _ s' Hpc E) as (a' & n & Hn & Ha' & Hit & Hnodes).
    injection Hit as <-.
    eapply no_new_garbage_update; [exact M|exact Hc|exact M'|..].
    + intros x. rewrite Hnodes, !lookup_insert.
      repeat case_decide; subst; intros Hx.
      * left. by rewrite Hn.
      * right. chain_solve.
      * by left.
    + intros x Hx _. chain_solve.
Qed.

Lemma EraseAfter_leak s R c l pos it s' :
  models on_heap s R → R !! c = Some l →
  (node_ pos = c ∨ ∃ i : nat, l.*1 !! i = Some (node_ pos) ∧ (S i < length l)%nat) →
  EraseAfter on_heap c pos s = Done (it, s') →
  ∃ l', models on_heap s' (<[c := l']> R) ∧ no_new_garbage on_heap s s'.
Proof.
  intros M Hc Hpos E. destruct pos as [p]. simpl in Hpos.
  destruct Hpos as [->|(i & Hi & Hlen)].
  - change (MkIter c) with (cbefore_begin c) in E.
    rewrite EraseAfter_before_begin in E.
    destruct (PopFront on_heap c s) as [s1| | |] eqn:E1; try done.
    cbn [mbind outcome_bind] in E.
    destruct (begin c s1) as [it1| | |]; try done.
    cbn [mbind outcome_bind] in E. injection E as <- <-.
    destruct (PopFront_leak s R c l s1 M Hc E1) as (M' & Hg). eauto.
  - rewrite list_lookup_fmap in Hi.
    destruct (l !! i) as [[p' w]|] eqn:Ei; [|done]. simpl in Hi. injection Hi as ->.
    destruct (lookup_lt_is_Some_2 l (S i)) as [[b x] Eb]; [lia|].
    pose proof (take_drop_middle _ _ _ Ei) as Hsplit.
    rewrite (drop_S _ _ _ Eb) in Hsplit.
    set (l1 := take i l) in *. set (l2 := drop (S (S i)) l) in *. clearbody l1 l2.
    subst l.
    destruct (EraseAfter_spec on_heap s R c l1 p w b x l2 M Hc) as (it1 & s1 & E1 & _ & M').
    rewrite E in E1. injection E1 as <- <-. eexists. split; [exact M'|].
    assert (p ≠ c) as Hpc.
    { apply (models_chain_addr on_heap s R c _ p M Hc). chain_solve. }
    destruct (EraseAfter_nodes s c p it s' Hpc E) as (n & victim & Hn & Hv & Hnodes).
    destruct (models_owns _ _ _ M c _ Hc) as (hd & Hhd & Hseg & _).
    apply lseg_split in Hseg as (q & _ & Hseg). simpl in Hseg.
    destruct Hseg as (-> & nx & Hq & -> & _).
    assert (n = MkNode w b) as -> by congruence. simpl in *.
    pose proof (models_NoDup on_heap s R c _ M Hc) as Hnd.
    rewrite fmap_app, !fmap_cons in Hnd. simpl in Hnd.
    apply NoDup_app in Hnd as (_ & Hd1 & Hnd).
    apply NoDup_cons in Hnd as (Hpb & Hnd). apply NoDup_cons in Hnd as (Hb2 & _).
    eapply no_new_garbage_update; [exact M|exact Hc|exact M'|..].
    + intros y. rewrite Hnodes, lookup_insert, lookup_delete.
      repeat case_decide; subst; intros Hy.
      * left. by rewrite Hn.
      * by destruct Hy.
      * by left.
    + intros y Hy. rewrite Hnodes, lookup_insert, lookup_delete.
      repeat case_decide; subst; intros Hy'.
      * chain_solve.
      * by destruct Hy'.
      * chain_solve.
Qed.

Lemma no_new_garbage_intro s s' :
  (∀ x, is_Some (node s' !! x) → is_Some (node s !! x) ∨ accounted on_heap s' x) →
  (∀ x, accounted on_heap s x → is_Some (node s' !! x) → accounted on_heap s' x) →
  no_new_garbage on_heap s s'.
Proof.
  intros Hnew Hold x [Hx Hna]. split.
  - by destruct (Hnew x Hx).
  - intros Ha. by apply Hna, Hold.
Qed.

(** Constructing an empty container, giving back the storage of an empty
    one and exchanging two containers leak nothing. *)
Lemma construct_leak s R c :
  models on_heap s R → fresh_object on_heap s c →
  no_new_garbage on_heap s (construct T_default c s).
Proof.
  intros M Hf. destruct (construct_spec T_default on_heap s R c M Hf) as [Hc M'].
  apply no_new_garbage_intro.
  - intros x. simpl. rewrite lookup_insert. case_decide; [subst|by left].
    intros _. right. apply (accounted_models _ _ _ M'). left.
    by rewrite lookup_insert_eq.
  - intros x Ha _. apply (accounted_models _ _ _ M').
    apply (accounted_models _ _ _ M) in Ha as [Hx|(c' & l & Hl & Hin)].
    + left. rewrite lookup_insert. by case_decide.
    + right. exists c', l. split; [|done]. rewrite lookup_insert_ne; [done|congruence].
Qed.

Lemma release_leak s R c :
  models on_heap s R → R !! c = Some [] →
  no_new_garbage on_heap s (release c s).
Proof.
  intros M Hc. pose proof (release_spec on_heap s R c M (mk_is_Some _ _ Hc)) as M'.
  apply no_new_garbage_intro.
  - intros x. simpl. rewrite lookup_delete. case_decide; [by intros []|by left].
  - intros x Ha. simpl. rewrite lookup_delete. case_decide; [by intros []|]. intros _.
    apply (accounted_models _ _ _ M').
    apply (accounted_models _ _ _ M) in Ha as [Hx|(c' & l & Hl & Hin)].
    + left. by rewrite lookup_delete_ne.
    + right. exists c', l. split; [|done]. rewrite lookup_delete_ne; [done|].
      intros ->. rewrite Hc in Hl. injection Hl as <-. by apply elem_of_nil in Hin.
Qed.

Lemma swap_leak s R c1 c2 l1 l2 s' :
  models on_heap s R → R !! c1 = Some l1 → R !! c2 = Some l2 →
  swap c1 c2 s = Done s' →
  models on_heap s' (<[c2 := l1]> (<[c1 := l2]> R)) ∧ no_new_garbage on_heap s s'.
Proof.
  intros M H1 H2 E.
  destruct (swap_spec on_heap s R c1 c2 l1 l2 M H1 H2) as (s1 & E1 & M').
  rewrite E in E1. injection E1 as <-. split; [done|].
  destruct (models_owns _ _ _ M c1 l1 H1) as (h1 & Hh1 & _ & S1).
  destruct (models_owns _ _ _ M c2 l2 H2) as (h2 & Hh2 & _ & S2).
  rewrite (swap_run s c1 c2 h1 h2 _ _ Hh1 Hh2 S1 S2) in E. injection E as <-.
  apply no_new_garbage_intro.
  - intros x. simpl. rewrite !lookup_insert. repeat case_decide; subst; try by left.
  - intros x Ha _. apply (accounted_models _ _ _ M').
    apply (accounted_models _ _ _ M) in Ha as [Hx|(c' & l & Hl & Hin)].
    + left. rewrite !lookup_insert. by repeat case_decide.
    + right. destruct (decide (c' = c1)) as [->|Hn1].
      { exists c2, l. split; [|done]. rewrite lookup_insert_eq. congruence. }
      destruct (decide (c' = c2)) as [->|Hn2].
      { exists c1, l. split; [|done].
        rewrite lookup_insert_ne by done. rewrite lookup_insert_eq. congruence. }
      exists c', l. split; [|done]. by rewrite !lookup_insert_ne.
Qed.

(** [Clear] and the destructor leak nothing. *)
Lemma Clear_leak fuel : ∀ s R c l s',
  models on_heap s R → R !! c = Some l → Clear on_heap fuel c s = Done s' →
  no_new_garbage on_heap s s'.
Proof.
  induction fuel as [|fuel IH]; intros s R c l s' M Hc E; [done|].
  simpl in E. unfold load_size in E. destruct (size_ s !! c) as [n|]; [|done].
  cbn [mbind outcome_bind] in E. case_decide.
  - destruct (PopFront on_heap c s) as [s1| | |] eqn:E1; try done.
    cbn [mbind outcome_bind] in E.
    destruct (PopFront_leak s R c l s1 M Hc E1) as [M1 G1].
    eapply no_new_garbage_trans; [exact G1|].
    eapply (IH s1 _ c (tail l)); [exact M1|apply lookup_insert_eq|exact E].
  - injection E as <-. apply no_new_garbage_refl.
Qed.

Lemma destroy_leak fuel s R c l s' :
  models on_heap s R → R !! c = Some l → destroy on_heap fuel c s = Done s' →
  models on_heap s' (delete c R) ∧ no_new_garbage on_heap s s'.
Proof.
  intros M Hc E. pose proof (destroy_spec on_heap fuel s R c l M Hc) as M'.
  rewrite E in M'. simpl in M'. split; [done|].
  unfold destroy in E. destruct (Clear on_heap fuel c s) as [s1| | |] eqn:E1; try done.
  cbn [mbind outcome_bind] in E. injection E as <-.
  pose proof (Clear_spec on_heap fuel s R c l M Hc) as M1.
  rewrite E1 in M1. simpl in M1. destruct M1 as [M1 _].
  eapply no_new_garbage_trans; [by eapply Clear_leak|].
  eapply release_leak; [exact M1|apply lookup_insert_eq].
Qed.

(** The two loops that fill a container by [PushFront] leak nothing,
    whether they finish or stop at an exception. *)
Lemma copy_loop_leak {V} fuel dst (e : BasicIterator V) : ∀ s R ld b,
  models on_heap s R → R !! dst = Some ld →
  match copy_loop new_addr fuel dst b e s with
  | Done s' | Throws s' =>
    ∃ ld', models on_heap s' (<[dst := ld']> R) ∧ no_new_garbage on_heap s s'
  | _ => True
  end.
Proof using alloc_ok.
  induction fuel as [|fuel IH]; intros s R ld b M Hd; [done|].
  simpl. destruct (iter_ne b e).
  2:{ exists ld. split; [by apply models_insert_id|apply no_new_garbage_refl]. }
  unfold iter_deref, load. destruct (node s !! node_ b) as [n|]; [|done].
  cbn [mbind outcome_bind]. set (v := value n). clearbody v.
  destruct (PushFront new_addr dst v s) as [s1|s1| |] eqn:E1; try done.
  - cbn [mbind outcome_bind].
    destruct (PushFront_leak s R dst ld v s1 M Hd E1) as (a & M1 & G1).
    unfold iter_incr, load. destruct (node s1 !! node_ b) as [n1|]; [|done].
    cbn [mbind outcome_bind]. set (b1 := MkIter (next_node n1)). clearbody b1.
    specialize (IH s1 _ _ b1 M1 (lookup_insert_eq _ _ _)).
    destruct (copy_loop new_addr fuel dst b1 e s1) as [s'|s'| |]; try done;
      destruct IH as (ld' & M' & G'); rewrite insert_insert_eq in M';
      exists ld'; (split; [done|]); by eapply no_new_garbage_trans.
  - cbn [mbind outcome_bind].
    destruct (PushFront_spec on_heap new_addr alloc_ok s R dst ld v M Hd)
      as [(a & s2 & E2 & _)|E2]; rewrite E1 in E2; [done|]. injection E2 as ->.
    exists ld. split; [by apply models_insert_id|apply no_new_garbage_refl].
Qed.

Lemma init_loop_leak fuel c values : ∀ s R ld it,
  models on_heap s R → R !! c = Some ld →
  match init_loop new_addr fuel c values it s with
  | Done s' | Throws s' =>
    ∃ ld', models on_heap s' (<[c := ld']> R) ∧ no_new_garbage on_heap s s' ∧
           ∀ x, is_Some (node s !! x) → is_Some (node s' !! x)
  | _ => True
  end.
Proof using alloc_ok.
  induction fuel as [|fuel IH]; intros s R ld it M Hd; [done|].
  simpl. case_decide.
  2:{ exists ld. split; [by apply models_insert_id|]. split; [apply no_new_garbage_refl|done]. }
  unfold il_read. case_decide; [|done].
  destruct (il_array values !! _) as [v|]; [|done]. cbn [mbind outcome_bind].
  destruct (PushFront new_addr c v s) as [s1|s1| |] eqn:E1; try done.
  - cbn [mbind outcome_bind].
    destruct (PushFront_leak s R c ld v s1 M Hd E1) as (a & M1 & G1).
    destruct (PushFront_nodes s c v s1 E1) as (a' & hd & Hhd & Ha' & Hn).
    specialize (IH s1 _ _ ((it - il_sizeof values) `mod` size_t_mod) M1
                  (lookup_insert_eq _ _ _)).
    destruct (init_loop new_addr fuel c values _ s1) as [s'|s'| |]; try done;
      destruct IH as (ld' & M' & G' & D'); rewrite insert_insert_eq in M';
      exists ld'; (split; [done|]); (split; [by eapply no_new_garbage_trans|]);
      intros x Hx; apply D'; rewrite Hn, !lookup_insert; by repeat case_decide.
  - cbn [mbind outcome_bind].
    destruct (PushFront_spec on_heap new_addr alloc_ok s R c ld v M Hd)
      as [(a & s2 & E2 & _)|E2]; rewrite E1 in E2; [done|]. injection E2 as ->.
    exists ld. split; [by apply models_insert_id|]. split; [apply no_new_garbage_refl|done].
Qed.

(** ** Runs that leak nothing *)

Ltac map_solve :=
  apply map_eq; intros ?;
  rewrite ?lookup_delete, ?lookup_insert;
  repeat (case_decide; simplify_eq); simpl; congruence.

Lemma returns_bind {A B} (r : outcome T A) (f : A → outcome T B)
    (mid : A → Prop) (post : B → Prop) (exc : memory T → Prop) :
  returns r mid exc → (∀ a, mid a → returns (f a) post exc) →
  returns (r ≫= f) post exc.
Proof. destruct r; simpl; auto. Qed.

Lemma returns_unwind {A} (r : outcome T A) cleanup
    (post : A → Prop) (exc1 exc : memory T → Prop) :
  returns r post exc1 → (∀ s, exc1 s → returns (cleanup s) exc exc) →
  returns (unwind r cleanup) post exc.
Proof.
  destruct r as [a|s| |]; simpl; auto. intros H1 H. specialize (H s H1).
  by destruct (cleanup s).
Qed.

Lemma returns_weaken {A} (r : outcome T A)
    (post post' : A → Prop) (exc exc' : memory T → Prop) :
  returns r post exc → (∀ a, post a → post' a) → (∀ s, exc s → exc' s) →
  returns r post' exc'.
Proof. destruct r; simpl; auto. Qed.

(** [tracks s0 s R]: [R] models [s], and nothing leaked on the way from
    [s0] to [s]. *)
Local Abbreviation tracks s0 s R :=
  (models on_heap s R ∧ no_new_garbage on_heap s0 s).

Lemma construct_tracks s0 s R c :
  tracks s0 s R → fresh_object on_heap s c →
  tracks s0 (construct T_default c s) (<[c := []]> R).
Proof.
  intros [M G] Hf. split; [by apply construct_spec|].
  eapply no_new_garbage_trans; [exact G|by eapply construct_leak].
Qed.

Lemma release_tracks s0 s R c :
  tracks s0 s R → R !! c = Some [] → tracks s0 (release c s) (delete c R).
Proof.
  intros [M G] Hc. split; [by apply release_spec|].
  eapply no_new_garbage_trans; [exact G|by eapply release_leak].
Qed.

Lemma destroy_tracks fuel s0 s R c l :
  tracks s0 s R → R !! c = Some l →
  returns (destroy on_heap fuel c s)
    (λ s', tracks s0 s' (delete c R)) (λ _, False).
Proof.
  intros [M G] Hc. pose proof (destroy_spec on_heap fuel s R c l M Hc) as H.
  destruct (destroy on_heap fuel c s) as [s'| | |] eqn:E; try done. simpl.
  destruct (destroy_leak fuel s R c l s' M Hc E) as [M' G'].
  split; [done|]. by eapply no_new_garbage_trans.
Qed.

Lemma swap_tracks s0 s R c1 c2 l1 l2 :
  tracks s0 s R → R !! c1 = Some l1 → R !! c2 = Some l2 →
  returns (swap c1 c2 s)
    (λ s', tracks s0 s' (<[c2 := l1]> (<[c1 := l2]> R))) (λ _, False).
Proof.
  intros [M G] H1 H2.
  destruct (swap_spec on_heap s R c1 c2 l1 l2 M H1 H2) as (s' & E & M').
  rewrite E. simpl. split; [done|].
  eapply no_new_garbage_trans; [exact G|]. by eapply (swap_leak s R c1 c2 l1 l2).
Qed.

Lemma copy_loop_tracks {V} fuel dst (b e : BasicIterator V) s0 s R ld :
  tracks s0 s R → R !! dst = Some ld →
  returns (copy_loop new_addr fuel dst b e s)
    (λ s', ∃ ld', tracks s0 s' (<[dst := ld']> R))
    (λ s', ∃ ld', tracks s0 s' (<[dst := ld']> R)).
Proof using alloc_ok.
  intros [M G] Hd. pose proof (copy_loop_leak fuel dst e s R ld b M Hd) as H.
  destruct (copy_loop new_addr fuel dst b e s) as [s'|s'| |]; try done; simpl;
    destruct H as (ld' & M' & G'); exists ld'; (split; [done|]);
    by eapply no_new_garbage_trans.
Qed.

(** The copy constructor leaks nothing, whether it returns or throws. *)
Lemma construct_copy_tracks fuel s0 s R this other tmp1 tmp l :
  tracks s0 s R → R !! other = Some l →
  NoDup [this; tmp1; tmp] → Forall (fresh_object on_heap s) [this; tmp1; tmp] →
  returns (construct_copy T_default on_heap new_addr fuel this other tmp1 tmp s)
    (λ s', ∃ l', tracks s0 s' (<[this := l']> R))
    (λ s', tracks s0 s' R).
Proof using alloc_ok.
  intros K Hother Hnd Hfr. pose proof (proj1 K) as M.
  apply NoDup_cons in Hnd as [Hn1 Hnd]. apply NoDup_cons in Hnd as [Hn2 _].
  apply not_elem_of_cons in Hn1 as [Hn1 Hn3]. apply not_elem_of_cons in Hn3 as [Hn3 _].
  apply not_elem_of_cons in Hn2 as [Hn2 _].
  apply Forall_cons_1 in Hfr as [F1 Hfr]. apply Forall_cons_1 in Hfr as [F2 Hfr].
  apply Forall_cons_1 in Hfr as [F3 _].
  pose proof (fresh_models _ _ _ _ M F1) as R1.
  pose proof (fresh_models _ _ _ _ M F2) as R2.
  pose proof (fresh_models _ _ _ _ M F3) as R3.
  assert (other ≠ this ∧ other ≠ tmp1 ∧ other ≠ tmp) as (Ho1 & Ho2 & Ho3).
  { split_and!; congruence. }
  destruct F2 as (_ & _ & Hr2 & Ha2), F3 as (_ & _ & Hr3 & Ha3).
  unfold construct_copy. cbv zeta.
  pose proof (construct_tracks s0 s R this K F1) as K1.
  pose proof (construct_tracks s0 _ _ tmp1 K1) as K2.
  lapply K2; [clear K2; intros K2|].
  2:{ eapply models_fresh; [exact (proj1 K1)|by rewrite lookup_insert_ne|done..]. }
  set (s2 := construct T_default tmp1 _) in *.
  set (RA := <[tmp1 := []]> (<[this := []]> R)) in *.
  unfold cbegin, load. destruct (node s2 !! other) as [hd|]; [|done].
  cbn [mbind outcome_bind].
  eapply returns_bind.
  { eapply returns_unwind.
    - eapply (copy_loop_tracks fuel tmp1 _ _ s0 s2 RA []); [exact K2|].
      apply lookup_insert_eq.
    - intros s' (ld' & K'). eapply returns_bind.
      + eapply returns_weaken;
          [eapply destroy_tracks; [exact K'|apply lookup_insert_eq]| |done].
        intros s'' H. exact H.
      + intros s'' K''. simpl.
        apply (release_tracks _ _ _ this) in K''.
        * replace (delete this _) with R in K''; [done|]. unfold RA. map_solve.
        * unfold RA. rewrite !lookup_delete_ne, !lookup_insert_ne by done.
          by rewrite lookup_insert_eq. }
  intros s3 (lr & K3).
  pose proof (construct_tracks s0 _ _ tmp K3) as K4.
  lapply K4; [clear K4; intros K4|].
  2:{ eapply models_fresh; [exact (proj1 K3)| |done..].
      unfold RA. by rewrite !lookup_insert_ne. }
  set (s4 := construct T_default tmp _) in *.
  set (RB := <[tmp := []]> (<[tmp1 := lr]> RA)) in *.
  unfold begin, load. destruct (node s4 !! tmp1) as [hd1|]; [|done].
  cbn [mbind outcome_bind].
  eapply returns_bind.
  { eapply returns_unwind.
    - eapply (copy_loop_tracks fuel tmp _ _ s0 s4 RB []); [exact K4|].
      apply lookup_insert_eq.
    - intros s' (ld' & K'). eapply returns_bind.
      + eapply returns_weaken;
          [eapply destroy_tracks; [exact K'|apply lookup_insert_eq]| |done].
        intros s'' H. exact H.
      + intros s'' K''. simpl in K''. eapply returns_bind.
        * eapply returns_weaken;
            [eapply (destroy_tracks _ _ _ _ tmp1 lr); [exact K''|]| |done].
          -- unfold RB. rewrite lookup_delete_ne, !lookup_insert_ne by done.
             apply lookup_insert_eq.
          -- intros s5 H. exact H.
        * intros s5 K5. simpl. apply (release_tracks _ _ _ this) in K5.
          -- replace (delete this _) with R in K5; [done|]. unfold RB, RA. map_solve.
          -- unfold RB, RA. rewrite !lookup_delete_ne, !lookup_insert_ne by done.
             by rewrite lookup_insert_eq. }
  intros s5 (lc & K5).
  eapply returns_bind.
  { eapply returns_weaken;
      [eapply (swap_tracks s0 s5 _ this tmp [] lc K5)| |done].
    - unfold RB, RA. rewrite !lookup_insert_ne by done. apply lookup_insert_eq.
    - apply lookup_insert_eq.
    - intros s6 H. exact H. }
  intros s6 K6. simpl in K6. eapply returns_bind.
  { eapply returns_weaken;
      [eapply (destroy_tracks _ _ _ _ tmp []); [exact K6|apply lookup_insert_eq]| |done].
    intros s7 H. exact H. }
  intros s7 K7. simpl in K7. eapply returns_weaken;
    [eapply (destroy_tracks _ _ _ _ tmp1 lr); [exact K7|]| |done].
  - unfold RB. rewrite lookup_delete_ne, !lookup_insert_ne by done. apply lookup_insert_eq.
  - intros s8 K8. exists lc.
    replace (<[this := lc]> R) with
      (delete tmp1 (delete tmp (<[tmp := []]> (<[this := lc]> (<[tmp := lc]> RB)))));
      [done|]. unfold RB, RA. map_solve.
Qed.

(** Copy assignment leaks nothing, whether it returns or throws. *)
Lemma assign_tracks fuel s0 s R this rhs tmp tmp1' tmp' lt lr :
  tracks s0 s R → R !! this = Some lt → R !! rhs = Some lr →
  NoDup [tmp; tmp1'; tmp'] → Forall (fresh_object on_heap s) [tmp; tmp1'; tmp'] →
  returns (assign T_default on_heap new_addr fuel this rhs tmp tmp1' tmp' s)
    (λ s', ∃ l', tracks s0 s' (<[this := l']> R))
    (λ s', tracks s0 s' R).
Proof using alloc_ok.
  intros K Ht Hr Hnd Hfr. pose proof (proj1 K) as M. unfold assign. case_decide as Hne.
  - pose proof (Forall_inv Hfr) as F1.
    pose proof (fresh_models _ _ _ _ M F1) as R1.
    assert (this ≠ tmp) as Htt by congruence.
    eapply returns_bind.
    { by eapply construct_copy_tracks. }
    intros s1 (l' & K1). eapply returns_bind.
    { eapply returns_weaken; [eapply (swap_tracks s0 s1 _ this tmp lt l' K1)| |done].
      - by rewrite lookup_insert_ne.
      - apply lookup_insert_eq.
      - intros s2 H. exact H. }
    intros s2 K2. simpl in K2.
    eapply returns_weaken;
      [eapply (destroy_tracks _ _ _ _ tmp lt); [exact K2|apply lookup_insert_eq]| |done].
    intros s3 K3. exists l'.
    replace (<[this := l']> R) with
      (delete tmp (<[tmp := lt]> (<[this := l']> (<[tmp := l']> R)))); [done|].
    map_solve.
  - simpl. exists lt. destruct K as [_ G]. split; [by apply models_insert_id|done].
Qed.

Lemma PushFront_tracks s0 s R c l v :
  tracks s0 s R → R !! c = Some l →
  returns (PushFront new_addr c v s)
    (λ s', ∃ a, tracks s0 s' (<[c := (a, v) :: l]> R)) (λ s', s' = s).
Proof using alloc_ok.
  intros [M G] Hc.
  destruct (PushFront new_addr c v s) as [s'|s'| |] eqn:E; try done; simpl.
  - destruct (PushFront_leak s R c l v s' M Hc E) as (a & M' & G').
    exists a. split; [done|]. by eapply no_new_garbage_trans.
  - destruct (PushFront_spec on_heap new_addr alloc_ok s R c l v M Hc)
      as [(a & s2 & E2 & _)|E2]; rewrite E in E2; [done|]. by injection E2.
Qed.

(** The mutators of one container leak nothing. *)
Lemma mutation_leak fuel this m s R :
  models on_heap s R → call_ok on_heap s (as_call this m) →
  returns (exec T_default on_heap new_addr fuel (as_call this m) s)
    (λ s', no_new_garbage on_heap s s') (λ s', no_new_garbage on_heap s s').
Proof using alloc_ok.
  intros M Hok.
  destruct (mutation_frame T_default on_heap new_addr alloc_ok fuel this m s R M Hok)
    as (l & Hl & He).
  destruct (exec T_default on_heap new_addr fuel (as_call this m) s)
    as [s'|s'| |] eqn:E; try done; simpl in He |- *.
  2:{ subst s'. apply no_new_garbage_refl. }
  destruct m as [val| |pos val|pos|]; simpl in Hok, E.
  - by destruct (PushFront_leak s R this l val s' M Hl E) as (a & _ & G).
  - by destruct (PopFront_leak s R this l s' M Hl E) as (_ & G).
  - destruct Hok as (l0 & Ho & Hpos).
    pose proof (owns_models _ _ _ _ _ M Ho) as Hl0.
    assert (l0 = l) as -> by congruence.
    destruct (InsertAfter new_addr this pos val s) as [[it s1]| | |] eqn:E1; try done.
    cbn [mbind outcome_bind] in E. injection E as <-.
    by destruct (InsertAfter_leak s R this l pos val it s1 M Hl Hpos E1) as (l' & _ & G).
  - destruct Hok as (l0 & Ho & Hpos).
    pose proof (owns_models _ _ _ _ _ M Ho) as Hl0.
    assert (l0 = l) as -> by congruence.
    destruct (EraseAfter on_heap this pos s) as [[it s1]| | |] eqn:E1; try done.
    cbn [mbind outcome_bind] in E. injection E as <-.
    by destruct (EraseAfter_leak s R this l pos it s1 M Hl Hpos E1) as (l' & _ & G).
  - by eapply Clear_leak.
Qed.

(** X11: no public operation leaks. A call within its precondition from a
    reachable memory has no undefined behaviour, and when it returns, every
    node then in memory that belongs to no container was such a node
    before the call; the same holds when the call throws, for every
    operation but the initializer-list constructor. *)
Theorem public_operations_leak_nothing s c fuel :
  reachable s → call_ok on_heap s c →
  match exec T_default on_heap new_addr fuel c s with
  | Done s' => no_new_garbage on_heap s s'
  | Throws s' =>
    match c with
    | InitConstruct _ _ => True
    | _ => no_new_garbage on_heap s s'
    end
  | Undefined => False
  | OutOfFuel => True
  end.
Proof using alloc_ok.
  intros Hr Hok.
  destruct (reachable_models T_default on_heap new_addr alloc_ok s Hr) as [R M].
  destruct (exec_models T_default on_heap new_addr alloc_ok fuel c s R M Hok)
    as [bound He].
  assert (tracks s s R) as K by (split; [done|apply no_new_garbage_refl]).
  assert (returns (exec T_default on_heap new_addr fuel c s)
            (λ s', no_new_garbage on_heap s s')
            (λ s', match c with
                   | InitConstruct _ _ => True
                   | _ => no_new_garbage on_heap s s'
                   end)) as H.
  { destruct c; simpl in Hok.
    - simpl. by eapply construct_leak.
    - destruct Hok as [Hf Harr]. simpl. unfold construct_init.
      pose proof (construct_tracks s s R this K Hf) as [M1 G1].
      pose proof (init_loop_leak fuel this values _ _ []
                    ((il_end values - il_sizeof values) `mod` size_t_mod)
                    M1 (lookup_insert_eq _ _ _)) as Hl.
      destruct (init_loop _ _ _ _ _ _) as [s'|s'| |]; try done; simpl.
      destruct Hl as (ld' & _ & G' & _). by eapply no_new_garbage_trans.
    - destruct Hok as (Hlive & Hnd & Hfr).
      destruct (live_models _ _ _ _ M Hlive) as [l Hl]. simpl.
      eapply returns_weaken; [by eapply (construct_copy_tracks fuel s s R)|..].
      + by intros s' (l' & _ & G).
      + by intros s' [_ G].
    - destruct Hok as (Hlive & Hlive' & Hnd & Hfr).
      destruct (live_models _ _ _ _ M Hlive) as [lt Hlt].
      destruct (live_models _ _ _ _ M Hlive') as [lr Hlr]. simpl.
      eapply returns_weaken; [by eapply (assign_tracks fuel s s R)|..].
      + by intros s' (l' & _ & G).
      + by intros s' [_ G].
    - by apply (mutation_leak fuel this (MPushFront val) s R).
    - by apply (mutation_leak fuel this MPopFront s R).
    - by apply (mutation_leak fuel this MClear s R).
    - by apply (mutation_leak fuel this (MInsertAfter pos val) s R).
    - by apply (mutation_leak fuel this (MEraseAfter pos) s R).
    - destruct Hok as [H1 H2].
      destruct (live_models _ _ _ _ M H1) as [l1 Hl1].
      destruct (live_models _ _ _ _ M H2) as [l2 Hl2]. simpl.
      eapply returns_weaken; [by eapply (swap_tracks s s R)|..].
      + by intros s' [_ G].
      + done. }
  destruct (exec T_default on_heap new_addr fuel c s); done.
Qed.

(** The nodes after [Clear]: the chain is gone, the rest is as before. *)
Lemma Clear_nodes fuel : ∀ s R c l s',
  models on_heap s R → R !! c = Some l → Clear on_heap fuel c s = Done s' →
  ∀ x, x ≠ c → node s' !! x = if decide (x ∈ l.*1) then None else node s !! x.
Proof.
  induction fuel as [|fuel IH]; intros s R c l s' M Hc E x Hx; [done|].
  destruct (models_owns _ _ _ M c l Hc) as (hd & Hhd & Hseg & Hsz).
  simpl in E. unfold load_size in E. rewrite Hsz in E.
  cbn [mbind outcome_bind] in E. destruct l as [|[a v] l].
  - rewrite decide_False in E by (simpl; lia). injection E as <-.
    by rewrite decide_False by apply not_elem_of_nil.
  - rewrite decide_True in E by (simpl length; lia).
    destruct (PopFront on_heap c s) as [s1| | |] eqn:E1; try done.
    cbn [mbind outcome_bind] in E.
    destruct (PopFront_leak s R c _ s1 M Hc E1) as [M1 _]. simpl in M1.
    rewrite (IH s1 _ c l s' M1 (lookup_insert_eq _ _ _) E x Hx).
    simpl in Hseg. destruct Hseg as (Ha & nx & Hna & _).
    destruct (PopFront_nodes s c s1 E1) as (hd' & Hhd' & [[Hz _]|(n & _ & _ & Hn)]).
    { exfalso. assert (hd' = hd) as -> by congruence.
      rewrite Hz in Ha. subst a. by rewrite (models_null on_heap s R M) in Hna. }
    assert (hd' = hd) as -> by congruence. rewrite Ha in Hn.
    rewrite Hn, lookup_delete, lookup_insert. simpl.
    repeat case_decide; try done; exfalso; chain_solve.
Qed.

(** X10: the destructor returns, deletes the sentinel and every node of the
    chain and nothing else, so it leaves no garbage behind; the object is
    gone and the other containers are as they were. *)
Theorem destructor_frees_every_node s c vs fuel :
  reachable s → observes s c vs → (length vs < fuel)%nat →
  ∃ s' l, destroy on_heap fuel c s = Done s' ∧ owns s c l ∧ l.*2 = vs ∧
    (∀ x, node s' !! x =
          if decide (x = c ∨ x ∈ l.*1) then None else node s !! x) ∧
    ¬ live s' c ∧ no_new_garbage on_heap s s' ∧
    ∀ c' vs', c' ≠ c → observes s c' vs' → observes s' c' vs'.
Proof using alloc_ok.
  intros Hr Ho Hfuel.
  destruct (reachable_models T_default on_heap new_addr alloc_ok s Hr) as [R M].
  destruct (observes_models s R c vs M Ho) as (l & Hc & Hvs).
  assert (length l = length vs) as Hlen by (by rewrite <- Hvs, length_fmap).
  destruct (ensures_Done _ fuel (length l) _ (destroy_spec on_heap fuel s R c l M Hc))
    as (s' & E & M'); [lia|].
  exists s', l. split; [done|]. split; [by apply (models_owns _ _ _ M)|].
  split; [done|].
  destruct (destroy_leak fuel s R c l s' M Hc E) as [_ G].
  unfold destroy in E. destruct (Clear on_heap fuel c s) as [s1| | |] eqn:E1; try done.
  cbn [mbind outcome_bind] in E. injection E as <-. split_and!.
  - intros x. simpl. rewrite lookup_delete. destruct (decide (c = x)) as [->|Hx].
    + by rewrite decide_True by by left.
    + rewrite (Clear_nodes fuel s R c l s1 M Hc E1 x) by done.
      repeat case_decide; try done; exfalso; intuition congruence.
  - unfold live. simpl. rewrite lookup_delete_eq. by intros [].
  - done.
  - intros c' vs' Hne Ho'. eapply (observes_frame s _ R (delete c R)); try done.
    by rewrite lookup_delete_ne.
Qed.

(** The memory that [PushFront] returns when the allocation succeeds. *)
Lemma PushFront_run s c v hd a n :
  node s !! c = Some hd → new_addr (node s) = Some a → size_ s !! c = Some n →
  PushFront new_addr c v s =
  Done (MkMem (<[c := MkNode (value hd) a]>
                 (<[a := MkNode v (next_node hd)]> (node s)))
              (<[c := (n + 1) `mod` size_t_mod]> (size_ s))).
Proof using alloc_ok.
  intros Hhd Ha Hn. destruct (alloc_ok _ _ Ha) as (Hfree & _).
  assert (a ≠ c) as Hne by congruence.
  unfold PushFront, load, new_Node. rewrite Hhd. cbn [mbind outcome_bind].
  rewrite Ha. cbn [mbind outcome_bind]. unfold store_next. simpl.
  rewrite lookup_insert_ne by done. rewrite Hhd. simpl.
  unfold incr_size, load_size, store_size. simpl. by rewrite Hn.
Qed.

(** X14: the initializer-list constructor leaks when it throws. When its
    first allocation succeeds and a later one fails, the exception leaves
    the constructor, no destructor runs, and the node of the first
    allocation stays in memory and belongs to no container; the object was
    never constructed and the other containers are as they were. *)
Theorem initializer_list_constructor_leaks_when_it_throws s this values fuel s' a :
  reachable s → fresh_object on_heap s this → array_ok values →
  construct_init T_default new_addr fuel this values s = Throws s' →
  new_addr (node (construct T_default this s)) = Some a →
  garbage on_heap s' a ∧ ¬ garbage on_heap s a ∧ reachable s' ∧ ¬ live s' this ∧
  ∀ c' vs', observes s c' vs' → observes s' c' vs'.
Proof using alloc_ok.
  intros Hr Hf Harr E Ha.
  destruct (reachable_models T_default on_heap new_addr alloc_ok s Hr) as [R M].
  pose proof (construct_init_spec T_default on_heap new_addr alloc_ok fuel s R this
                values M Hf Harr) as M'.
  rewrite E in M'. simpl in M'.
  destruct (alloc_ok _ _ Ha) as (Hfree & Hrange & Hheap).
  assert (a ≠ this) as Hne.
  { intros ->. destruct Hf as (_ & _ & _ & Hf). congruence. }
  assert (node s !! a = None) as Hfree'.
  { simpl in Hfree. by rewrite lookup_insert_ne in Hfree. }
  assert (is_Some (node s' !! a)) as Hin.
  { unfold construct_init in E.
    destruct (construct_spec T_default on_heap s R this M Hf) as [_ M1].
    destruct fuel as [|fuel]; [done|]. simpl in E. case_decide; [|done].
    unfold il_read in E. case_decide; [|done].
    destruct (il_array values !! _) as [v|]; [|done]. cbn [mbind outcome_bind] in E.
    rewrite (PushFront_run _ this v (MkNode T_default nullptr) a 0) in E;
      [|apply lookup_insert_eq|done|apply lookup_insert_eq].
    cbn [mbind outcome_bind] in E.
    set (s1 := MkMem _ _) in E.
    assert (PushFront new_addr this v (construct T_default this s) = Done s1) as E1.
    { apply (PushFront_run _ this v (MkNode T_default nullptr) a 0);
        [apply lookup_insert_eq|done|apply lookup_insert_eq]. }
    destruct (PushFront_leak _ _ this [] v s1 M1 (lookup_insert_eq _ _ _) E1)
      as (a1 & M2 & _).
    assert (is_Some (node s1 !! a)) as Hs1.
    { unfold s1. simpl. rewrite lookup_insert_ne by done. by rewrite lookup_insert_eq. }
    pose proof (init_loop_leak fuel this values s1 _ _
                  (((il_end values - il_sizeof values) `mod` size_t_mod
                    - il_sizeof values) `mod` size_t_mod)
                  M2 (lookup_insert_eq _ _ _)) as Hl.
    destruct (init_loop _ _ _ _ _ s1) as [s2|s2| |]; try done.
    simpl in E. injection E as <-. destruct Hl as (_ & _ & _ & D).
    simpl. rewrite lookup_delete_ne by done. by apply D. }
  split_and!.
  - split; [done|]. intros [Hc|(c & l & Hl & Hx)]%(accounted_models s' R a M').
    + pose proof (models_auto _ _ _ M' a Hc). congruence.
    + destruct (models_lookup on_heap s R c l a M Hl Hx) as [n Hn]. congruence.
  - intros [[n Hn] _]. congruence.
  - eapply (reachable_throw _ _ _ s (InitConstruct this values) fuel); [done| |done].
    by split.
  - unfold construct_init in E.
    destruct (init_loop _ _ _ _ _ _) as [s2|s2| |]; try done.
    simpl in E. injection E as <-. unfold live. simpl.
    rewrite lookup_delete_eq. by intros [].
  - intros c' vs'. by apply (observes_frame s s' R R).
Qed.

(** X13: on a backing array inside the address space the
    initializer-list constructor has no undefined behaviour; when it
    returns, the new container holds the values of the list in their
    order, and whether it returns or throws, the containers that were there
    are as they were. *)
Theorem initializer_list_constructor_builds_in_order s this values fuel :
  reachable s → fresh_object on_heap s this → array_ok values →
  (length (il_array values) < fuel)%nat →
  match construct_init T_default new_addr fuel this values s with
  | Done s' =>
    reachable s' ∧ observes s' this (il_array values) ∧
    ∀ c' vs', observes s c' vs' → observes s' c' vs'
  | Throws s' =>
    reachable s' ∧ ¬ live s' this ∧
    ∀ c' vs', observes s c' vs' → observes s' c' vs'
  | _ => False
  end.
Proof using alloc_ok.
  intros Hr Hf Harr Hfuel.
  destruct (reachable_models T_default on_heap new_addr alloc_ok s Hr) as [R M].
  pose proof (construct_init_spec T_default on_heap new_addr alloc_ok fuel s R this
                values M Hf Harr) as He.
  destruct (construct_init T_default new_addr fuel this values s)
    as [s'|s'| |] eqn:E; simpl in He; [| |done|lia].
  - destruct He as (l & M' & Hl). split_and!.
    + eapply (reachable_call _ _ _ s (InitConstruct this values) fuel); [done| |done].
      by split.
    + rewrite <- Hl. eapply owns_observes; [exact M'|apply lookup_insert_eq].
    + intros c' vs' Ho. eapply (observes_frame s s' R); try done.
      rewrite lookup_insert_ne; [done|]. intros <-.
      destruct (observes_live _ _ _ Ho) as [n Hn]. destruct Hf as (_ & Hs & _).
      congruence.
  - split_and!.
    + eapply (reachable_throw _ _ _ s (InitConstruct this values) fuel); [done| |done].
      by split.
    + unfold construct_init in E.
      destruct (init_loop _ _ _ _ _ _) as [s2|s2| |]; try done.
      simpl in E. injection E as <-. unfold live. simpl.
      rewrite lookup_delete_eq. by intros [].
    + intros c' vs'. by apply (observes_frame s s' R R).
Qed.

(** X15: iterators compare by the node they point at, within a flavour and
    across flavours: [operator==] is reflexive, symmetric and transitive,
    [operator!=] is its negation, the converting constructor keeps the
    position, and a default-constructed iterator equals [end()]. *)
Theorem iterators_compare_by_position {V W U}
    (i : BasicIterator V) (j : BasicIterator W) (k : BasicIterator U)
    (m : Iterator) :
  iter_eq i j = bool_decide (node_ i = node_ j) ∧
  iter_ne i j = negb (iter_eq i j) ∧
  iter_eq i i = true ∧
  iter_eq i j = iter_eq j i ∧
  implb (iter_eq i j && iter_eq j k) (iter_eq i k) = true ∧
  iter_eq (iter_convert (V:=V) m) m = true ∧
  node_ (iter_convert (V:=V) m) = node_ m ∧
  iter_eq (iter_default (V:=V)) (end_ (V:=W)) = true.
Proof.
  unfold iter_eq, iter_ne, iter_convert, iter_default, end_.
  destruct i as [p], j as [q], k as [r], m as [x]. simpl. split_and!.
  - apply bool_decide_ext. split; congruence.
  - by rewrite bool_decide_not.
  - by apply bool_decide_eq_true.
  - apply bool_decide_ext. split; congruence.
  - destruct (bool_decide (q = p)) eqn:E1; [|done].
    destruct (bool_decide (r = q)) eqn:E2; [|done]. simpl.
    apply bool_decide_eq_true in E1, E2. apply bool_decide_eq_true. congruence.
  - by apply bool_decide_eq_true.
  - done.
  - done.
Qed.

Section Comparisons.

Variable eqb : T → T → bool.
Variable ltb : T → T → bool.

(** Of two lists over a consistent strict order, exactly one of
    less, same and greater holds. *)
Lemma lists_trichotomy :
  (∀ x y, eqb x y = true ↔ ltb x y = false ∧ ltb y x = false) →
  (∀ x y, ltb x y = true → ltb y x = false) →
  ∀ A B : list T,
  (lexicographically_less ltb A B ∧ ¬ same_values eqb A B ∧
   ¬ lexicographically_less ltb B A) ∨
  (¬ lexicographically_less ltb A B ∧ same_values eqb A B ∧
   ¬ lexicographically_less ltb B A) ∨
  (¬ lexicographically_less ltb A B ∧ ¬ same_values eqb A B ∧
   lexicographically_less ltb B A).
Proof.
  intros Heq Hasym A. induction A as [|x A IH]; intros [|y B].
  - right. left. rewrite less_nil_l, same_values_nil_l.
    split; [by intros []|]. split; [done|by intros []].
  - left. rewrite less_nil_l, same_values_nil_l.
    split; [done|]. split; [done|apply less_nil_r].
  - right. right. rewrite less_nil_l, same_values_nil_r.
    split; [apply less_nil_r|]. split; [done|done].
  - rewrite !less_cons, same_values_cons, Heq.
    destruct (ltb x y) eqn:Exy.
    + pose proof (Hasym _ _ Exy) as Eyx. rewrite Eyx. left.
      split; [by left|]. split; [intros [[? _] _]; done|intros [?|(? & ? & _)]; done].
    + destruct (ltb y x) eqn:Eyx.
      * right. right.
        split; [intros [?|(? & ? & _)]; done|]. split; [intros [[_ ?] _]; done|by left].
      * destruct (IH B) as [(H1 & H2 & H3)|[(H1 & H2 & H3)|(H1 & H2 & H3)]].
        -- left. split; [by right|]. split; [intros [_ ?]; done|intros [?|(_ & _ & ?)]; done].
        -- right. left.
           split; [intros [?|(_ & _ & ?)]; done|].
           split; [done|intros [?|(_ & _ & ?)]; done].
        -- right. right.
           split; [intros [?|(_ & _ & ?)]; done|].
           split; [intros [_ ?]; done|by right].
Qed.

(** X12: the comparison operators on an element type whose [==] holds
    exactly when neither element is less than the other, and whose [<] is
    asymmetric. All of them return; exactly one of [a < b], [a == b] and
    [a > b] is true; [a <= b] is "less or equal" and [a != b] is "less or
    greater". [a >= b] returns the answer of [a <= b]. *)
Theorem comparisons_are_a_trichotomy s a b va vb fuel :
  (∀ x y, eqb x y = true ↔ ltb x y = false ∧ ltb y x = false) →
  (∀ x y, ltb x y = true → ltb y x = false) →
  reachable s → observes s a va → observes s b vb →
  (length va `max` length vb < fuel)%nat →
  ∃ lt eq gt : bool,
    operator_lt ltb fuel a b s = Done lt ∧
    operator_eq eqb fuel a b s = Done eq ∧
    operator_gt ltb fuel a b s = Done gt ∧
    ((lt = true ∧ eq = false ∧ gt = false) ∨
     (lt = false ∧ eq = true ∧ gt = false) ∨
     (lt = false ∧ eq = false ∧ gt = true)) ∧
    operator_le ltb fuel a b s = Done (lt || eq) ∧
    operator_ne eqb fuel a b s = Done (lt || gt) ∧
    operator_ge ltb fuel a b s = Done (lt || eq).
Proof using alloc_ok.
  intros Heq Hasym Hr Ha Hb Hfuel.
  destruct (reachable_models T_default on_heap new_addr alloc_ok s Hr) as [R M].
  destruct (observes_models s R a va M Ha) as (la & HA & Hva).
  destruct (observes_models s R b vb M Hb) as (lb & HB & Hvb).
  assert (length la = length va) as Hla by (by rewrite <- Hva, length_fmap).
  assert (length lb = length vb) as Hlb by (by rewrite <- Hvb, length_fmap).
  destruct (operator_lt_spec on_heap ltb fuel s R a b la lb M HA HB)
    as (lt & Elt & Hlt); [lia|].
  destruct (operator_eq_spec on_heap eqb fuel s R a b la lb M HA HB)
    as (eq & Eeq & Heq'); [lia|].
  destruct (operator_lt_spec on_heap ltb fuel s R b a lb la M HB HA)
    as (gt & Egt & Hgt); [lia|].
  rewrite Hva, Hvb in Hlt, Heq', Hgt.
  exists lt, eq, gt. unfold operator_le, operator_ne, operator_ge, operator_gt.
  rewrite Elt, Eeq, Egt. cbn [mbind outcome_bind].
  assert ((lt = true ∧ eq = false ∧ gt = false) ∨
          (lt = false ∧ eq = true ∧ gt = false) ∨
          (lt = false ∧ eq = false ∧ gt = true)) as Htri.
  { destruct (lists_trichotomy Heq Hasym va vb)
      as [(H1 & H2 & H3)|[(H1 & H2 & H3)|(H1 & H2 & H3)]];
      [left|right; left|right; right]; split_and!;
      first [by apply Hlt|by apply Heq'|by apply Hgt
            |apply not_true_is_false; intros ?; apply H1; by apply Hlt
            |apply not_true_is_false; intros ?; apply H2; by apply Heq'
            |apply not_true_is_false; intros ?; apply H3; by apply Hgt]. }
  split_and!; try done;
    by destruct Htri as [(-> & -> & ->)|[(-> & -> & ->)|(-> & -> & ->)]].
Qed.

End Comparisons.

(** ** Round trips *)

Lemma size_round_trip (n : Z) :
  0 ≤ n < size_t_mod → ((n + 1) `mod` size_t_mod - 1) `mod` size_t_mod = n.
Proof. unfold size_t_mod. intros Hn. Z.div_mod_to_equations. lia. Qed.

(** X16: [PopFront] undoes [PushFront]: after the two calls the memory is
    exactly the one before them, the node that was allocated is deleted and
    [size_] is back. *)
Theorem PopFront_undoes_PushFront s c v :
  reachable s → live s c →
  match PushFront new_addr c v s with
  | Done s' => PopFront on_heap c s' = Done s
  | Throws s' => s' = s
  | _ => False
  end.
Proof using alloc_ok.
  intros Hr Hlive.
  destruct (reachable_models T_default on_heap new_addr alloc_ok s Hr) as [R M].
  destruct (live_models _ _ _ _ M Hlive) as [l Hl].
  destruct (models_owns _ _ _ M _ _ Hl) as (hd & Hhd & _ & Hsz).
  pose proof (models_length on_heap s R c l M Hl) as Hlen.
  destruct (new_addr (node s)) as [a|] eqn:Ha.
  2:{ unfold PushFront, load, new_Node. rewrite Hhd. cbn [mbind outcome_bind].
      by rewrite Ha. }
  rewrite (PushFront_run s c v hd a _ Hhd Ha Hsz).
  destruct (alloc_ok _ _ Ha) as (Hfree & Hrange & Hheap).
  assert (a ≠ c) as Hne by congruence.
  assert (a ≠ nullptr) as Hnz by (unfold nullptr; lia).
  unfold PopFront, load. cbn [node size_]. rewrite lookup_insert_eq.
  cbn [mbind outcome_bind next_node value]. rewrite decide_True by done.
  rewrite lookup_insert_ne by done. rewrite lookup_insert_eq.
  cbn [mbind outcome_bind next_node value]. unfold store_next. cbn [node size_].
  rewrite lookup_insert_eq. cbn [mbind outcome_bind next_node value].
  unfold delete_Node. cbn [node size_].
  rewrite !lookup_insert_ne by done. rewrite lookup_insert_eq, Hheap.
  cbn [mbind outcome_bind]. unfold decr_size, load_size, store_size. cbn [node size_].
  rewrite lookup_insert_eq. cbn [mbind outcome_bind].
  rewrite size_round_trip by lia. f_equal. destruct s as [m sz]. simpl in *. f_equal.
  - apply map_eq. intros x. rewrite lookup_delete, !lookup_insert.
    repeat case_decide; subst; try done. rewrite Hhd. by destruct hd.
  - apply map_eq. intros x. rewrite !lookup_insert. by case_decide; subst.
Qed.

(** X17: [EraseAfter(pos)] undoes [InsertAfter(pos, v)] behind an element:
    it returns the position that followed [pos] before the insertion, and
    the memory is exactly the one before the two calls. *)
Theorem EraseAfter_undoes_InsertAfter s c vs (i : nat) v (pos : ConstIterator) :
  reachable s → observes s c vs → (i < length vs)%nat →
  (b ← cbegin c s; advance i b s) = Done pos →
  match InsertAfter new_addr c pos v s with
  | Done (it, s') =>
    ∃ nxt : ConstIterator,
      iter_incr pos s = Done nxt ∧
      EraseAfter on_heap c pos s' = Done (MkIter (node_ nxt), s)
  | Throws s' => s' = s
  | _ => False
  end.
Proof using alloc_ok.
  intros Hr Ho Hi Hpos.
  destruct (reachable_models T_default on_heap new_addr alloc_ok s Hr) as [R M].
  destruct (observes_models s R c vs M Ho) as (l & Hl & <-).
  rewrite length_fmap in Hi.
  destruct (models_owns _ _ _ M _ _ Hl) as (hd & Hhd & Hch & Hsz).
  pose proof (models_length on_heap s R c l M Hl) as Hlen.
  destruct (lookup_lt_is_Some_2 l i Hi) as [[p w] Ei].
  unfold cbegin, load in Hpos. rewrite Hhd in Hpos. cbn [mbind outcome_bind] in Hpos.
  rewrite (advance_nth s _ l i p w Hch Ei) in Hpos. injection Hpos as <-.
  destruct (chain_nth s _ l i p w Hch Ei) as (_ & _ & nx & Hp & _).
  assert (p ∈ l.*1) as Hin.
  { apply list_elem_of_lookup. exists i. by rewrite list_lookup_fmap, Ei. }
  destruct (models_chain_addr on_heap s R c l p M Hl Hin) as (Hpc & _).
  unfold InsertAfter, iter_eq, before_begin. cbn [node_].
  rewrite bool_decide_eq_false_2 by congruence.
  unfold load, new_Node. rewrite Hp. cbn [mbind outcome_bind next_node value].
  destruct (new_addr (node s)) as [a|] eqn:Ha; [|done].
  destruct (alloc_ok _ _ Ha) as (Hfree & Hrange & Hheap).
  assert (a ≠ c) as Hac by congruence.
  assert (a ≠ p) as Hap by congruence.
  cbn [mbind outcome_bind]. unfold store_next. cbn [node size_].
  rewrite lookup_insert_ne by done. rewrite Hp. cbn [mbind outcome_bind next_node value].
  unfold incr_size, load_size, store_size. cbn [node size_]. rewrite Hsz.
  cbn [mbind outcome_bind].
  exists (MkIter nx). split.
  { unfold iter_incr, load. cbn [node_]. by rewrite Hp. }
  unfold EraseAfter, iter_eq, before_begin. cbn [node_].
  rewrite bool_decide_eq_false_2 by congruence.
  unfold load. cbn [node size_]. rewrite lookup_insert_eq.
  cbn [mbind outcome_bind next_node value].
  rewrite lookup_insert_ne by done. rewrite lookup_insert_eq.
  cbn [mbind outcome_bind next_node value].
  unfold delete_Node. cbn [node size_].
  rewrite lookup_insert_ne by done. rewrite lookup_insert_eq, Hheap.
  cbn [mbind outcome_bind]. unfold store_next. cbn [node size_].
  rewrite lookup_delete_ne by done. rewrite lookup_insert_eq.
  cbn [mbind outcome_bind next_node value].
  unfold decr_size, load_size, store_size. cbn [node size_].
  rewrite lookup_insert_eq. cbn [mbind outcome_bind node size_].
  rewrite lookup_insert_eq.
  cbn [mbind outcome_bind next_node value node_].
  rewrite size_round_trip by lia. f_equal. f_equal.
  destruct s as [m sz]. simpl in *. f_equal.
  - apply map_eq. intros x. rewrite !lookup_insert, lookup_delete, !lookup_insert.
    repeat case_decide; subst; try done.
  - apply map_eq. intros x. rewrite !lookup_insert. by case_decide; subst.
Qed.

(** ** When the copy constructor throws *)

(** [PushFront] throws only when [new Node] fails, and then the memory is
    the one it was called in. *)
Lemma PushFront_throws s c v s' :
  PushFront new_addr c v s = Throws s' → s' = s ∧ new_addr (node s) = None.
Proof.
  unfold PushFront, load, new_Node. destruct (node s !! c) as [hd|]; [|done].
  cbn [mbind outcome_bind]. destruct (new_addr (node s)) as [a|] eqn:Ha.
  - cbn [mbind outcome_bind]. unfold store_next. cbn [node size_].
    destruct (<[a:=_]> (node s) !! c); [|done]. cbn [mbind outcome_bind].
    unfold incr_size, load_size, store_size. cbn [node size_].
    by destruct (size_ s !! c).
  - cbn [mbind outcome_bind]. by intros [= <-].
Qed.

(** The loop of the copy constructor throws in the memory in which an
    allocation failed. *)
Lemma copy_loop_alloc {V} fuel dst (e : BasicIterator V) : ∀ s b s',
  copy_loop new_addr fuel dst b e s = Throws s' → new_addr (node s') = None.
Proof.
  induction fuel as [|fuel IH]; intros s b s' E; [done|].
  simpl in E. destruct (iter_ne b e); [|done].
  unfold iter_deref, load in E. destruct (node s !! node_ b) as [n|]; [|done].
  cbn [mbind outcome_bind] in E.
  destruct (PushFront new_addr dst (value n) s) as [s1|s1| |] eqn:E1; try done;
    cbn [mbind outcome_bind] in E.
  - unfold iter_incr, load in E. destruct (node s1 !! node_ b) as [n1|]; [|done].
    cbn [mbind outcome_bind] in E. by eapply IH.
  - injection E as <-. by destruct (PushFront_throws _ _ _ _ E1) as [-> ?].
Qed.

(** [PopFront], [Clear], the destructor and [swap] never throw. *)
Lemma PopFront_no_throw c s (Q : memory T → Prop) :
  returns (PopFront on_heap c s) (λ _, True) Q.
Proof.
  unfold PopFront, load. destruct (node s !! c) as [hd|]; [|done].
  cbn [mbind outcome_bind]. case_decide; [|done].
  destruct (node s !! next_node hd) as [n|]; [|done]. cbn [mbind outcome_bind].
  unfold store_next. destruct (node s !! c); [|done]. cbn [mbind outcome_bind].
  unfold delete_Node. cbn [node size_].
  destruct (<[c:=_]> (node s) !! next_node hd); [|done].
  destruct (on_heap (next_node hd)); [|done]. cbn [mbind outcome_bind].
  unfold decr_size, load_size, store_size. cbn [node size_].
  by destruct (size_ s !! c).
Qed.

Lemma Clear_no_throw fuel c (Q : memory T → Prop) : ∀ s,
  returns (Clear on_heap fuel c s) (λ _, True) Q.
Proof.
  induction fuel as [|fuel IH]; intros s; [done|].
  simpl. unfold load_size. destruct (size_ s !! c) as [n|]; [|done].
  cbn [mbind outcome_bind]. case_decide; [|done].
  eapply returns_bind; [apply PopFront_no_throw|]. intros s1 _. apply IH.
Qed.

Lemma destroy_no_throw fuel c s (Q : memory T → Prop) :
  returns (destroy on_heap fuel c s) (λ _, True) Q.
Proof.
  unfold destroy. eapply returns_bind; [apply Clear_no_throw|]. by intros s1 _.
Qed.

Lemma swap_no_throw a b s (Q : memory T → Prop) :
  returns (swap a b s) (λ _, True) Q.
Proof.
  unfold swap, load, load_size, store_next, store_size.
  destruct (node s !! a); [|done]. cbn [mbind outcome_bind].
  destruct (size_ s !! a); [|done]. cbn [mbind outcome_bind].
  destruct (node s !! b); [|done]. cbn [mbind outcome_bind node size_].
  destruct (size_ s !! b); [|done]. cbn [mbind outcome_bind node size_].
  destruct (size_ s !! a); [|done]. cbn [mbind outcome_bind node size_].
  destruct (<[a:=_]> (size_ s) !! b); [|done]. cbn [mbind outcome_bind node size_].
  by destruct (<[a:=_]> (node s) !! b).
Qed.

Lemma returns_const {A} (r : outcome T A) (P : Prop) :
  P → returns r (λ _, P) (λ _, P).
Proof. by destruct r. Qed.

(** A node in memory after a run that leaked nothing was in memory before
    the run, or belongs to a container of the memory after it. *)
Lemma nodes_accounted_or_old s s' R R' :
  models on_heap s R → models on_heap s' R' → no_new_garbage on_heap s s' →
  ∀ x, is_Some (node s' !! x) →
    is_Some (node s !! x) ∨ is_Some (R' !! x) ∨
    ∃ c l, R' !! c = Some l ∧ x ∈ l.*1.
Proof.
  intros M M' G x Hx.
  destruct (decide (is_Some (R' !! x))) as [|Hc]; [by right; left|].
  destruct (decide (map_Exists (λ _ l, x ∈ l.*1) R')) as [(c & l & Hl & Hin)|Hn].
  { right. right. by exists c, l. }
  left. apply (G x). split; [done|].
  intros [?|(c & l & Hl & Hin)]%(accounted_models s' R' x M'); [done|].
  apply Hn. by exists c, l.
Qed.

(** The two loops of the copy constructor: what they build, and where they
    throw. *)
Lemma copy_loop_throws {V} src dst lrest fuel l0 ld s0 s R b :
  tracks s0 s R → src ≠ dst →
  R !! src = Some (l0 ++ lrest) → R !! dst = Some ld →
  lseg (node s) b nullptr lrest →
  returns (copy_loop (V:=V) new_addr fuel dst (MkIter b) (MkIter nullptr) s)
    (λ s', ∃ ld', tracks s0 s' (<[dst := ld']> R) ∧
                  ld'.*2 = rev lrest.*2 ++ ld.*2)
    (λ s', ∃ ld', tracks s0 s' (<[dst := ld']> R) ∧
                  (length ld' ≤ length ld + length lrest)%nat ∧
                  new_addr (node s') = None).
Proof using alloc_ok.
  intros K Hne Hs Hd Hseg.
  pose proof (copy_loop_spec on_heap new_addr alloc_ok (V:=V) src dst lrest fuel l0 ld
                s R b (proj1 K) Hne Hs Hd Hseg) as H1.
  pose proof (copy_loop_tracks (V:=V) fuel dst (MkIter b) (MkIter nullptr) s0 s R ld K Hd)
    as H2.
  destruct (copy_loop (V:=V) new_addr fuel dst (MkIter b) (MkIter nullptr) s)
    as [s'|s'| |] eqn:E; try done; simpl in H1, H2 |- *.
  - destruct H1 as (ld1 & M1 & Hv), H2 as (ld2 & K2). exists ld2. split; [done|].
    assert (ld1 = ld2) as <-; [|done].
    pose proof (models_unique _ _ _ M1 (proj1 K2)) as Heq.
    apply (f_equal (.!! dst)) in Heq. rewrite !lookup_insert_eq in Heq. congruence.
  - destruct H1 as (ld1 & M1 & Hv), H2 as (ld2 & K2). exists ld2. split; [done|].
    assert (ld1 = ld2) as <-.
    { pose proof (models_unique _ _ _ M1 (proj1 K2)) as Heq.
      apply (f_equal (.!! dst)) in Heq. rewrite !lookup_insert_eq in Heq. congruence. }
    split; [done|]. by eapply copy_loop_alloc.
Qed.

(** The nodes of a memory that leaked nothing and whose containers are
    those of [R] and a few more, with chains [extra]. *)
Lemma nodes_old_or_extra s s' R R' (extra : list Z) :
  models on_heap s R → tracks s s' R' →
  (∀ c, is_Some (R' !! c) → is_Some (R !! c) ∨ c ∈ extra) →
  (∀ c lc x, R' !! c = Some lc → x ∈ lc.*1 → R !! c = Some lc ∨ x ∈ extra) →
  ∀ x, is_Some (node s' !! x) → is_Some (node s !! x) ∨ x ∈ extra.
Proof.
  intros M [M' G] Hcont Hchain x Hx.
  destruct (nodes_accounted_or_old s s' R R' M M' G x Hx)
    as [?|[Hc|(c & lc & Hc & Hin)]]; [by left|..].
  - destruct (Hcont x Hc) as [[l Hl]|?]; [|by right]. left.
    destruct (models_owns _ _ _ M x l Hl) as (hd & Hhd & _). by rewrite Hhd.
  - destruct (Hchain c lc x Hc Hin) as [Hl|?]; [|by right]. left.
    by apply (models_lookup on_heap s R c lc x M Hl).
Qed.

(** The copy constructor throws only when an allocation fails, in a memory
    that holds, besides the nodes there were, the three sentinels and the
    nodes of the two temporaries built so far. *)
Lemma construct_copy_throws fuel s R this other tmp1 tmp l :
  models on_heap s R → R !! other = Some l →
  NoDup [this; tmp1; tmp] → Forall (fresh_object on_heap s) [this; tmp1; tmp] →
  returns (construct_copy T_default on_heap new_addr fuel this other tmp1 tmp s)
    (λ _, True)
    (λ _, ∃ s' (extra : list Z),
            new_addr (node s') = None ∧
            (length extra ≤ 2 * length l + 3)%nat ∧
            ∀ x, is_Some (node s' !! x) → is_Some (node s !! x) ∨ x ∈ extra).
Proof using alloc_ok.
  intros M Hother Hnd Hfr.
  assert (tracks s s R) as K by (split; [done|apply no_new_garbage_refl]).
  apply NoDup_cons in Hnd as [Hn1 Hnd]. apply NoDup_cons in Hnd as [Hn2 _].
  apply not_elem_of_cons in Hn1 as [Hn1 Hn3]. apply not_elem_of_cons in Hn3 as [Hn3 _].
  apply not_elem_of_cons in Hn2 as [Hn2 _].
  apply Forall_cons_1 in Hfr as [F1 Hfr]. apply Forall_cons_1 in Hfr as [F2 Hfr].
  apply Forall_cons_1 in Hfr as [F3 _].
  pose proof (fresh_models _ _ _ _ M F1) as R1.
  pose proof (fresh_models _ _ _ _ M F2) as R2.
  pose proof (fresh_models _ _ _ _ M F3) as R3.
  assert (other ≠ this ∧ other ≠ tmp1 ∧ other ≠ tmp) as (Ho1 & Ho2 & Ho3).
  { split_and!; congruence. }
  destruct F2 as (_ & _ & Hr2 & Ha2), F3 as (_ & _ & Hr3 & Ha3).
  unfold construct_copy. cbv zeta.
  pose proof (construct_tracks s s R this K F1) as K1.
  pose proof (construct_tracks s _ _ tmp1 K1) as K2.
  lapply K2; [clear K2; intros K2|].
  2:{ eapply models_fresh; [exact (proj1 K1)|by rewrite lookup_insert_ne|done..]. }
  set (s2 := construct T_default tmp1 _) in *.
  set (RA := <[tmp1 := []]> (<[this := []]> R)) in *.
  assert (RA !! other = Some ([] ++ l)) as HoA.
  { unfold RA. by rewrite !lookup_insert_ne by done. }
  destruct (models_owns _ _ _ (proj1 K2) _ _ HoA) as (hd & Hhd & Hl & _).
  unfold cbegin, load. rewrite Hhd. cbn [mbind outcome_bind].
  eapply returns_bind.
  { eapply returns_unwind.
    - eapply (copy_loop_throws other tmp1 l fuel [] [] s s2 RA);
        [exact K2|done|exact HoA|apply lookup_insert_eq|exact Hl].
    - intros s' (ld' & K' & Hlen & Hnone). apply returns_const.
      exists s', ([this; tmp1; tmp] ++ ld'.*1). split; [done|]. split.
      { rewrite length_app, length_fmap. simpl in *. lia. }
      apply (nodes_old_or_extra s s' R _ _ M K').
      + intros c. unfold RA. rewrite !lookup_insert.
        repeat case_decide; subst; intros Hc; first [by left|right; chain_solve].
      + intros c lc x. unfold RA. rewrite !lookup_insert.
        repeat case_decide; subst; intros Hc Hin; simplify_eq;
          first [by left|right; chain_solve|by apply elem_of_nil in Hin]. }
  intros s3 (lr & K3 & Hlr). simpl in Hlr. rewrite app_nil_r in Hlr.
  assert (length lr = length l) as Hlenr.
  { rewrite <- (length_fmap snd lr), Hlr, length_rev. by rewrite length_fmap. }
  pose proof (construct_tracks s _ _ tmp K3) as K4.
  lapply K4; [clear K4; intros K4|].
  2:{ eapply models_fresh; [exact (proj1 K3)| |done..].
      unfold RA. by rewrite !lookup_insert_ne. }
  set (s4 := construct T_default tmp _) in *.
  set (RB := <[tmp := []]> (<[tmp1 := lr]> RA)) in *.
  assert (RB !! tmp1 = Some ([] ++ lr)) as H1B.
  { unfold RB. rewrite lookup_insert_ne by done. by rewrite lookup_insert_eq. }
  destruct (models_owns _ _ _ (proj1 K4) _ _ H1B) as (hd1 & Hhd1 & Hl1 & _).
  unfold begin, load. rewrite Hhd1. cbn [mbind outcome_bind].
  eapply returns_bind.
  { eapply returns_unwind.
    - eapply (copy_loop_throws tmp1 tmp lr fuel [] [] s s4 RB);
        [exact K4|done|exact H1B|apply lookup_insert_eq|exact Hl1].
    - intros s' (ld' & K' & Hlen & Hnone). apply returns_const.
      exists s', ([this; tmp1; tmp] ++ lr.*1 ++ ld'.*1). split; [done|]. split.
      { rewrite !length_app, !length_fmap. simpl in *. lia. }
      apply (nodes_old_or_extra s s' R _ _ M K').
      + intros c. unfold RB, RA. rewrite !lookup_insert.
        repeat case_decide; subst; intros Hc; first [by left|right; chain_solve].
      + intros c lc x. unfold RB, RA. rewrite !lookup_insert.
        repeat case_decide; subst; intros Hc Hin; simplify_eq;
          first [by left|right; chain_solve|by apply elem_of_nil in Hin]. }
  intros s5 _. eapply returns_bind; [apply swap_no_throw|]. intros s6 _.
  eapply returns_bind; [apply destroy_no_throw|]. intros s7 _.
  eapply returns_weaken; [apply destroy_no_throw|done|intros ? H; exact H].
Qed.

Section Copy.

Variable eqb : T → T → bool.

(** C2: the copy constructor, when it returns, has built a container [C]
    with the values of [L] in the same order, [C == L] is [true] (for an
    element type whose [operator==] is reflexive), [L] is as it was, the
    two chains share no node, and whatever [PushFront], [PopFront],
    [InsertAfter], [EraseAfter] and [Clear] then do to [C], the values and
    the size of [L] stay the same. With enough fuel the constructor
    returns or throws. It throws only when an allocation of the run failed:
    then there is a memory [s'] in which [new Node] fails and which holds,
    besides the nodes of [s], at most the three sentinels and two nodes for
    every value of [L]. So the copy is produced whenever the free store has
    that much room, and [L] is as it was after a throw as well. *)
Theorem copy_is_equal_and_independent s L C tmp1 tmp :
  (∀ x, eqb x x = true) →
  reachable s → call_ok on_heap s (CopyConstruct C L tmp1 tmp) →
  ∃ vs, observes s L vs ∧
    ∀ fuel, (length vs < fuel)%nat →
      match construct_copy T_default on_heap new_addr fuel C L tmp1 tmp s with
      | Done s1 =>
        observes s1 C vs ∧ observes s1 L vs ∧
        operator_eq eqb fuel C L s1 = Done true ∧
        (∃ lc ll, owns s1 C lc ∧ owns s1 L ll ∧ lc.*1 ## ll.*1) ∧
        ∀ s2, mutated T_default on_heap new_addr C s1 s2 → observes s2 L vs
      | Throws s1 =>
        observes s1 L vs ∧
        ∃ s' (extra : list Z),
          new_addr (node s') = None ∧
          (length extra ≤ 2 * length vs + 3)%nat ∧
          ∀ x, is_Some (node s' !! x) → is_Some (node s !! x) ∨ x ∈ extra
      | _ => False
      end.
Proof using alloc_ok.
  intros Hrefl Hr (Hlive & Hnd & Hfr).
  destruct (reachable_models T_default on_heap new_addr alloc_ok s Hr) as [R M].
  destruct (live_models _ _ _ _ M Hlive) as [l Hl].
  exists l.*2. split; [by eapply owns_observes|].
  intros fuel Hfuel. rewrite length_fmap in Hfuel.
  pose proof (construct_copy_spec T_default on_heap new_addr alloc_ok fuel s R C L
                tmp1 tmp l M Hl Hnd Hfr) as He.
  pose proof (construct_copy_throws fuel s R C L tmp1 tmp l M Hl Hnd Hfr) as Ht.
  assert (C ≠ L) as Hne.
  { intros ->. pose proof (fresh_models _ _ _ _ M (Forall_inv Hfr)). congruence. }
  destruct (construct_copy _ _ _ _ _ _ _ _ _) as [s1|s1| |]; simpl in He, Ht;
    [| |done|lia].
  - destruct He as (l' & M1 & Hl').
    assert (<[C := l']> R !! L = Some l) as HL1 by (by rewrite lookup_insert_ne).
    split; [rewrite <- Hl'; eapply owns_observes; [done|apply lookup_insert_eq]|].
    split; [by eapply owns_observes|]. split.
    + destruct (operator_eq_spec on_heap eqb fuel s1 _ C L l' l M1
                  (lookup_insert_eq _ _ _) HL1)
        as (b & -> & Hiff).
      { rewrite <- (length_fmap snd), Hl', length_fmap. done. }
      f_equal. apply Hiff. rewrite Hl'. split; [done|].
      intros i x y Hx Hy. rewrite Hx in Hy. injection Hy as <-. apply Hrefl.
    + split; [|intros s2 Hmut].
      { exists l', l. split; [eapply models_owns; [done|apply lookup_insert_eq]|].
        split; [by eapply models_owns|].
        eapply (models_disjoint _ _ _ M1 C L); [done|apply lookup_insert_eq|done]. }
      destruct (mutated_frame T_default on_heap new_addr alloc_ok C L l s1 s2 Hmut Hne
                  _ M1 HL1) as (R2 & M2 & HL2).
      by eapply owns_observes.
  - split; [by eapply owns_observes|]. by rewrite length_fmap.
Qed.

End Copy.

End Extras.

(** ** The further properties at work on the concrete machine *)

Lemma one_shot_ok {A} : allocator_ok (T:=A) in_heap one_shot.
Proof.
  intros m a. unfold one_shot. destruct (m !! heap_base) eqn:E; [done|].
  intros [= <-]. split; [done|]. split; [unfold heap_base, size_t_mod; lia|].
  unfold in_heap. apply bool_decide_eq_true. lia.
Qed.

(** What a run of [GetSize] and of the iteration shows is what the
    container holds. *)
Lemma observes_computed (s : memory Z) c vs fuel :
  reachable 0 in_heap bump s →
  GetSize c s = Done (Z.of_nat (length vs)) → (length vs < fuel)%nat →
  to_list fuel c s = Done vs → observes s c vs.
Proof.
  intros Hr Hsz Hfuel Hrun.
  destruct (reachable_models 0 in_heap bump bump_ok s Hr) as [R M].
  assert (live s c) as Hlive.
  { unfold live. unfold GetSize, load_size in Hsz. by destruct (size_ s !! c). }
  destruct (live_models _ _ _ _ M Hlive) as [l Hl].
  pose proof (owns_observes in_heap s R c l M Hl) as Ho.
  assert (vs = l.*2) as ->; [|done].
  destruct Ho as [Hsz' Hrun']. rewrite Hsz in Hsz'.
  injection Hsz' as Hlen. apply Nat2Z.inj in Hlen.
  specialize (Hrun' fuel). rewrite <- Hlen in Hrun'. specialize (Hrun' Hfuel).
  congruence.
Qed.

Ltac reach :=
  lazymatch goal with
  | |- reachable _ _ _ (one_list _) => apply reachable_one_list; concrete
  | |- reachable _ _ _ (two_lists _ _) => apply reachable_two_lists; concrete
  | |- _ => apply reachable_start
  end.

Ltac obs :=
  apply (observes_computed _ _ _ 8); [reach|concrete|simpl; lia|concrete].

Lemma PushFront_prepends_witness :
  allocator_ok (T:=Z) in_heap bump ∧
  reachable 0 in_heap bump (one_list [1; 2; 3]) ∧
  observes (one_list [1; 2; 3]) 1 [1; 2; 3] ∧
  match PushFront bump 1 7 (one_list [1; 2; 3]) with
  | Done s' =>
    reachable 0 in_heap bump s' ∧ observes s' 1 [7; 1; 2; 3] ∧
    ∀ c' vs', c' ≠ 1 → observes (one_list [1; 2; 3]) c' vs' → observes s' c' vs'
  | Throws s' => s' = one_list [1; 2; 3]
  | _ => False
  end.
Proof.
  split; [apply bump_ok|]. split; [reach|]. split; [obs|].
  apply (PushFront_prepends 0 in_heap bump bump_ok); [reach|obs].
Defined.

Lemma PopFront_drops_the_first_witness :
  allocator_ok (T:=Z) in_heap bump ∧
  reachable 0 in_heap bump (one_list [1; 2; 3]) ∧
  observes (one_list [1; 2; 3]) 1 [1; 2; 3] ∧
  ∃ s', PopFront in_heap 1 (one_list [1; 2; 3]) = Done s' ∧
        reachable 0 in_heap bump s' ∧ observes s' 1 [2; 3] ∧
        ∀ c' vs', c' ≠ 1 → observes (one_list [1; 2; 3]) c' vs' → observes s' c' vs'.
Proof.
  split; [apply bump_ok|]. split; [reach|]. split; [obs|].
  apply (PopFront_drops_the_first 0 in_heap bump bump_ok _ 1 [1; 2; 3]); [reach|obs].
Defined.

Lemma InsertAfter_inserts_behind_witness :
  allocator_ok (T:=Z) in_heap bump ∧
  reachable 0 in_heap bump (one_list [1; 2; 3]) ∧
  observes (one_list [1; 2; 3]) 1 [1; 2; 3] ∧
  (b ← cbegin 1 (one_list [1; 2; 3]); advance 1 b (one_list [1; 2; 3]))
  = Done (MkIter 4097) ∧
  match InsertAfter bump 1 (MkIter 4097) 7 (one_list [1; 2; 3]) with
  | Done (it, s') =>
    reachable 0 in_heap bump s' ∧ observes s' 1 [1; 2; 7; 3] ∧
    iter_deref it s' = Done 7 ∧
    (b ← begin 1 s'; advance 2 b s') = Done it ∧
    ∀ c' vs', c' ≠ 1 → observes (one_list [1; 2; 3]) c' vs' → observes s' c' vs'
  | Throws s' => s' = one_list [1; 2; 3]
  | _ => False
  end.
Proof.
  split; [apply bump_ok|]. split; [reach|]. split; [obs|]. split; [concrete|].
  apply (InsertAfter_inserts_behind 0 in_heap bump bump_ok _ 1 [1; 2; 3] 1);
    [reach|obs|simpl; lia|concrete].
Defined.

Lemma EraseAfter_erases_behind_witness :
  allocator_ok (T:=Z) in_heap bump ∧
  reachable 0 in_heap bump (one_list [1; 2; 3]) ∧
  observes (one_list [1; 2; 3]) 1 [1; 2; 3] ∧
  (b ← cbegin 1 (one_list [1; 2; 3]); advance 0 b (one_list [1; 2; 3]))
  = Done (MkIter 4098) ∧
  ∃ it s', EraseAfter in_heap 1 (MkIter 4098) (one_list [1; 2; 3]) = Done (it, s') ∧
    reachable 0 in_heap bump s' ∧ observes s' 1 [1; 3] ∧
    (b ← begin 1 s'; advance 1 b s') = Done it ∧
    ∀ c' vs', c' ≠ 1 → observes (one_list [1; 2; 3]) c' vs' → observes s' c' vs'.
Proof.
  split; [apply bump_ok|]. split; [reach|]. split; [obs|]. split; [concrete|].
  apply (EraseAfter_erases_behind 0 in_heap bump bump_ok _ 1 [1; 2; 3] 0);
    [reach|obs|simpl; lia|concrete].
Defined.

Lemma swap_exchanges_witness :
  allocator_ok (T:=Z) in_heap bump ∧
  reachable 0 in_heap bump (two_lists [1; 2] [3]) ∧
  observes (two_lists [1; 2] [3]) 1 [1; 2] ∧
  observes (two_lists [1; 2] [3]) 2 [3] ∧
  ∃ s', swap 1 2 (two_lists [1; 2] [3]) = Done s' ∧
    reachable 0 in_heap bump s' ∧ observes s' 1 [3] ∧ observes s' 2 [1; 2] ∧
    (∀ c' vs', c' ≠ 1 → c' ≠ 2 →
       observes (two_lists [1; 2] [3]) c' vs' → observes s' c' vs') ∧
    (∀ x, x ≠ 1 → x ≠ 2 → node s' !! x = node (two_lists [1; 2] [3]) !! x) ∧
    swap 1 2 s' = Done (two_lists [1; 2] [3]).
Proof.
  split; [apply bump_ok|]. split; [reach|]. split; [obs|]. split; [obs|].
  apply (swap_exchanges 0 in_heap bump bump_ok); [reach|obs|obs].
Defined.


Lemma iteration_walks_the_values_witness :
  allocator_ok (T:=Z) in_heap bump ∧
  reachable 0 in_heap bump (one_list [1; 2; 3]) ∧
  observes (one_list [1; 2; 3]) 1 [1; 2; 3] ∧
  ∃ b : Iterator,
    begin 1 (one_list [1; 2; 3]) = Done b ∧
    (∀ (i : nat) v, [1; 2; 3] !! i = Some v →
       ∃ it, advance i b (one_list [1; 2; 3]) = Done it ∧
             iter_ne it (end_ (V:=Mutable)) = true ∧
             iter_deref it (one_list [1; 2; 3]) = Done v) ∧
    advance 3 b (one_list [1; 2; 3]) = Done end_ ∧
    iter_incr (end_ (V:=Mutable)) (one_list [1; 2; 3]) = Undefined ∧
    iter_deref (end_ (V:=Mutable)) (one_list [1; 2; 3]) = Undefined ∧
    ∀ it it' : Iterator,
      iter_incr it (one_list [1; 2; 3]) = Done it' →
      iter_post_incr it (one_list [1; 2; 3]) = Done (it, it').
Proof.
  split; [apply bump_ok|]. split; [reach|]. split; [obs|].
  apply (iteration_walks_the_values (V:=Mutable) 0 in_heap bump bump_ok _ 1 [1; 2; 3]);
    [reach|obs].
Defined.

Lemma IsEmpty_iff_begin_is_end_witness :
  allocator_ok (T:=Z) in_heap bump ∧
  reachable 0 in_heap bump (two_lists [] [5]) ∧
  live (two_lists [] [5]) 1 ∧
  ∃ (b : bool) (it : Iterator) (n : Z),
    IsEmpty 1 (two_lists [] [5]) = Done b ∧ begin 1 (two_lists [] [5]) = Done it ∧
    GetSize 1 (two_lists [] [5]) = Done n ∧
    b = iter_eq it (end_ (V:=Mutable)) ∧ b = bool_decide (n = 0).
Proof.
  split; [apply bump_ok|]. split; [reach|]. split; [concrete|].
  apply (IsEmpty_iff_begin_is_end 0 in_heap bump bump_ok); [reach|concrete].
Defined.

Lemma default_construction_is_empty_witness :
  allocator_ok (T:=Z) in_heap bump ∧
  reachable 0 in_heap bump (one_list [1; 2; 3]) ∧
  fresh_object in_heap (one_list [1; 2; 3]) 2 ∧
  reachable 0 in_heap bump (construct 0 2 (one_list [1; 2; 3])) ∧
  observes (construct 0 2 (one_list [1; 2; 3])) 2 [] ∧
  IsEmpty 2 (construct 0 2 (one_list [1; 2; 3])) = Done true ∧
  ∀ c' vs', observes (one_list [1; 2; 3]) c' vs' →
            observes (construct 0 2 (one_list [1; 2; 3])) c' vs'.
Proof.
  split; [apply bump_ok|]. split; [reach|]. split; [concrete|].
  apply (default_construction_is_empty 0 in_heap bump bump_ok); [reach|concrete].
Defined.

Lemma destructor_frees_every_node_witness :
  allocator_ok (T:=Z) in_heap bump ∧
  reachable 0 in_heap bump (two_lists [1; 2; 3] [4]) ∧
  observes (two_lists [1; 2; 3] [4]) 1 [1; 2; 3] ∧
  ∃ s' l, destroy in_heap 8 1 (two_lists [1; 2; 3] [4]) = Done s' ∧
    owns (two_lists [1; 2; 3] [4]) 1 l ∧ l.*2 = [1; 2; 3] ∧
    (∀ x, node s' !! x =
          if decide (x = 1 ∨ x ∈ l.*1) then None
          else node (two_lists [1; 2; 3] [4]) !! x) ∧
    ¬ live s' 1 ∧ no_new_garbage in_heap (two_lists [1; 2; 3] [4]) s' ∧
    ∀ c' vs', c' ≠ 1 →
      observes (two_lists [1; 2; 3] [4]) c' vs' → observes s' c' vs'.
Proof.
  split; [apply bump_ok|]. split; [reach|]. split; [obs|].
  apply (destructor_frees_every_node 0 in_heap bump bump_ok); [reach|obs|simpl; lia].
Defined.

Lemma public_operations_leak_nothing_witness :
  allocator_ok (T:=Z) in_heap bump ∧
  reachable 0 in_heap bump (one_list [1; 2; 3]) ∧
  call_ok in_heap (one_list [1; 2; 3]) (CopyConstruct 2 1 3 4) ∧
  match exec 0 in_heap bump 8 (CopyConstruct 2 1 3 4) (one_list [1; 2; 3]) with
  | Done s' => no_new_garbage in_heap (one_list [1; 2; 3]) s'
  | Throws s' => no_new_garbage in_heap (one_list [1; 2; 3]) s'
  | Undefined => False
  | OutOfFuel => True
  end.
Proof.
  split; [apply bump_ok|]. split; [reach|]. split; [simpl; concrete|].
  apply (public_operations_leak_nothing 0 in_heap bump bump_ok _
           (CopyConstruct 2 1 3 4) 8); [reach|simpl; concrete].
Defined.

Lemma comparisons_are_a_trichotomy_witness :
  allocator_ok (T:=Z) in_heap bump ∧
  (∀ x y, Z.eqb x y = true ↔ Z.ltb x y = false ∧ Z.ltb y x = false) ∧
  (∀ x y, Z.ltb x y = true → Z.ltb y x = false) ∧
  reachable 0 in_heap bump (two_lists [1; 2; 3] [1; 2; 4]) ∧
  observes (two_lists [1; 2; 3] [1; 2; 4]) 1 [1; 2; 3] ∧
  observes (two_lists [1; 2; 3] [1; 2; 4]) 2 [1; 2; 4] ∧
  ∃ lt eq gt : bool,
    operator_lt Z.ltb 8 1 2 (two_lists [1; 2; 3] [1; 2; 4]) = Done lt ∧
    operator_eq Z.eqb 8 1 2 (two_lists [1; 2; 3] [1; 2; 4]) = Done eq ∧
    operator_gt Z.ltb 8 1 2 (two_lists [1; 2; 3] [1; 2; 4]) = Done gt ∧
    ((lt = true ∧ eq = false ∧ gt = false) ∨
     (lt = false ∧ eq = true ∧ gt = false) ∨
     (lt = false ∧ eq = false ∧ gt = true)) ∧
    operator_le Z.ltb 8 1 2 (two_lists [1; 2; 3] [1; 2; 4]) = Done (lt || eq) ∧
    operator_ne Z.eqb 8 1 2 (two_lists [1; 2; 3] [1; 2; 4]) = Done (lt || gt) ∧
    operator_ge Z.ltb 8 1 2 (two_lists [1; 2; 3] [1; 2; 4]) = Done (lt || eq).
Proof.
  assert (∀ x y, Z.eqb x y = true ↔ Z.ltb x y = false ∧ Z.ltb y x = false) as Heq.
  { intros x y. rewrite Z.eqb_eq, !Z.ltb_ge. lia. }
  assert (∀ x y, Z.ltb x y = true → Z.ltb y x = false) as Hasym.
  { intros x y. rewrite Z.ltb_lt, Z.ltb_ge. lia. }
  split; [apply bump_ok|]. split; [exact Heq|]. split; [exact Hasym|].
  split; [reach|]. split; [obs|]. split; [obs|].
  apply (comparisons_are_a_trichotomy 0 in_heap bump bump_ok Z.eqb Z.ltb _ 1 2
           [1; 2; 3] [1; 2; 4] 8); [exact Heq|exact Hasym|reach|obs|obs|simpl; lia].
Defined.

Lemma initializer_list_constructor_builds_in_order_witness :
  allocator_ok (T:=Z) in_heap bump ∧
  reachable 0 in_heap bump (one_list [4]) ∧
  fresh_object in_heap (one_list [4]) 2 ∧ array_ok (ints [1; 2; 3]) ∧
  match construct_init 0 bump 8 2 (ints [1; 2; 3]) (one_list [4]) with
  | Done s' =>
    reachable 0 in_heap bump s' ∧ observes s' 2 [1; 2; 3] ∧
    ∀ c' vs', observes (one_list [4]) c' vs' → observes s' c' vs'
  | Throws s' =>
    reachable 0 in_heap bump s' ∧ ¬ live s' 2 ∧
    ∀ c' vs', observes (one_list [4]) c' vs' → observes s' c' vs'
  | _ => False
  end.
Proof.
  split; [apply bump_ok|]. split; [reach|]. split; [concrete|]. split; [concrete|].
  apply (initializer_list_constructor_builds_in_order 0 in_heap bump bump_ok _ 2
           (ints [1; 2; 3]) 8); [reach|concrete|concrete|simpl; lia].
Defined.

Lemma initializer_list_constructor_leaks_when_it_throws_witness :
  allocator_ok (T:=Z) in_heap one_shot ∧
  reachable 0 in_heap one_shot empty_memory ∧
  fresh_object in_heap empty_memory 1 ∧ array_ok (ints [1; 2]) ∧
  construct_init 0 one_shot 8 1 (ints [1; 2]) empty_memory
  = Throws (thrown (construct_init 0 one_shot 8 1 (ints [1; 2]) empty_memory)) ∧
  one_shot (node (construct 0 1 empty_memory)) = Some 4096 ∧
  garbage in_heap (thrown (construct_init 0 one_shot 8 1 (ints [1; 2]) empty_memory))
    4096 ∧
  ¬ garbage in_heap empty_memory 4096 ∧
  reachable 0 in_heap one_shot
    (thrown (construct_init 0 one_shot 8 1 (ints [1; 2]) empty_memory)) ∧
  ¬ live (thrown (construct_init 0 one_shot 8 1 (ints [1; 2]) empty_memory)) 1 ∧
  ∀ c' vs', observes empty_memory c' vs' →
    observes (thrown (construct_init 0 one_shot 8 1 (ints [1; 2]) empty_memory))
      c' vs'.
Proof.
  split; [apply one_shot_ok|]. split; [apply reachable_start|].
  split; [concrete|]. split; [concrete|]. split; [concrete|]. split; [concrete|].
  apply (initializer_list_constructor_leaks_when_it_throws 0 in_heap one_shot
           one_shot_ok empty_memory 1 (ints [1; 2]) 8);
    [apply reachable_start|concrete..].
Defined.

Lemma PopFront_undoes_PushFront_witness :
  allocator_ok (T:=Z) in_heap bump ∧
  reachable 0 in_heap bump (one_list [1; 2; 3]) ∧
  live (one_list [1; 2; 3]) 1 ∧
  match PushFront bump 1 7 (one_list [1; 2; 3]) with
  | Done s' => PopFront in_heap 1 s' = Done (one_list [1; 2; 3])
  | Throws s' => s' = one_list [1; 2; 3]
  | _ => False
  end.
Proof.
  split; [apply bump_ok|]. split; [reach|]. split; [concrete|].
  apply (PopFront_undoes_PushFront 0 in_heap bump bump_ok); [reach|concrete].
Defined.

Lemma EraseAfter_undoes_InsertAfter_witness :
  allocator_ok (T:=Z) in_heap bump ∧
  reachable 0 in_heap bump (one_list [1; 2; 3]) ∧
  observes (one_list [1; 2; 3]) 1 [1; 2; 3] ∧
  (b ← cbegin 1 (one_list [1; 2; 3]); advance 1 b (one_list [1; 2; 3]))
  = Done (MkIter 4097) ∧
  match InsertAfter bump 1 (MkIter 4097) 7 (one_list [1; 2; 3]) with
  | Done (it, s') =>
    ∃ nxt : ConstIterator,
      iter_incr (MkIter 4097) (one_list [1; 2; 3]) = Done nxt ∧
      EraseAfter in_heap 1 (MkIter 4097) s'
      = Done (MkIter (node_ nxt), one_list [1; 2; 3])
  | Throws s' => s' = one_list [1; 2; 3]
  | _ => False
  end.
Proof.
  split; [apply bump_ok|]. split; [reach|]. split; [obs|]. split; [concrete|].
  apply (EraseAfter_undoes_InsertAfter 0 in_heap bump bump_ok _ 1 [1; 2; 3] 1);
    [reach|obs|simpl; lia|concrete].
Defined.

(** The branch of a run that returned. *)
Lemma Done_branch {A} (r : outcome Z A) (P : A → Prop) (Q : memory Z → Prop) a :
  r = Done a →
  match r with Done x => P x | Throws s => Q s | _ => False end → P a.
Proof. by intros ->. Qed.

Lemma copy_is_equal_and_independent_witness :
  allocator_ok (T:=Z) in_heap bump ∧
  (∀ x, Z.eqb x x = true) ∧
  reachable 0 in_heap bump (one_list [1; 2; 3]) ∧
  call_ok in_heap (one_list [1; 2; 3]) (CopyConstruct 2 1 3 4) ∧
  observes (one_list [1; 2; 3]) 1 [1; 2; 3] ∧
  ∃ s1,
    construct_copy 0 in_heap bump 8 2 1 3 4 (one_list [1; 2; 3]) = Done s1 ∧
    observes s1 2 [1; 2; 3] ∧ observes s1 1 [1; 2; 3] ∧
    operator_eq Z.eqb 8 2 1 s1 = Done true ∧
    (∃ lc ll, owns s1 2 lc ∧ owns s1 1 ll ∧ lc.*1 ## ll.*1) ∧
    ∀ s2, mutated 0 in_heap bump 2 s1 s2 → observes s2 1 [1; 2; 3].
Proof.
  split; [apply bump_ok|]. split; [apply Z.eqb_refl|]. split; [reach|].
  split; [simpl; concrete|]. split; [obs|].
  destruct (copy_is_equal_and_independent 0 in_heap bump bump_ok Z.eqb
              (one_list [1; 2; 3]) 1 2 3 4) as (vs & Hvs & H);
    [apply Z.eqb_refl|reach|simpl; concrete|].
  assert (vs = [1; 2; 3]) as -> by (eapply observes_unique; [exact Hvs|obs]).
  specialize (H 8%nat ltac:(simpl; lia)).
  assert (construct_copy 0 in_heap bump 8 2 1 3 4 (one_list [1; 2; 3])
          = Done (result (construct_copy 0 in_heap bump 8 2 1 3 4 (one_list [1; 2; 3]))))
    as E by (vm_compute; reflexivity).
  exists (result (construct_copy 0 in_heap bump 8 2 1 3 4 (one_list [1; 2; 3]))).
  split; [exact E|]. apply (Done_branch _ _ _ _ E) in H. exact H.
Defined.
